(** * GoPiper: text segmentation, bounded queue, parallel synthesis and
    WAV concatenation.

    A shallow embedding of the core of the GoPiper server and the proofs
    of its specified properties.

    Go strings are modelled as sequences of Unicode code points (the
    service receives its text through [encoding/json], which only
    produces valid UTF-8); [len] is the UTF-8 byte length, as in Go, and
    [[]rune(s)] is the sequence itself. *)

From Stdlib Require Import ZArith List Lia Bool String Ascii Permutation.
From stdpp Require Import base list gmap sets strings pretty.

Open Scope Z_scope.

(** ** Go strings *)

Abbreviation rune := Z.
Abbreviation gostring := (list Z).

(** [utf8.RuneLen] on valid code points. *)
Definition RuneLen (r : rune) : Z :=
  if r <? 0x80 then 1
  else if r <? 0x800 then 2
  else if r <? 0x10000 then 3
  else 4.

(** Go's [len(s)]: the number of bytes of the UTF-8 encoding. *)
Fixpoint len (s : gostring) : Z :=
  match s with
  | [] => 0
  | r :: s' => RuneLen r + len s'
  end.

(** Decoding of UTF-8 bytes, used to write the string literals of the
    source as they appear there. *)
Fixpoint decodeRunes (bs : list Z) : gostring :=
  match bs with
  | [] => []
  | b0 :: t0 =>
    if b0 <? 0x80 then b0 :: decodeRunes t0
    else
      match t0 with
      | [] => [0xFFFD]
      | b1 :: t1 =>
        if b0 <? 0xE0 then
          Z.lor (Z.shiftl (Z.land b0 0x1F) 6) (Z.land b1 0x3F) :: decodeRunes t1
        else
          match t1 with
          | [] => [0xFFFD]
          | b2 :: t2 =>
            if b0 <? 0xF0 then
              Z.lor (Z.shiftl (Z.land b0 0x0F) 12)
                (Z.lor (Z.shiftl (Z.land b1 0x3F) 6) (Z.land b2 0x3F))
                :: decodeRunes t2
            else
              match t2 with
              | [] => [0xFFFD]
              | b3 :: t3 =>
                Z.lor (Z.shiftl (Z.land b0 0x07) 18)
                  (Z.lor (Z.shiftl (Z.land b1 0x3F) 12)
                     (Z.lor (Z.shiftl (Z.land b2 0x3F) 6) (Z.land b3 0x3F)))
                  :: decodeRunes t3
              end
          end
      end
  end.

Fixpoint bytesOf (s : string) : list Z :=
  match s with
  | EmptyString => []
  | String a s' => Z.of_nat (nat_of_ascii a) :: bytesOf s'
  end.

(** A Go string literal. *)
Definition G (s : string) : gostring := decodeRunes (bytesOf s).

(** A Go rune literal. *)
Definition R (s : string) : rune := hd 0 (G s).

Definition str_eqb (a b : gostring) : bool := bool_decide (a = b).

(** ** Package unicode *)

(** [unicode.IsSpace]: the Latin-1 spaces and the code points of the
    White_Space property. *)
Definition IsSpace (r : rune) : bool :=
  if r <=? 0xFF then
    (r =? 9) || (r =? 10) || (r =? 11) || (r =? 12) || (r =? 13)
    || (r =? 32) || (r =? 0x85) || (r =? 0xA0)
  else
    (r =? 0x1680) || ((0x2000 <=? r) && (r <=? 0x200A))
    || (r =? 0x2028) || (r =? 0x2029) || (r =? 0x202F)
    || (r =? 0x205F) || (r =? 0x3000).

(** [unicode.IsUpper]: decided by the Latin-1 property table below
    U+0100 and by the range table [Upper] above it.  The range table is
    data of the Go standard library; it is taken as the parameter
    [isExcludingLatinUpper]. *)
Definition IsUpper (isExcludingLatinUpper : rune -> bool) (r : rune) : bool :=
  if (0 <=? r) && (r <=? 0xFF) then
    ((0x41 <=? r) && (r <=? 0x5A))
    || ((0xC0 <=? r) && (r <=? 0xD6))
    || ((0xD8 <=? r) && (r <=? 0xDE))
  else isExcludingLatinUpper r.

(** ** Package strings *)

Fixpoint HasPrefix (s prefix : gostring) : bool :=
  match prefix, s with
  | [], _ => true
  | p :: prefix', c :: s' => (c =? p) && HasPrefix s' prefix'
  | _ :: _, [] => false
  end.

Definition HasSuffix (s suffix : gostring) : bool :=
  HasPrefix (rev s) (rev suffix).

Fixpoint Contains (s substr : gostring) : bool :=
  HasPrefix s substr ||
  match s with
  | [] => false
  | _ :: s' => Contains s' substr
  end.

Fixpoint dropWhile {A} (f : A -> bool) (l : list A) : list A :=
  match l with
  | [] => []
  | x :: l' => if f x then dropWhile f l' else l
  end.

Definition TrimSpace (s : gostring) : gostring :=
  rev (dropWhile IsSpace (rev (dropWhile IsSpace s))).

Definition TrimPrefix (s prefix : gostring) : gostring :=
  if HasPrefix s prefix then drop (length prefix) s else s.

Definition TrimSuffix (s suffix : gostring) : gostring :=
  if HasSuffix s suffix then take (length s - length suffix)%nat s else s.

(** [strings.ReplaceAll s old new] for a non-empty [old]: the
    non-overlapping occurrences of [old], from the left. *)
Fixpoint ReplaceAll_loop (fuel : nat) (s old new : gostring) : gostring :=
  match fuel with
  | O => s
  | S fuel' =>
    match s with
    | [] => []
    | c :: s' =>
      if HasPrefix s old
      then new ++ ReplaceAll_loop fuel' (drop (length old) s) old new
      else c :: ReplaceAll_loop fuel' s' old new
    end
  end.

Definition ReplaceAll (s old new : gostring) : gostring :=
  ReplaceAll_loop (S (length s)) s old new.

(** ** Package regexp

    The patterns of the source as syntax trees, matched with the
    leftmost-first priorities of Go's [regexp] (alternatives from the
    left, greedy or lazy repetition).  A position is the text before it,
    reversed, and the text after it. *)

Inductive re : Type :=
| Class (f : rune -> bool)
| Eps
| Cat (a b : re)
| Alt (a b : re)
| Star (greedy : bool) (a : re)
| Cap (n : nat) (a : re)
| WordBoundary
| EndText.

Definition pos := (list rune * list rune)%type.
Definition caps := list (nat * gostring).

(** The text between a position and a later one. *)
Definition between (p p' : pos) : gostring :=
  take (length p.2 - length p'.2)%nat p.2.

(** [\w], [\s] and [\d] of RE2 are ASCII classes. *)
Definition perl_w (r : rune) : bool :=
  ((0x30 <=? r) && (r <=? 0x39)) || ((0x41 <=? r) && (r <=? 0x5A))
  || ((0x61 <=? r) && (r <=? 0x7A)) || (r =? 0x5F).

Definition perl_s (r : rune) : bool :=
  (r =? 9) || (r =? 10) || (r =? 12) || (r =? 13) || (r =? 32).

Definition isWordAt (o : option rune) : bool :=
  match o with
  | Some r => perl_w r
  | None => false
  end.

Fixpoint star_loop (step : pos -> caps -> list (pos * caps)) (greedy : bool)
    (fuel : nat) (p : pos) (c : caps) : list (pos * caps) :=
  match fuel with
  | O => [(p, c)]
  | S fuel' =>
    let more :=
      flat_map (fun pc : pos * caps =>
                  if (length pc.1.2 <? length p.2)%nat
                  then star_loop step greedy fuel' pc.1 pc.2
                  else [])
               (step p c) in
    if greedy then more ++ [(p, c)] else (p, c) :: more
  end.

(** All the ways [r] matches at position [p], best first. *)
Fixpoint run (r : re) (p : pos) (c : caps) : list (pos * caps) :=
  match r with
  | Class f =>
    match p.2 with
    | x :: s' => if f x then [((x :: p.1, s'), c)] else []
    | [] => []
    end
  | Eps => [(p, c)]
  | Cat a b => flat_map (fun pc : pos * caps => run b pc.1 pc.2) (run a p c)
  | Alt a b => run a p c ++ run b p c
  | Star greedy a => star_loop (run a) greedy (S (length p.2)) p c
  | Cap n a =>
    map (fun pc : pos * caps => (pc.1, (n, between p pc.1) :: pc.2)) (run a p c)
  | WordBoundary =>
    if xorb (isWordAt (head p.1)) (isWordAt (head p.2)) then [(p, c)] else []
  | EndText =>
    match p.2 with
    | [] => [(p, c)]
    | _ :: _ => []
    end
  end.

(** The match at [p], if any.  Every pattern of the source consumes at
    least one rune; an empty match is not taken. *)
Definition matchAt (r : re) (p : pos) : option (pos * caps) :=
  match run r p [] with
  | (p', c) :: _ => if (length p'.2 <? length p.2)%nat then Some (p', c) else None
  | [] => None
  end.

Fixpoint group (n : nat) (c : caps) : gostring :=
  match c with
  | [] => []
  | (m, s) :: c' => if (m =? n)%nat then s else group n c'
  end.

(** [ReplaceAllStringFunc], the replacement computed from the match and
    its groups. *)
Fixpoint replace_loop (fuel : nat) (r : re)
    (f : gostring -> caps -> gostring) (p : pos) : gostring :=
  match fuel with
  | O => p.2
  | S fuel' =>
    match matchAt r p with
    | Some (p', c) => f (between p p') c ++ replace_loop fuel' r f p'
    | None =>
      match p.2 with
      | [] => []
      | x :: s' => x :: replace_loop fuel' r f (x :: p.1, s')
      end
    end
  end.

Definition ReplaceAllStringFunc (r : re) (s : gostring)
    (f : gostring -> gostring) : gostring :=
  replace_loop (S (length s)) r (fun m _ => f m) ([], s).

(** A replacement template: literal text and [$n] references. *)
Inductive titem : Type :=
| TText (s : gostring)
| TGroup (n : nat).

Definition expand (t : list titem) (c : caps) : gostring :=
  flat_map (fun i => match i with TText s => s | TGroup n => group n c end) t.

Definition ReplaceAllString (r : re) (s : gostring) (t : list titem) : gostring :=
  replace_loop (S (length s)) r (fun _ c => expand t c) ([], s).

(** The matches of [r] in the text, from the left: [FindAllString]. *)
Fixpoint find_loop (fuel : nat) (r : re) (p : pos) : list gostring :=
  match fuel with
  | O => []
  | S fuel' =>
    match matchAt r p with
    | Some (p', _) => between p p' :: find_loop fuel' r p'
    | None =>
      match p.2 with
      | [] => []
      | x :: s' => find_loop fuel' r (x :: p.1, s')
      end
    end
  end.

Definition FindAllString (r : re) (s : gostring) : list gostring :=
  find_loop (S (length s)) r ([], s).

Definition MatchString (r : re) (s : gostring) : bool :=
  match FindAllString r s with
  | [] => false
  | _ :: _ => true
  end.

(** [Split(s, -1)]: the pieces between the matches and the tail. *)
Fixpoint split_loop (fuel : nat) (r : re) (p : pos) (piece : gostring)
    : list gostring :=
  match fuel with
  | O => [piece]
  | S fuel' =>
    match matchAt r p with
    | Some (p', _) => piece :: split_loop fuel' r p' []
    | None =>
      match p.2 with
      | [] => [piece]
      | x :: s' => split_loop fuel' r (x :: p.1, s') (piece ++ [x])
      end
    end
  end.

Definition Split (r : re) (s : gostring) : list gostring :=
  split_loop (S (length s)) r ([], s) [].

(** Pattern syntax. *)
Definition oneOf (l : gostring) : rune -> bool :=
  fun x => existsb (Z.eqb x) l.
Definition range (a b : rune) : rune -> bool :=
  fun x => (a <=? x) && (x <=? b).
Definition orC (f g : rune -> bool) : rune -> bool := fun x => f x || g x.
Definition notC (f : rune -> bool) : rune -> bool := fun x => negb (f x).

Definition chr (s : string) : re := Class (Z.eqb (R s)).
Definition plus (greedy : bool) (a : re) : re := Cat a (Star greedy a).
Fixpoint cat (l : list re) : re :=
  match l with
  | [] => Eps
  | [a] => a
  | a :: l' => Cat a (cat l')
  end.
Fixpoint alt (l : list re) : re :=
  match l with
  | [] => Class (fun _ => false)
  | [a] => a
  | a :: l' => Alt a (alt l')
  end.

(** Simple case folding of a letter of a pattern under [(?i)]: the
    orbits of the ASCII and Latin-1 letters. *)
Definition foldEq (c x : rune) : bool :=
  let lower := if ((0x41 <=? c) && (c <=? 0x5A))
                  || ((0xC0 <=? c) && (c <=? 0xDE) && negb (c =? 0xD7))
               then c + 32 else c in
  let isLetter := ((0x61 <=? lower) && (lower <=? 0x7A))
                  || ((0xE0 <=? lower) && (lower <=? 0xFE) && negb (lower =? 0xF7)) in
  (x =? c)
  || (isLetter && ((x =? lower) || (x =? lower - 32)))
  || ((lower =? 0x6B) && (x =? 0x212A))
  || ((lower =? 0x73) && (x =? 0x17F))
  || ((lower =? 0xE5) && (x =? 0x212B)).

(** A literal under [(?i)]. *)
Definition liti (s : string) : re := cat (map (fun c => Class (foldEq c)) (G s)).


(** ** Text normalization and segmentation *)

Definition upperES : rune -> bool :=
  orC (range (R "A") (R "Z")) (oneOf (G "ÁÉÍÓÚÑÜ")).

Definition ws : re := Class perl_s.
Definition newline : re := Class (Z.eqb 10).

(** The loop [for Contains("..") && !Contains("...")]. *)
Fixpoint squeezeDots (fuel : nat) (s : gostring) : gostring :=
  match fuel with
  | O => s
  | S fuel' =>
    if Contains s (G "..") && negb (Contains s (G "..."))
    then squeezeDots fuel' (ReplaceAll s (G "..") (G "."))
    else s
  end.

Definition normalizeTextForTTS (text : gostring) : gostring :=
  let normalized := text in
  (* Handle line breaks *)
  let normalized :=
    ReplaceAllString (cat [newline; Star true ws; newline]) normalized
      [TText (G ". ")] in
  let normalized := ReplaceAll normalized [10] (G " ") in
  (* Normalize quotes and dashes *)
  let normalized := ReplaceAll normalized [0x201C] [34] in
  let normalized := ReplaceAll normalized [0x201D] [34] in
  let normalized := ReplaceAll normalized [0x2018] [34] in
  let normalized := ReplaceAll normalized [0x2019] [34] in
  let normalized := ReplaceAll normalized [0x2013] (G "-") in
  let normalized := ReplaceAll normalized [0x2014] (G "-") in
  let normalized := ReplaceAll normalized [0x2026] (G "...") in
  (* Fix malformed punctuation combinations *)
  let normalized := ReplaceAll normalized (G "¿¡") (G "¿") in
  let normalized := ReplaceAll normalized (G "¡¿") (G "¡") in
  let normalized := ReplaceAll normalized (G "?!") (G "?") in
  let normalized := ReplaceAll normalized (G "!?") (G "!") in
  (* Remove duplicate punctuation marks *)
  let normalized :=
    ReplaceAllString (cat [chr "¿"; plus true (chr "¿")]) normalized [TText (G "¿")] in
  let normalized :=
    ReplaceAllString (cat [chr "¡"; plus true (chr "¡")]) normalized [TText (G "¡")] in
  let normalized :=
    ReplaceAllString (cat [chr "?"; plus true (chr "?")]) normalized [TText (G "?")] in
  let normalized :=
    ReplaceAllString (cat [chr "!"; plus true (chr "!")]) normalized [TText (G "!")] in
  (* Ensure proper question format *)
  let normalized :=
    ReplaceAllStringFunc
      (cat [chr "¿"; Cap 1 (Star false (Class (notC (oneOf (G "?"))))); chr "?"])
      normalized
      (fun m =>
         let content := TrimPrefix (TrimSuffix m (G "?")) (G "¿") in
         G "¿" ++ TrimSpace content ++ G "?") in
  (* Ensure proper exclamation format *)
  let normalized :=
    ReplaceAllStringFunc
      (cat [chr "¡"; Cap 1 (Star false (Class (notC (oneOf (G "!"))))); chr "!"])
      normalized
      (fun m =>
         let content := TrimPrefix (TrimSuffix m (G "!")) (G "¡") in
         G "¡" ++ TrimSpace content ++ G "!") in
  (* Fix incomplete patterns *)
  let normalized :=
    ReplaceAllString
      (cat [chr "¿"; Star true ws;
            Cap 1 (Star false (Class (notC (oneOf (G "?"))))); chr "."])
      normalized [TText (G "¿"); TGroup 1; TText (G "?")] in
  let normalized :=
    ReplaceAllString
      (cat [chr "¡"; Star true ws;
            Cap 1 (Star false (Class (notC (oneOf (G "!"))))); chr "."])
      normalized [TText (G "¡"); TGroup 1; TText (G "!")] in
  (* Fix sentences ending with colon *)
  let normalized :=
    ReplaceAllString (cat [chr ":"; Star true ws; EndText]) normalized
      [TText (G ".")] in
  let normalized :=
    ReplaceAllString (cat [chr ":"; Star true ws; Cap 1 (Class upperES)])
      normalized [TText (G ". "); TGroup 1] in
  (* Clean up spacing *)
  let normalized :=
    ReplaceAllString (cat [plus true ws; Cap 1 (Class (oneOf (G ".!?¿¡,;:")))])
      normalized [TGroup 1] in
  let normalized :=
    ReplaceAllString
      (cat [Cap 1 (Class (oneOf (G ".!?"))); Star true ws;
            Cap 2 (Class (oneOf (G "¿¡")))])
      normalized [TGroup 1; TText (G " "); TGroup 2] in
  (* Ensure proper spacing after punctuation *)
  let normalized :=
    ReplaceAllString
      (cat [Cap 1 (Class (oneOf (G ".!?"))); Star true ws; Cap 2 (Class upperES)])
      normalized [TGroup 1; TText (G " "); TGroup 2] in
  let normalized :=
    ReplaceAllString
      (cat [Cap 1 (Class (oneOf (G ",:;"))); Star true ws; Cap 2 (Class upperES)])
      normalized [TGroup 1; TText (G " "); TGroup 2] in
  (* Clean up multiple periods *)
  let normalized :=
    ReplaceAllString
      (cat [chr "."; chr "."; chr "."; chr "."; Star true (chr ".")])
      normalized [TText (G "...")] in
  let normalized := squeezeDots (length normalized) normalized in
  (* Remove duplicate punctuation *)
  let normalized :=
    ReplaceAllString
      (cat [Cap 1 (Class (oneOf (G "!?"))); Cap 1 (Class (oneOf (G "!?")));
            Star true (Cap 1 (Class (oneOf (G "!?"))))])
      normalized [TGroup 1] in
  (* Normalize whitespace *)
  let normalized := ReplaceAllString (plus true ws) normalized [TText (G " ")] in
  TrimSpace normalized.


Definition wordB : re := WordBoundary.

Definition enhanceSentenceForTTS (sentence : gostring) : gostring :=
  let enhanced :=
    ReplaceAllString (plus true (Class (oneOf [13; 10; 9]))) sentence
      [TText (G " ")] in
  let enhanced := ReplaceAllString (plus true ws) enhanced [TText (G " ")] in
  let enhanced := TrimSpace enhanced in
  if str_eqb enhanced [] then enhanced
  else
    (* Check if sentence has ending punctuation *)
    let hasEndingPunctuation :=
      MatchString (cat [Class (oneOf (G ".!?…")); EndText]) enhanced in
    let enhanced :=
      if negb hasEndingPunctuation then
        if HasPrefix enhanced (G "¿")
           || MatchString
                (cat [wordB;
                      Cap 1 (alt [liti "qué"; liti "quién"; liti "cuándo";
                                  liti "dónde"; liti "cómo"; liti "por qué";
                                  liti "cuál"]);
                      wordB]) enhanced
        then enhanced ++ G "?"
        else if HasPrefix enhanced (G "¡")
                || MatchString
                     (cat [wordB;
                           Cap 1 (alt [liti "wow"; liti "increíble";
                                       liti "excelente"; liti "fantástico"]);
                           wordB]) enhanced
        then enhanced ++ G "!"
        else enhanced ++ G "."
      else enhanced in
    (* Add opening punctuation if missing *)
    let enhanced :=
      if HasSuffix enhanced (G "?") && negb (Contains enhanced (G "¿"))
         && negb (MatchString
                    (cat [wordB;
                          Cap 1 (alt [liti "yes"; liti "no"; liti "si"; liti "sí"]);
                          wordB]) enhanced)
      then G "¿" ++ enhanced else enhanced in
    let enhanced :=
      if HasSuffix enhanced (G "!") && negb (Contains enhanced (G "¡"))
         && MatchString
              (cat [wordB;
                    Cap 1 (alt [liti "wow"; liti "increíble"; liti "excelente";
                                liti "fantástico"; liti "bravo"; liti "genial"]);
                    wordB]) enhanced
      then G "¡" ++ enhanced else enhanced in
    (* Remove duplicate punctuation *)
    let enhanced :=
      ReplaceAllString (cat [chr "¿"; plus true (chr "¿")]) enhanced [TText (G "¿")] in
    let enhanced :=
      ReplaceAllString (cat [chr "¡"; plus true (chr "¡")]) enhanced [TText (G "¡")] in
    let enhanced :=
      ReplaceAllString (cat [chr "?"; plus true (chr "?")]) enhanced [TText (G "?")] in
    let enhanced :=
      ReplaceAllString (cat [chr "!"; plus true (chr "!")]) enhanced [TText (G "!")] in
    enhanced.

Definition naturalBreaksPattern : re :=
  Cap 1
    (cat [Class (oneOf (G ",:;")); plus true ws;
          alt [liti "pero"; liti "sin embargo"; liti "además"; liti "por tanto";
               liti "por lo tanto"; liti "no obstante"; liti "mientras";
               liti "cuando"; liti "donde"; liti "como"; liti "que"; liti "si";
               liti "aunque"; liti "porque"; liti "ya que"; liti "dado que";
               liti "puesto que"]]).

(** The loop of [splitLongSentence] over the parts: the chunks closed so
    far and the chunk being filled. *)
Definition chunkStep (st : list gostring * gostring) (part : gostring)
    : list gostring * gostring :=
  let '(chunks, currentChunk) := st in
  if (0 <? len currentChunk) && (200 <? len (currentChunk ++ part)) then
    (if negb (str_eqb (TrimSpace currentChunk) [])
     then chunks ++ [enhanceSentenceForTTS (TrimSpace currentChunk)]
     else chunks,
     part)
  else (chunks, currentChunk ++ part).

Definition splitLongSentence (sentence : gostring) : list gostring :=
  let parts := Split naturalBreaksPattern sentence in
  let '(chunks, currentChunk) := foldl chunkStep ([], []) parts in
  let chunks :=
    if negb (str_eqb (TrimSpace currentChunk) [])
    then chunks ++ [enhanceSentenceForTTS (TrimSpace currentChunk)]
    else chunks in
  match chunks with
  | [] => [sentence]
  | _ :: _ => chunks
  end.

(** [len(regexp.MustCompile(`\b\w+\b`).FindAllString(sentence, -1))]. *)
Definition wordCount (sentence : gostring) : Z :=
  Z.of_nat (length (FindAllString (cat [wordB; plus true (Class perl_w); wordB]) sentence)).

Definition isShort (sentence : gostring) : bool :=
  (wordCount sentence <? 4) && (len sentence <? 30).

(** The loop [for i := 0; i < len(sentences); i++] of
    [mergeShortFragments], with the index [i] and the slice [merged] as
    state; [fuel] bounds the number of iterations. *)
Fixpoint mergeLoop (fuel : nat) (sentences : list gostring) (i : nat)
    (merged : list gostring) : list gostring :=
  match fuel with
  | O => merged
  | S fuel' =>
    match sentences !! i with
    | None => merged
    | Some sentence =>
      if isShort sentence then
        if (0 <? length merged)%nat then
          (* Merge with previous *)
          mergeLoop fuel' sentences (i + 1)%nat
            (alter (fun prev => prev ++ G " " ++ sentence)
                   (length merged - 1)%nat merged)
        else
          match sentences !! (i + 1)%nat with
          | Some next =>
            (* Merge with next, skip next *)
            mergeLoop fuel' sentences (i + 1 + 1)%nat
              (merged ++ [sentence ++ G " " ++ next])
          | None => mergeLoop fuel' sentences (i + 1)%nat (merged ++ [sentence])
          end
      else mergeLoop fuel' sentences (i + 1)%nat (merged ++ [sentence])
    end
  end.

Definition mergeShortFragments (sentences : list gostring) : list gostring :=
  mergeLoop (length sentences) sentences 0%nat [].


(** Common abbreviations, in the order of the source. *)
Definition abbreviations : list gostring :=
  map G
    [ (* Spanish titles *)
      "Sr."; "Sra."; "Srta."; "Dr."; "Dra."; "Prof."; "Profa.";
      "Lic."; "Licda."; "Ing."; "Inga."; "Arq."; "Arqa.";
      "Mtro."; "Mtra.";
      (* Common abbreviations *)
      "etc."; "vs."; "p.ej.";
      (* English abbreviations *)
      "Mr."; "Mrs."; "Ms."; "Inc."; "Ltd."; "Corp."; "Co.";
      "e.g."; "i.e."; "cf."; "vol."; "cap."; "art.";
      "núm."; "pág."; "ed."; "op.cit." ]%string.

(** [%d] of a non-negative index. *)
Fixpoint digits (fuel n : nat) (acc : gostring) : gostring :=
  match fuel with
  | O => acc
  | S fuel' =>
    let acc' := (0x30 + Z.of_nat (n mod 10)) :: acc in
    if (n / 10 =? 0)%nat then acc' else digits fuel' (n / 10)%nat acc'
  end.

Definition itoa (n : nat) : gostring := digits (S n) n [].

(** [fmt.Sprintf("__ABBREV_%d__", i)]. *)
Definition placeholder (i : nat) : gostring :=
  G "__ABBREV_" ++ itoa i ++ G "__".

(** Protect abbreviations by replacing them with placeholders. *)
Definition protect (text : gostring) : gostring :=
  foldl (fun protectedText ia =>
           ReplaceAll protectedText ia.2 (placeholder ia.1))
        text (imap (fun i abbrev => (i, abbrev)) abbreviations).

(** Restore abbreviations: [for placeholder, original := range
    protectionMap].  The iteration order of a Go map is not specified;
    [order] lists the indices of the entries in the order of one
    iteration. *)
Definition restore (order : list nat) (sentence : gostring) : gostring :=
  foldl (fun sentence i =>
           match abbreviations !! i with
           | Some original => ReplaceAll sentence (placeholder i) original
           | None => sentence
           end)
        sentence order.

Definition isMark (c : rune) : bool :=
  (c =? R ".") || (c =? R "!") || (c =? R "?").

(** [for nextMeaningfulIdx < len(runes) &&
    unicode.IsSpace(runes[nextMeaningfulIdx]) { nextMeaningfulIdx++ }]. *)
Fixpoint skipSpaces (fuel : nat) (runes : list rune) (idx : nat) : nat :=
  match fuel with
  | O => idx
  | S fuel' =>
    match runes !! idx with
    | Some r => if IsSpace r then skipSpaces fuel' runes (idx + 1)%nat else idx
    | None => idx
    end
  end.

Section Scan.
Variable isExcludingLatinUpper : rune -> bool.

(** The body of the character scan of [splitSentences] at index [i]:
    the sentences extracted so far and the current sentence buffer. *)
Definition scanStep (runes : list rune) (i : nat)
    (st : list gostring * gostring) : list gostring * gostring :=
  let '(sentences, currentSentence) := st in
  match runes !! i with
  | None => st
  | Some c =>
    let currentSentence := currentSentence ++ [c] in
    (* Check if this is a sentence boundary *)
    if isMark c then
      if (i + 1 <? length runes)%nat then
        let nextMeaningfulIdx := skipSpaces (length runes) runes (i + 1)%nat in
        match runes !! nextMeaningfulIdx with
        | Some nextMeaningful =>
          if (IsUpper isExcludingLatinUpper nextMeaningful
              && (10 <? len (TrimSpace currentSentence)))
             || (nextMeaningful =? R "¿") || (nextMeaningful =? R "¡")
          then
            let sentence := TrimSpace currentSentence in
            (if 3 <? len sentence then sentences ++ [sentence] else sentences,
             [])
          else (sentences, currentSentence)
        | None => (sentences, currentSentence)
        end
      else
        (* End of text *)
        let sentence := TrimSpace currentSentence in
        (if 3 <? len sentence then sentences ++ [sentence] else sentences, [])
    else (sentences, currentSentence)
  end.

(** [for i := 0; i < len(runes); i++]. *)
Definition scanLoop (runes : list rune) : list gostring * gostring :=
  foldl (fun st i => scanStep runes i st) ([], []) (seq 0 (length runes)).

(** The scan, followed by "add any remaining text". *)
Definition scanSentences (runes : list rune) : list gostring :=
  let '(sentences, currentSentence) := scanLoop runes in
  if 3 <? len (TrimSpace currentSentence)
  then sentences ++ [TrimSpace currentSentence]
  else sentences.

(** Process and clean sentences; [orders k] is the iteration order of
    the protection map while sentence [k] is restored. *)
Definition processSentence (order : list nat) (sentence : gostring)
    : list gostring :=
  let sentence := restore order sentence in
  let sentence := enhanceSentenceForTTS sentence in
  if 3 <? len sentence then
    if 400 <? len sentence then splitLongSentence sentence else [sentence]
  else [].

Definition splitSentences (orders : nat -> list nat) (text : gostring)
    : list gostring :=
  if str_eqb (TrimSpace text) [] then []
  else
    let normalizedText := normalizeTextForTTS text in
    let protectedText := protect normalizedText in
    let sentences := scanSentences protectedText in
    let processedSentences :=
      concat (imap (fun k sentence => processSentence (orders k) sentence)
                   sentences) in
    mergeShortFragments processedSentences.
End Scan.


(** ** The bounded-concurrency queue (queue.go)

    Every method body runs with [pq.mu] held, so the queue evolves by
    atomic steps: the critical sections of [SetMaxConcurrent], [Add] and
    [processQueue], and the removal of a finished task from [running].
    Only the identifier of a queue item matters to the scheduling. *)

Record QueueItem : Type := { ID : string }.

Record ProcessQueue : Type := {
  MaxConcurrent : Z;
  running : gmap string bool;
  queue : list QueueItem;
  cpuCores : Z
}.

Record QueueStatus : Type := {
  status_MaxConcurrent : Z;
  status_Running : Z;
  status_Queued : Z;
  status_CPUCores : Z
}.

Definition clampConcurrent (max : Z) : Z :=
  let max := if max <? 1 then 1 else max in
  if 32 <? max then 32 else max.

Definition NewProcessQueue (cores maxConcurrent : Z) : ProcessQueue :=
  {| MaxConcurrent := clampConcurrent maxConcurrent;
     running := ∅;
     queue := [];
     cpuCores := cores |}.

Definition SetMaxConcurrent (pq : ProcessQueue) (max : Z) : ProcessQueue :=
  {| MaxConcurrent := clampConcurrent max;
     running := running pq;
     queue := queue pq;
     cpuCores := cpuCores pq |}.

(** The critical section of [Add]: the item joins the end of the queue. *)
Definition Add (pq : ProcessQueue) (queueItem : QueueItem) : ProcessQueue :=
  {| MaxConcurrent := MaxConcurrent pq;
     running := running pq;
     queue := queue pq ++ [queueItem];
     cpuCores := cpuCores pq |}.

(** [for len(pq.queue) > 0 && len(pq.running) < pq.MaxConcurrent]: the
    items at the head of the queue are moved to [running]. *)
Fixpoint processQueue_loop (fuel : nat) (pq : ProcessQueue) : ProcessQueue :=
  match fuel with
  | O => pq
  | S fuel' =>
    match queue pq with
    | queueItem :: rest =>
      if Z.of_nat (size (running pq)) <? MaxConcurrent pq then
        processQueue_loop fuel'
          {| MaxConcurrent := MaxConcurrent pq;
             running := <[ID queueItem := true]> (running pq);
             queue := rest;
             cpuCores := cpuCores pq |}
      else pq
    | [] => pq
    end
  end.

Definition processQueue (pq : ProcessQueue) : ProcessQueue :=
  processQueue_loop (length (queue pq)) pq.

(** The end of a task: [delete(pq.running, item.ID)]. *)
Definition taskDone (pq : ProcessQueue) (id : string) : ProcessQueue :=
  {| MaxConcurrent := MaxConcurrent pq;
     running := delete id (running pq);
     queue := queue pq;
     cpuCores := cpuCores pq |}.

Definition GetStatus (pq : ProcessQueue) : QueueStatus :=
  {| status_MaxConcurrent := MaxConcurrent pq;
     status_Running := Z.of_nat (size (running pq));
     status_Queued := Z.of_nat (length (queue pq));
     status_CPUCores := cpuCores pq |}.

(** The atomic steps, and an interleaving as the list of the steps in
    the order in which they took the lock. *)
Inductive event : Type :=
| EvAdd (queueItem : QueueItem)
| EvSetMaxConcurrent (max : Z)
| EvProcessQueue
| EvTaskDone (id : string).

Definition step (pq : ProcessQueue) (e : event) : ProcessQueue :=
  match e with
  | EvAdd queueItem => Add pq queueItem
  | EvSetMaxConcurrent max => SetMaxConcurrent pq max
  | EvProcessQueue => processQueue pq
  | EvTaskDone id => taskDone pq id
  end.

Definition interleave (pq : ProcessQueue) (evs : list event) : ProcessQueue :=
  foldl step pq evs.

Definition runningCount (pq : ProcessQueue) : Z := Z.of_nat (size (running pq)).


(** ** Parallel synthesis (generateAudioParallel)

    The synthesis of a sentence is the work of the external engine: the
    result of [processQueue.Add] for the task of sentence [i] is given
    by [outcomes i], the path of the file written or the error.  The
    temporary directory is the set of the files in it.  The goroutines
    store their results, one at a time under [mu], in the order
    [completion]. *)

Definition error := string.

Record SentenceResult : Type := {
  Index : Z;
  AudioFile : string;
  Sentence : gostring;
  Error : option error
}.

Definition zeroSentenceResult : SentenceResult :=
  {| Index := 0; AudioFile := ""; Sentence := []; Error := None |}.

(** The critical section of the goroutine of sentence [index]. *)
Definition storeResult (sentences : list gostring)
    (outcomes : nat -> string + error) (results : list SentenceResult)
    (index : nat) : list SentenceResult :=
  match sentences !! index with
  | None => results
  | Some sent =>
    match outcomes index with
    | inr err =>
      <[index := {| Index := Z.of_nat index; AudioFile := "";
                    Sentence := sent; Error := Some err |}]> results
    | inl audioFile =>
      <[index := {| Index := Z.of_nat index; AudioFile := audioFile;
                    Sentence := sent; Error := None |}]> results
    end
  end.

(** The files written by the tasks that succeeded. *)
Definition producedFiles (n : nat) (outcomes : nat -> string + error)
    : list string :=
  omap (fun i => match outcomes i with inl f => Some f | inr _ => None end)
       (seq 0 n).

(** [results] after [wg.Wait()]. *)
Definition collectResults (sentences : list gostring)
    (outcomes : nat -> string + error) (completion : list nat)
    : list SentenceResult :=
  foldl (storeResult sentences outcomes)
        (replicate (length sentences) zeroSentenceResult) completion.

Definition removeFiles (files : list string) (fs : gset string) : gset string :=
  foldl (fun fs file => fs ∖ {[file]}) fs files.

(** Check for errors and collect audio files. *)
Fixpoint collectAudioFiles (results : list SentenceResult)
    (audioFiles : list string) (fs : gset string)
    : (list string + error) * gset string :=
  match results with
  | [] => (inl audioFiles, fs)
  | result :: results' =>
    match Error result with
    | Some err =>
      (* Clean up any generated files *)
      (inr ("error processing sentence " +:+ pretty (Index result + 1)
            +:+ ": " +:+ err),
       removeFiles audioFiles fs)
    | None => collectAudioFiles results' (audioFiles ++ [AudioFile result]) fs
    end
  end.

Definition generateAudioParallel (sentences : list gostring)
    (outcomes : nat -> string + error) (completion : list nat)
    (fs : gset string) : (list string + error) * gset string :=
  let results := collectResults sentences outcomes completion in
  let fs := fs ∪ list_to_set (producedFiles (length sentences) outcomes) in
  collectAudioFiles results [] fs.

(** ** WAV concatenation (audio_native.go)

    A file is the header fields and the samples that the decoder of
    go-audio/wav reads from it, one by one to the end of the data, or
    something that is not a WAV file.  The encoder writes whole frames.
    Creating a file and encoding a buffer can fail in the environment:
    [canCreate] and [canEncode]. *)

Record WAVHeader : Type := {
  SampleRate : Z;
  NumChannels : Z;
  BitsPerSample : Z
}.

Inductive content : Type :=
| Wav (header : WAVHeader) (Data : list Z)
| NotWav.

(** [buf.NumFrames()] of go-audio: the whole frames that the samples
    make, a frame being one sample for each channel.  The channel count
    of the buffer's format is the header's: both come from the decoder
    of the same file, and the header fields are unsigned in the source
    ([uint32], [uint16], [uint16]), so the division is one of numbers
    that are not negative. *)
Definition NumFrames (header : WAVHeader) (Data : list Z) : Z :=
  let numChannels := NumChannels header in
  let numChannels := if numChannels =? 0 then 1 else numChannels in
  Z.of_nat (length Data) / numChannels.

(** The samples that the encoder of go-audio/wav writes for a buffer: it
    goes through the frames, channel by channel, so the samples after
    the last whole frame are left out. *)
Definition writtenData (header : WAVHeader) (Data : list Z) : list Z :=
  take (Z.to_nat (NumFrames header Data * NumChannels header)) Data.

Section Audio.
Variable canCreate : string -> bool.
Variable canEncode : WAVHeader -> list Z -> bool.

Definition readWAVFile (fs : gmap string content) (filePath : string)
    : (list Z * WAVHeader) + error :=
  match fs !! filePath with
  | None => inr "error opening WAV file"
  | Some NotWav => inr "invalid WAV file"
  | Some (Wav header Data) => inl (Data, header)
  end.

Definition writeWAVFile (fs : gmap string content) (filePath : string)
    (Data : list Z) (header : WAVHeader) : option error * gmap string content :=
  if canCreate filePath then
    if canEncode header Data
    then (None, <[filePath := Wav header (writtenData header Data)]> fs)
    else (Some "error writing WAV data", <[filePath := NotWav]> fs)
  else (Some "error creating WAV file", fs).

(** [for i := 1; i < len(audioFiles); i++]: read and append the
    remaining files. *)
Fixpoint appendRemaining (fs : gmap string content) (header : WAVHeader)
    (files : list string) (combinedData : list Z) : list Z + error :=
  match files with
  | [] => inl combinedData
  | file :: files' =>
    match readWAVFile fs file with
    | inr err => inr ("error reading file " +:+ file +:+ ": " +:+ err)
    | inl (Data, fileHeader) =>
      (* Verify format matches *)
      if negb (SampleRate fileHeader =? SampleRate header)
         || negb (NumChannels fileHeader =? NumChannels header)
         || negb (BitsPerSample fileHeader =? BitsPerSample header)
      then inr ("audio format mismatch in file " +:+ file)
      else appendRemaining fs header files' (combinedData ++ Data)
    end
  end.

Definition removeAll (files : list string) (fs : gmap string content)
    : gmap string content :=
  foldl (fun fs file => delete file fs) fs files.

Definition concatenateAudioNative (audioFiles : list string)
    (outputPath : string) (fs : gmap string content)
    : option error * gmap string content :=
  match audioFiles with
  | [] => (Some "no audio files to concatenate", fs)
  | first :: remaining =>
    match readWAVFile fs first with
    | inr err => (Some ("error reading first file: " +:+ err), fs)
    | inl (firstData, header) =>
      match appendRemaining fs header remaining firstData with
      | inr err => (Some err, fs)
      | inl combinedData =>
        match writeWAVFile fs outputPath combinedData header with
        | (Some err, fs') => (Some err, fs')
        | (None, fs') => (None, removeAll audioFiles fs')
        end
      end
    end
  end.
End Audio.



(** ** The merge loop as a recursion

    [mergeSpec output sentences] is what the loop of
    [mergeShortFragments] returns from a state with [merged = output]
    and [sentences[i:] = sentences]: the same three branches, with the
    source's own test [isShort]. *)

Definition appendToPrevious (output : list gostring) (fragment : gostring)
    : list gostring :=
  match reverse output with
  | previous :: before => reverse before ++ [previous ++ G " " ++ fragment]
  | [] => output
  end.

Fixpoint mergeSpec (output : list gostring) (sentences : list gostring)
    : list gostring :=
  match sentences with
  | [] => output
  | sentence :: rest =>
    if isShort sentence then
      match output with
      | _ :: _ => mergeSpec (appendToPrevious output sentence) rest
      | [] =>
        match rest with
        | next :: rest' => mergeSpec [sentence ++ G " " ++ next] rest'
        | [] => [sentence]
        end
      end
    else mergeSpec (output ++ [sentence]) rest
  end.


(** The next rune after position [i] that is not white space, if any. *)
Definition nextNonSpace (runes : list rune) (i : nat) : option rune :=
  head (dropWhile IsSpace (drop (i + 1) runes)).


(** ** Chunks of a long sentence before trimming and enhancement

    The packing that [splitLongSentence] does, without the enhancement:
    a chunk is closed when the next part would take it over 200 bytes. *)






(** ** Plain text

    An ordinary rune is one that no rule of the normalizer looks for:
    not white space, not a curly quote, dash or ellipsis glyph and not
    one of the marks [¿ ¡ ? ! . : , ;].  A plain text is made of words of
    ordinary runes separated by single spaces. *)

Definition ordinary (r : rune) : bool :=
  negb (IsSpace r)
  && negb (oneOf [0x201C; 0x201D; 0x2018; 0x2019; 0x2013; 0x2014; 0x2026] r)
  && negb (oneOf (G "¿¡?!.:,;") r).

Fixpoint plainFrom (s : gostring) : bool :=
  match s with
  | [] => true
  | c :: s' =>
    (if c =? 32
     then match s' with
          | d :: _ => ordinary d
          | [] => false
          end
     else ordinary c)
    && plainFrom s'
  end.

Definition plainText (s : gostring) : bool :=
  match s with
  | [] => true
  | c :: _ => ordinary c && plainFrom s
  end.

(** The runes that are neither ordinary nor the space. *)
Definition special (r : rune) : bool := negb (ordinary r) && negb (r =? 32).

(** Every match of the pattern contains a rune of the class [P]. *)
Inductive Needs (P : rune -> bool) : re -> Prop :=
| Needs_Class f : (forall c, f c = true -> P c = true) -> Needs P (Class f)
| Needs_Cat_l a b : Needs P a -> Needs P (Cat a b)
| Needs_Cat_r a b : Needs P b -> Needs P (Cat a b)
| Needs_Alt a b : Needs P a -> Needs P b -> Needs P (Alt a b)
| Needs_Cap n a : Needs P a -> Needs P (Cap n a).

(** ** Notions used in the statements *)

(** The result that the goroutine of sentence [index] stores. *)
Definition resultOf (sentences : list gostring)
    (outcomes : nat -> string + error) (index : nat) (sent : gostring)
    : SentenceResult :=
  match outcomes index with
  | inr err => {| Index := Z.of_nat index; AudioFile := "";
                  Sentence := sent; Error := Some err |}
  | inl audioFile => {| Index := Z.of_nat index; AudioFile := audioFile;
                        Sentence := sent; Error := None |}
  end.

(** The header [h'] has the sample rate, channel count and bits per
    sample of [h]. *)
Definition sameFormat (h h' : WAVHeader) : Prop :=
  SampleRate h' = SampleRate h /\ NumChannels h' = NumChannels h
  /\ BitsPerSample h' = BitsPerSample h.

(** The files of the list are WAV files with the given contents. *)
Definition holds (fs : gmap string content) (files : list string)
    (wavs : list (WAVHeader * list Z)) : Prop :=
  Forall2 (fun file w => fs !! file = Some (Wav w.1 w.2)) files wavs.

(** The samples of the files, in order, and their number. *)
Definition samples (wavs : list (WAVHeader * list Z)) : list Z :=
  concat (map snd wavs).

Definition sampleCount (wavs : list (WAVHeader * list Z)) : nat :=
  list_sum (map (fun w => length w.2) wavs).

(** 22050 Hz and 44100 Hz, mono, 16 bits. *)
Definition hdr22050 : WAVHeader :=
  {| SampleRate := 22050; NumChannels := 1; BitsPerSample := 16 |}.

Definition hdr44100 : WAVHeader :=
  {| SampleRate := 44100; NumChannels := 1; BitsPerSample := 16 |}.

(** One iteration of the restoration loop. *)
Definition restoreStep (sentence : gostring) (i : nat) : gostring :=
  match abbreviations !! i with
  | Some original => ReplaceAll sentence (placeholder i) original
  | None => sentence
  end.

(** A text without any rune of the class [P]. *)
Definition free (P : rune -> bool) (s : gostring) : Prop :=
  Forall (fun x => P x = false) s.

(** ** The settings handler (POST /settings)

    The state that [updateSettingsHandler] changes once the request body
    is decoded: the user settings and the queue.  [cores] is the global
    [cpuCores].  A call of [SetMaxConcurrent] is its critical section and
    a dispatch left to a goroutine ([go pq.processQueue()]); the handler
    returns with the number of the dispatches it has left, which run
    when they get the lock. *)

Record Settings : Type := {
  MaxThreads : Z;
  AutoDetectThreads : bool
}.

Record settingsRequest : Type := {
  req_MaxThreads : option Z;
  req_AutoDetectThreads : option bool
}.

(** Go's [int] of 64 bits: arithmetic is modulo 2^64. *)
Definition wrapInt (z : Z) : Z := (z + 2 ^ 63) mod 2 ^ 64 - 2 ^ 63.

Definition updateSettings (cores : Z) (requestData : settingsRequest)
    (st : Settings * ProcessQueue) : Settings * ProcessQueue * nat :=
  let '(userSettings, pq) := st in
  let userSettings :=
    match req_AutoDetectThreads requestData with
    | Some b => {| MaxThreads := MaxThreads userSettings; AutoDetectThreads := b |}
    | None => userSettings
    end in
  let '(userSettings, pq, dispatches) :=
    match req_MaxThreads requestData with
    | Some requested =>
      if 0 <? requested then
        let maxThreads := if requested <? 1 then 1 else requested in
        let maxThreads := if 32 <? maxThreads then 32 else maxThreads in
        let userSettings :=
          {| MaxThreads := maxThreads;
             AutoDetectThreads := AutoDetectThreads userSettings |} in
        if negb (AutoDetectThreads userSettings)
        then (userSettings, SetMaxConcurrent pq (MaxThreads userSettings), 1%nat)
        else (userSettings, pq, 0%nat)
      else (userSettings, pq, 0%nat)
    | None => (userSettings, pq, 0%nat)
    end in
  (* If auto-detect is enabled, use CPU-based calculation *)
  if AutoDetectThreads userSettings then
    let autoThreads := wrapInt (cores * 2) in
    ({| MaxThreads := autoThreads;
        AutoDetectThreads := AutoDetectThreads userSettings |},
     SetMaxConcurrent pq autoThreads, S dispatches)
  else (userSettings, pq, dispatches).

(** ** Base64 (audio_native.go)

    Bytes are integers in [0, 256); a shift to the left of a byte is
    taken modulo 256. *)

Definition shlByte (x k : Z) : Z := Z.land (Z.shiftl x k) 0xFF.

Definition base64Table : list Z :=
  bytesOf "ABCDEFGHIJKLMNOPQRSTUVWXYZabcdefghijklmnopqrstuvwxyz0123456789+/".

(** [base64Table[x]]. *)
Definition tableAt (x : Z) : Z := nth (Z.to_nat x) base64Table 0.

(** [for i := 0; i < len(data); i += 3], with the buffer written so
    far. *)
Fixpoint encodeBase64_loop (fuel : nat) (data : list Z) (i : nat)
    (buf : list Z) : list Z :=
  match fuel with
  | O => buf
  | S fuel' =>
    match data !! i with
    | None => buf
    | Some b0 =>
      let b1 := if (i + 1 <? length data)%nat
                then default 0 (data !! (i + 1)%nat) else 0 in
      let b2 := if (i + 2 <? length data)%nat
                then default 0 (data !! (i + 2)%nat) else 0 in
      let buf := buf ++ [tableAt (Z.shiftr b0 2)] in
      let buf :=
        buf ++ [tableAt (Z.lor (shlByte (Z.land b0 0x03) 4) (Z.shiftr b1 4))] in
      let buf :=
        if (i + 1 <? length data)%nat
        then buf ++ [tableAt (Z.lor (shlByte (Z.land b1 0x0f) 2) (Z.shiftr b2 6))]
        else buf ++ [R "="] in
      let buf :=
        if (i + 2 <? length data)%nat
        then buf ++ [tableAt (Z.land b2 0x3f)]
        else buf ++ [R "="] in
      encodeBase64_loop fuel' data (i + 3)%nat buf
    end
  end.

Definition encodeBase64 (data : list Z) : list Z :=
  encodeBase64_loop (length data) data 0%nat [].

(** The encoding, three bytes at a time. *)
Definition encodeGroup (b0 b1 b2 : Z) (n : nat) : list Z :=
  [tableAt (Z.shiftr b0 2);
   tableAt (Z.lor (shlByte (Z.land b0 0x03) 4) (Z.shiftr b1 4));
   if (1 <? n)%nat
   then tableAt (Z.lor (shlByte (Z.land b1 0x0f) 2) (Z.shiftr b2 6)) else R "=";
   if (2 <? n)%nat then tableAt (Z.land b2 0x3f) else R "="].

Fixpoint encodeGroups (data : list Z) : list Z :=
  match data with
  | [] => []
  | [b0] => encodeGroup b0 0 0 1
  | [b0; b1] => encodeGroup b0 b1 0 2
  | b0 :: b1 :: b2 :: rest => encodeGroup b0 b1 b2 3 ++ encodeGroups rest
  end.

(** The value of a character of the alphabet, and the decoding of
    padded base64 text (RFC 4648). *)
Definition sextet (c : Z) : Z :=
  if (0x41 <=? c) && (c <=? 0x5A) then c - 0x41
  else if (0x61 <=? c) && (c <=? 0x7A) then c - 0x61 + 26
  else if (0x30 <=? c) && (c <=? 0x39) then c - 0x30 + 52
  else if c =? 0x2B then 62
  else 63.

Fixpoint decodeBase64 (text : list Z) : list Z :=
  match text with
  | c0 :: c1 :: c2 :: c3 :: rest =>
    let byte0 := sextet c0 * 4 + sextet c1 / 16 in
    let byte1 := sextet c1 mod 16 * 16 + sextet c2 / 4 in
    let byte2 := sextet c2 mod 4 * 64 + sextet c3 in
    if c2 =? R "=" then [byte0]
    else if c3 =? R "=" then [byte0; byte1]
    else byte0 :: byte1 :: byte2 :: decodeBase64 rest
  | _ => []
  end.

Definition isByte (b : Z) : Prop := 0 <= b < 256.

(** ** Reading a WAV header (readWAVHeader)

    The file, once opened, is its bytes and a read position.  A call
    returns a value, returns an error, or panics on a slice out of
    range. *)

Inductive outcome (A : Type) : Type :=
| Returned (a : A)
| Failed (err : error)
| Panicked.
Arguments Returned {A} a.
Arguments Failed {A} err.
Arguments Panicked {A}.

(** [binary.LittleEndian.Uint16] and [Uint32]. *)
Definition Uint16 (b : list Z) : Z :=
  Z.lor (nth 0 b 0) (Z.shiftl (nth 1 b 0) 8).

Definition Uint32 (b : list Z) : Z :=
  Z.lor (Z.lor (Z.lor (nth 0 b 0) (Z.shiftl (nth 1 b 0) 8))
               (Z.shiftl (nth 2 b 0) 16))
        (Z.shiftl (nth 3 b 0) 24).

(** [io.ReadFull] of [n] bytes at position [pos]: all of them, or an
    error ([io.EOF] when nothing is left, [io.ErrUnexpectedEOF] when
    less than [n] is left). *)
Definition ReadFull (data : list Z) (pos n : nat) : list Z + error :=
  if (n =? 0)%nat then inl []
  else if (pos + n <=? length data)%nat then inl (take n (drop pos data))
  else if (length data <=? pos)%nat then inr "EOF"
  else inr "unexpected EOF".

(** The loop that looks for the fmt chunk, from position [pos]. *)
Fixpoint findFmtChunk (fuel : nat) (data : list Z) (pos : nat)
    : option (outcome WAVHeader) :=
  match fuel with
  | O => None
  | S fuel' =>
    match ReadFull data pos 8 with
    | inr err => Some (Failed err)
    | inl chunkHeader =>
      let chunkID := take 4 chunkHeader in
      let chunkSize := Uint32 (drop 4 chunkHeader) in
      if bool_decide (chunkID = bytesOf "fmt ") then
        (* Read format chunk *)
        match ReadFull data (pos + 8) (Z.to_nat chunkSize) with
        | inr err => Some (Failed err)
        | inl fmtData =>
          if chunkSize <? 16 then Some Panicked
          else
            Some (Returned
                    {| NumChannels := Uint16 (take 2 (drop 2 fmtData));
                       SampleRate := Uint32 (take 4 (drop 4 fmtData));
                       BitsPerSample := Uint16 (take 2 (drop 14 fmtData)) |})
        end
      else
        (* Skip this chunk *)
        findFmtChunk fuel' data (pos + 8 + Z.to_nat chunkSize)
    end
  end.

Definition readWAVHeader (data : list Z) : option (outcome WAVHeader) :=
  match ReadFull data 0 12 with
  | inr err => Some (Failed err)
  | inl riffHeader =>
    (* Verify RIFF and WAVE *)
    if negb (bool_decide (take 4 riffHeader = bytesOf "RIFF"))
       || negb (bool_decide (take 4 (drop 8 riffHeader) = bytesOf "WAVE"))
    then Some (Failed "not a valid WAV file")
    else findFmtChunk (S (length data)) data 12
  end.

(** Little-endian bytes of a number, and the bytes of a chunk. *)
Definition le16 (x : Z) : list Z := [x mod 256; x / 256 mod 256].

Definition le32 (x : Z) : list Z :=
  [x mod 256; x / 256 mod 256; x / 65536 mod 256; x / 16777216 mod 256].

Definition chunkBytes (chunk : list Z * list Z) : list Z :=
  chunk.1 ++ le32 (Z.of_nat (length chunk.2)) ++ chunk.2.

(** A chunk with a four-byte identifier other than "fmt " and a payload
    whose size fits 32 bits. *)
Definition otherChunk (chunk : list Z * list Z) : Prop :=
  length chunk.1 = 4%nat /\ chunk.1 <> bytesOf "fmt "
  /\ Z.of_nat (length chunk.2) < 2 ^ 32.

(** ** Notions about matches and texts *)

(** Some class of the pattern accepts the rune. *)
Fixpoint accepts (r : re) (x : rune) : bool :=
  match r with
  | Class f => f x
  | Cat a b | Alt a b => accepts a x || accepts b x
  | Star _ a | Cap _ a => accepts a x
  | Eps | WordBoundary | EndText => false
  end.

(** Every captured group is made of runes of [Q]. *)
Definition capsOk (Q : rune -> Prop) (c : caps) : Prop :=
  Forall (fun e : nat * gostring => Forall Q e.2) c.

(** The text neither begins nor ends with white space. *)
Definition isTrimmed (s : gostring) : Prop :=
  (forall x, head s = Some x -> IsSpace x = false)
  /\ (forall x, last s = Some x -> IsSpace x = false).

(** [strings.Join]. *)
Fixpoint Join (elems : list gostring) (sep : gostring) : gostring :=
  match elems with
  | [] => []
  | [a] => a
  | a :: rest => a ++ sep ++ Join rest sep
  end.

(** What [run] promises of each of its results: the text consumed is a
    prefix of the text at the start, made of runes the pattern accepts,
    and the groups stay parts of the text. *)
Definition consumed (Q : rune -> Prop) (r : re) (p : pos) (p' : pos)
    (c' : caps) : Prop :=
  exists k, p.2 = k ++ p'.2
            /\ Forall (fun x => accepts r x = true) k
            /\ capsOk Q c'.

(** The loop of [convertHandler] that keeps the sentences that are not
    empty. *)
Definition validSentences (sentences : list gostring) : list gostring :=
  foldl (fun valid s => if negb (str_eqb s []) then valid ++ [s] else valid)
        [] sentences.

(** No two runes of the class [f] stand side by side in the text. *)
Definition noAdjacent (f : rune -> bool) (s : gostring) : Prop :=
  forall l1 x y l2, s = l1 ++ x :: y :: l2 -> f x = true -> f y = true -> False.

(** The white space of the text is single spaces: no tab, line feed,
    form feed or carriage return, and no two spaces side by side. *)
Definition singleSpaced (s : gostring) : Prop :=
  Forall (fun y => perl_s y = true -> y = 32) s /\ noAdjacent perl_s s.

(** A text ready to be spoken: not empty, without white space
    ([unicode.IsSpace]) at its ends, and inside without tab, line feed,
    form feed or carriage return and without two spaces side by side.
    The runes in question are those of [\s]; a vertical tab, which
    [\s] does not match, may stand inside the text. *)
Definition tidy (s : gostring) : Prop :=
  s <> [] /\ isTrimmed s /\ singleSpaced s.

(** The text ends with '.', '!', '?' or the ellipsis glyph. *)
Definition endsWithMark (s : gostring) : Prop :=
  exists y, last s = Some y /\ oneOf (G ".!?…") y = true.

(** ** Text filtering before the split (filterCodeBlocks,
    processLineBreaks, applyReplacements, filterTextSegment) *)

(** Filter code blocks from text: the pattern is
    [(?s)```[^`\n]*\n.*?```] and the replacement is empty. *)
Definition filterCodeBlocks (text : gostring) : gostring :=
  ReplaceAllString
    (cat [chr "`"; chr "`"; chr "`";
          Star true (Class (notC (oneOf [R "`"; 10])));
          newline;
          Star false (Class (fun _ => true));
          chr "`"; chr "`"; chr "`"])
    text [].

Definition processLineBreaks (text : gostring) : gostring :=
  let processedText := text in
  (* Handle paragraph breaks (double line breaks) *)
  let processedText :=
    ReplaceAllString (cat [newline; Star true ws; newline]) processedText
      [TText (G ". ")] in
  (* Handle single line breaks more carefully *)
  let processedText :=
    ReplaceAllString
      (cat [Cap 1 (Class (oneOf (G ".!?¿¡…"))); Star true ws; newline])
      processedText [TGroup 1; TText (G " ")] in
  let processedText :=
    ReplaceAllString
      (cat [Cap 1 (Class (notC (oneOf (G ".!?¿¡…")))); Star true ws; newline;
            Star true ws; Cap 2 (Class upperES)])
      processedText [TGroup 1; TText (G ". "); TGroup 2] in
  let processedText := ReplaceAll processedText [10] (G " ") in
  (* Clean up spacing *)
  let processedText :=
    ReplaceAllString (plus true ws) processedText [TText (G " ")] in
  let processedText := TrimSpace processedText in
  (* Handle special cases for better speech flow *)
  let processedText :=
    ReplaceAllString
      (cat [Cap 1 (Class (orC (range (R "a") (R "z")) (range (R "A") (R "Z"))));
            Star true ws; chr ":"; Star true ws])
      processedText [TGroup 1; TText (G ": ")] in
  (* Clean up multiple periods *)
  let processedText :=
    ReplaceAllString
      (cat [chr "."; chr "."; chr "."; chr "."; Star true (chr ".")])
      processedText [TText (G "...")] in
  let processedText :=
    ReplaceAllStringFunc (cat [chr "."; chr "."]) processedText
      (fun _ => G ".") in
  (* Restore ellipsis if broken *)
  let processedText :=
    ReplaceAllString (cat [chr "."; chr "."; chr "."; Star true (chr ".")])
      processedText [TText (G "...")] in
  processedText.

(** The replacements of a model are applied with patterns compiled at
    run time from [regexp.QuoteMeta(find)] under [(?i)], and with the
    replacement text read as a template of [regexp].  Two tables of the
    library are parameters: [foldCase c x] says that the rune [x] matches
    the literal [c] under [(?i)], and [parseTemplate] reads the literal
    text and the [$] references of a replacement text. *)
Section Replacements.
Variable foldCase : rune -> rune -> bool.
Variable parseTemplate : gostring -> list titem.

(** [(?i)] and the quoted [find]: its runes, each up to case. *)
Definition escapedFind (find : gostring) : re :=
  cat (map (fun c => Class (foldCase c)) find).

(** [regexp.MustCompile(`^\d+$`).MatchString(find)]. *)
Definition isNumber (find : gostring) : bool :=
  negb (str_eqb find []) && forallb (range (R "0") (R "9")) find.

(** One turn of the loop over the replacements; group 0 is the whole
    match. *)
Definition applyReplacement (processedText : gostring)
    (replacement : list gostring) : gostring :=
  match replacement with
  | find :: replace :: _ =>
    if str_eqb find [] then processedText
    else if HasSuffix find (G ".") then
      (* Abbreviations ending with period *)
      ReplaceAllString (Cap 0 (cat [wordB; escapedFind find]))
        processedText (parseTemplate replace)
    else if Contains find (G " ") then
      (* Multi-word phrases *)
      ReplaceAllString (Cap 0 (cat [wordB; escapedFind find; wordB]))
        processedText (parseTemplate replace)
    else if isNumber find then
      (* Numbers *)
      ReplaceAllString (Cap 0 (cat [wordB; escapedFind find; wordB]))
        processedText (parseTemplate replace)
    else
      (* Standard word boundaries *)
      ReplaceAllString (Cap 0 (cat [wordB; escapedFind find; wordB]))
        processedText (parseTemplate replace)
  | _ => processedText
  end.

Definition applyReplacements (text : gostring)
    (replacements : list (list gostring)) : gostring :=
  if str_eqb text [] || (length replacements =? 0)%nat then text
  else foldl applyReplacement text replacements.

Definition filterTextSegment (textSegment : gostring)
    (modelReplacements : list (list gostring)) : gostring :=
  (* Remove code blocks *)
  let text := filterCodeBlocks textSegment in
  (* Process line breaks *)
  let text := processLineBreaks text in
  (* Apply replacements *)
  let text :=
    if (0 <? length modelReplacements)%nat
    then applyReplacements text modelReplacements
    else text in
  (* Final cleanup *)
  let text := ReplaceAllString (plus true ws) text [TText (G " ")] in
  TrimSpace text.
End Replacements.

(** The number of runes of the class [f] at the head of the text. *)
Fixpoint leading (f : rune -> bool) (s : gostring) : nat :=
  match s with
  | x :: s' => if f x then S (leading f s') else 0
  | [] => 0
  end.

(** After [cur] runes of the class [f], the text brings no run of more
    than [k] runes of the class. *)
Fixpoint runs_le (f : rune -> bool) (k cur : nat) (s : gostring) : bool :=
  match s with
  | x :: s' =>
    if f x then (S cur <=? k)%nat && runs_le f k (S cur) s'
    else runs_le f k 0 s'
  | [] => true
  end.

(** ** Rewriting a WAV file under another name (audio_native.go)

    [convertToMp3Native] and [optimizeWAV] read a WAV file, write its
    samples under a name made from the path without its last four
    bytes, and remove the original.  The slice [wavPath[:len(wavPath)-4]]
    panics when the path is shorter than four bytes. *)
Section Conversion.
Variable canCreate : string -> bool.
Variable canEncode : WAVHeader -> list Z -> bool.

Definition convertToMp3Native (wavPath : string) (fs : gmap string content)
    : outcome string * gmap string content :=
  (* Read WAV file *)
  match readWAVFile fs wavPath with
  | inr err => (Failed err, fs)
  | inl (buffer, header) =>
    (* Create output path *)
    if (String.length wavPath <? 4)%nat then (Panicked, fs)
    else
      let mp3Path :=
        substring 0 (String.length wavPath - 4) wavPath +:+ ".mp3" in
      (* Write optimized WAV *)
      match writeWAVFile canCreate canEncode fs mp3Path buffer header with
      | (Some err, fs') => (Failed err, fs')
      | (None, fs') =>
        (* Clean up original WAV *)
        (Returned mp3Path, delete wavPath fs')
      end
  end.

Definition optimizeWAV (wavPath : string) (fs : gmap string content)
    : outcome string * gmap string content :=
  match readWAVFile fs wavPath with
  | inr err => (Failed err, fs)
  | inl (buffer, header) =>
    (* Create optimized path *)
    if (String.length wavPath <? 4)%nat then (Panicked, fs)
    else
      let optimizedPath :=
        substring 0 (String.length wavPath - 4) wavPath +:+ "_opt.wav" in
      match writeWAVFile canCreate canEncode fs optimizedPath buffer header with
      | (Some err, fs') => (Failed err, fs')
      | (None, fs') =>
        (* Clean up original *)
        (Returned optimizedPath, delete wavPath fs')
      end
  end.
End Conversion.

(** ** The image of a model card (models.go) *)

(** [strings.SplitN(s, sep, 2)] for a non-empty [sep]: the text before
    the first [sep] and the text after it, or the text alone when it
    holds no [sep]. *)
Fixpoint SplitN2 (s sep before : gostring) : list gostring :=
  match s with
  | [] => [rev before]
  | c :: s' =>
    if HasPrefix s sep then [rev before; drop (length sep) s]
    else SplitN2 s' sep (c :: before)
  end.

Definition processImageData (imageData : gostring) : gostring :=
  (* Extract base64 data from data URI *)
  if Contains imageData (G "base64,") then
    let parts := SplitN2 imageData (G "base64,") [] in
    if (length parts =? 2)%nat then nth 1 parts [] else imageData
  else imageData.

(** ** Short fragments, in the words of the specification

    A word is a maximal run of ASCII letters, digits and underscores (a
    letter with an accent is not one of them and ends the word).  A
    short fragment has fewer than 4 words and fewer than 30 bytes.  It
    is appended to the previous output sentence if one exists, else
    merged with the next sentence (consuming it), else kept standalone;
    the other sentences are emitted unchanged, in order. *)






(** * Properties *)

(** ** The queue *)


Lemma processQueue_loop_MaxConcurrent (fuel : nat) (pq : ProcessQueue) :
  MaxConcurrent (processQueue_loop fuel pq) = MaxConcurrent pq.
Proof.
  revert pq. induction fuel as [|fuel IH]; intros pq; simpl; [done|].
  destruct (queue pq) as [|item rest]; [done|].
  destruct (_ <? _); [|done]. by rewrite IH.
Qed.




Lemma processQueue_full (pq : ProcessQueue) :
  MaxConcurrent pq <= runningCount pq -> processQueue pq = pq.
Proof.
  intros H. unfold processQueue.
  destruct (length (queue pq)); simpl; [done|].
  destruct (queue pq); [done|].
  unfold runningCount in H.
  destruct (_ <? _) eqn:E; [apply Z.ltb_lt in E; lia | done].
Qed.









(** ** Parallel synthesis *)

Lemma storeResult_lookup sentences outcomes (results : list SentenceResult)
    (index i : nat) :
  length results = length sentences ->
  storeResult sentences outcomes results index !! i
  = if decide (i = index)
    then resultOf sentences outcomes i <$> sentences !! i
    else results !! i.
Proof.
  intros Hlen. unfold storeResult, resultOf.
  destruct (decide (i = index)) as [->|Hne].
  - destruct (sentences !! index) as [sent|] eqn:E; simpl.
    + assert (index < length results)%nat
        by (rewrite Hlen; by eapply lookup_lt_Some).
      destruct (outcomes index); by rewrite list_lookup_insert_eq.
    + apply lookup_ge_None. rewrite Hlen. by apply lookup_ge_None.
  - destruct (sentences !! index) as [sent|]; [|done].
    destruct (outcomes index); by rewrite list_lookup_insert_ne.
Qed.

Lemma storeResult_length sentences outcomes (results : list SentenceResult)
    (index : nat) :
  length (storeResult sentences outcomes results index) = length results.
Proof.
  unfold storeResult. destruct (sentences !! index); [|done].
  destruct (outcomes index); by rewrite length_insert.
Qed.

Lemma foldl_storeResult sentences outcomes (completion : list nat)
    (results : list SentenceResult) :
  length results = length sentences ->
  length (foldl (storeResult sentences outcomes) results completion)
  = length sentences
  /\ forall i,
      foldl (storeResult sentences outcomes) results completion !! i
      = if decide (i ∈ completion)
        then resultOf sentences outcomes i <$> sentences !! i
        else results !! i.
Proof.
  revert results. induction completion as [|index completion IH];
    intros results Hlen; simpl.
  - done.
  - destruct (IH (storeResult sentences outcomes results index)) as [IH1 IH2].
    { by rewrite storeResult_length. }
    split; [done|]. intros i. rewrite IH2.
    rewrite storeResult_lookup by done.
    destruct (decide (i ∈ completion)) as [Hin|Hnin];
      destruct (decide (i = index)) as [Heq|Hne];
      destruct (decide (i ∈ index :: completion)) as [H|H]; try done; exfalso.
    + apply H. apply elem_of_cons. by right.
    + apply H. apply elem_of_cons. by right.
    + apply H. apply elem_of_cons. by left.
    + apply elem_of_cons in H as [H|H]; done.
Qed.

(** Whatever the order in which the tasks end, once every task has
    stored its result the array holds at index [i] the result of
    sentence [i]. *)
Lemma collectResults_lookup sentences outcomes (completion : list nat) :
  Permutation completion (seq 0 (length sentences)) ->
  length (collectResults sentences outcomes completion) = length sentences
  /\ forall i sent,
      sentences !! i = Some sent ->
      collectResults sentences outcomes completion !! i
      = Some (resultOf sentences outcomes i sent).
Proof.
  intros Hperm. unfold collectResults.
  destruct (foldl_storeResult sentences outcomes completion
              (replicate (length sentences) zeroSentenceResult)) as [H1 H2].
  { by rewrite length_replicate. }
  split; [done|]. intros i sent Hi. rewrite H2.
  case_decide as Hin; [by rewrite Hi|].
  exfalso. apply Hin. rewrite Hperm. apply elem_of_seq.
  apply lookup_lt_Some in Hi. lia.
Qed.

Lemma collectAudioFiles_success (results : list SentenceResult)
    (audioFiles : list string) (fs : gset string) :
  Forall (fun r => Error r = None) results ->
  collectAudioFiles results audioFiles fs
  = (inl (audioFiles ++ map AudioFile results), fs).
Proof.
  revert audioFiles. induction results as [|r results IH];
    intros audioFiles Hall; simpl.
  - by rewrite app_nil_r.
  - inversion Hall as [|? ? Hr Hrest]; subst. rewrite Hr.
    rewrite IH by done. by rewrite <- app_assoc.
Qed.

(** C1: when every synthesis task succeeds, the paths are returned in
    the order of the sentences, whatever the order in which the tasks
    ended: the results are collected into an array as long as the input,
    each written at the index of its sentence. *)
Theorem generateAudioParallel_preserves_order
    (sentences : list gostring) (outcomes : nat -> string + error)
    (completion : list nat) (fs : gset string) (files : list string) :
  Permutation completion (seq 0 (length sentences)) ->
  length files = length sentences ->
  (forall i f, files !! i = Some f -> outcomes i = inl f) ->
  let results := collectResults sentences outcomes completion in
  length results = length sentences
  /\ (forall i sent f,
        sentences !! i = Some sent -> files !! i = Some f ->
        results !! i
        = Some {| Index := Z.of_nat i; AudioFile := f;
                  Sentence := sent; Error := None |})
  /\ (generateAudioParallel sentences outcomes completion fs).1 = inl files.
Proof.
  intros Hperm Hlen Hout results.
  destruct (collectResults_lookup sentences outcomes completion Hperm)
    as [Hl Hlk].
  fold results in Hl, Hlk.
  assert (Hres : forall i sent f,
             sentences !! i = Some sent -> files !! i = Some f ->
             results !! i
             = Some {| Index := Z.of_nat i; AudioFile := f;
                       Sentence := sent; Error := None |}).
  { intros i sent f Hs Hf. rewrite (Hlk i sent Hs).
    unfold resultOf. by rewrite (Hout i f Hf). }
  split; [done|]. split; [done|].
  unfold generateAudioParallel. fold results.
  rewrite collectAudioFiles_success.
  - simpl. f_equal. apply list_eq. intros i. rewrite list_lookup_fmap.
    destruct (files !! i) as [f|] eqn:Hf.
    + destruct (sentences !! i) as [sent|] eqn:Hs.
      * by rewrite (Hres i sent f Hs Hf).
      * apply lookup_lt_Some in Hf. apply lookup_ge_None in Hs. lia.
    + apply lookup_ge_None in Hf.
      rewrite (proj2 (lookup_ge_None results i)); [done | lia].
  - apply Forall_lookup. intros i r Hr.
    assert (Hi : (i < length sentences)%nat)
      by (rewrite <- Hl; by eapply lookup_lt_Some).
    destruct (lookup_lt_is_Some_2 sentences i Hi) as [sent Hs].
    destruct (lookup_lt_is_Some_2 files i ltac:(lia)) as [f Hf].
    rewrite (Hres i sent f Hs Hf) in Hr. by inversion Hr.
Qed.

Lemma generateAudioParallel_preserves_order_witness :
  (generateAudioParallel [G "Hello world."; G "This is great!"; G "Sure?"]
     (fun i => inl (nth i ["/tmp/tts_a.wav"; "/tmp/tts_b.wav"; "/tmp/tts_c.wav"] ""))
     [2; 0; 1]%nat ∅).1
  = inl ["/tmp/tts_a.wav"; "/tmp/tts_b.wav"; "/tmp/tts_c.wav"].
Proof.
  apply (generateAudioParallel_preserves_order
           [G "Hello world."; G "This is great!"; G "Sure?"]
           (fun i => inl (nth i ["/tmp/tts_a.wav"; "/tmp/tts_b.wav"; "/tmp/tts_c.wav"] ""))
           [2; 0; 1]%nat ∅ ["/tmp/tts_a.wav"; "/tmp/tts_b.wav"; "/tmp/tts_c.wav"]).
  - simpl. eapply perm_trans; [apply perm_swap|].
    apply perm_skip. apply perm_swap.
  - reflexivity.
  - intros i f Hf.
    destruct i as [|[|[|i]]]; simpl in Hf; inversion Hf; reflexivity.
Defined.

(** What the error path does: the files collected before the first
    failing sentence are removed, the others are left. *)
Lemma collectAudioFiles_failure (succeeded : list SentenceResult)
    (failed : SentenceResult) (later : list SentenceResult) (err : error)
    (audioFiles : list string) (fs : gset string) :
  Forall (fun r => Error r = None) succeeded ->
  Error failed = Some err ->
  collectAudioFiles (succeeded ++ failed :: later) audioFiles fs
  = (inr ("error processing sentence " +:+ pretty (Index failed + 1)
          +:+ ": " +:+ err),
     removeFiles (audioFiles ++ map AudioFile succeeded) fs).
Proof.
  revert audioFiles. induction succeeded as [|r succeeded IH];
    intros audioFiles Hall Herr; simpl.
  - rewrite Herr. by rewrite app_nil_r.
  - inversion Hall as [|? ? Hr Hrest]; subst. rewrite Hr.
    rewrite IH by done. by rewrite <- app_assoc.
Qed.

(** C2: the cleanup after a failure removes only the files of the
    sentences before the first failing one.  With three sentences of
    which the second fails, the call returns the error and no list, the
    file of the first sentence is removed, and the file of the third
    sentence stays in the temporary directory. *)
Theorem generateAudioParallel_failure_leaves_later_files :
  let outcomes := fun i : nat =>
    match i with
    | 0%nat => inl "/tmp/tts_a.wav"
    | 1%nat => inr "piper failed"
    | _ => inl "/tmp/tts_c.wav"
    end in
  generateAudioParallel [G "Uno uno uno."; G "Dos dos dos."; G "Tres tres."]
    outcomes [0; 2; 1]%nat ∅
  = (inr "error processing sentence 2: piper failed", {["/tmp/tts_c.wav"]}).
Proof. vm_compute. reflexivity. Qed.

(** ** WAV concatenation *)

Lemma samples_length (wavs : list (WAVHeader * list Z)) :
  length (samples wavs) = sampleCount wavs.
Proof.
  unfold samples, sampleCount. induction wavs as [|w wavs IH]; simpl; [done|].
  rewrite length_app. by rewrite IH.
Qed.

Lemma formatCheck_false (h h' : WAVHeader) :
  sameFormat h h' ->
  negb (SampleRate h' =? SampleRate h)
  || negb (NumChannels h' =? NumChannels h)
  || negb (BitsPerSample h' =? BitsPerSample h) = false.
Proof.
  intros (-> & -> & ->). by rewrite !Z.eqb_refl.
Qed.

Lemma formatCheck_true (h h' : WAVHeader) :
  ~ sameFormat h h' ->
  negb (SampleRate h' =? SampleRate h)
  || negb (NumChannels h' =? NumChannels h)
  || negb (BitsPerSample h' =? BitsPerSample h) = true.
Proof.
  intros Hne.
  destruct (SampleRate h' =? SampleRate h) eqn:E1; [|done].
  destruct (NumChannels h' =? NumChannels h) eqn:E2; [|done].
  destruct (BitsPerSample h' =? BitsPerSample h) eqn:E3; [|done].
  exfalso. apply Hne. unfold sameFormat. lia.
Qed.

Lemma appendRemaining_match fs header files wavs combinedData :
  holds fs files wavs ->
  Forall (fun w => sameFormat header w.1) wavs ->
  appendRemaining fs header files combinedData
  = inl (combinedData ++ samples wavs).
Proof.
  intros Hh. revert combinedData.
  induction Hh as [|file w files wavs Hf Hh IH]; intros combinedData Hall; simpl.
  - unfold samples. simpl. by rewrite app_nil_r.
  - inversion Hall as [|? ? Hw Hrest]; subst.
    unfold readWAVFile. rewrite Hf. rewrite formatCheck_false by done.
    rewrite IH by done. unfold samples. simpl. by rewrite app_assoc.
Qed.

Lemma appendRemaining_mismatch fs header files wavs combinedData :
  holds fs files wavs ->
  Exists (fun w => ~ sameFormat header w.1) wavs ->
  exists err, appendRemaining fs header files combinedData = inr err.
Proof.
  intros Hh. revert combinedData.
  induction Hh as [|file w files wavs Hf Hh IH]; intros combinedData Hex; simpl.
  - inversion Hex.
  - unfold readWAVFile. rewrite Hf.
    destruct (negb (SampleRate w.1 =? SampleRate header)
              || negb (NumChannels w.1 =? NumChannels header)
              || negb (BitsPerSample w.1 =? BitsPerSample header)) eqn:E;
      [eauto|].
    inversion Hex as [? ? Hw|? ? Hrest]; subst.
    + by rewrite formatCheck_true in E.
    + by apply IH.
Qed.

Lemma removeAll_lookup (files : list string) (fs : gmap string content)
    (file : string) :
  removeAll files fs !! file
  = if decide (file ∈ files) then None else fs !! file.
Proof.
  unfold removeAll. revert fs.
  induction files as [|f files IH]; intros fs; cbn [foldl].
  - by rewrite decide_False by apply not_elem_of_nil.
  - rewrite IH. destruct (decide (file ∈ files)) as [Hin|Hnin].
    + rewrite decide_True; [done|]. apply elem_of_cons. by right.
    + destruct (decide (file = f)) as [->|Hne].
      * rewrite lookup_delete_eq. rewrite decide_True; [done|].
        apply elem_of_cons. by left.
      * rewrite lookup_delete_ne by done. rewrite decide_False; [done|].
        intros Hin. apply elem_of_cons in Hin as [?|?]; done.
Qed.

Lemma writtenData_whole (header : WAVHeader) (Data : list Z) :
  0 < NumChannels header ->
  Z.of_nat (length Data) mod NumChannels header = 0 ->
  writtenData header Data = Data.
Proof.
  intros Hc Hm. unfold writtenData, NumFrames. cbv zeta.
  destruct (NumChannels header =? 0) eqn:E; [apply Z.eqb_eq in E; lia|].
  apply take_ge.
  assert (Z.of_nat (length Data) / NumChannels header * NumChannels header
          = Z.of_nat (length Data)).
  { rewrite Z.mul_comm. symmetry. by apply Z_div_exact_full_2; [lia|]. }
  lia.
Qed.

(** C5, as stated, fails: of two stereo files with 3 and 2 samples the
    output holds 4 samples, not 5; the encoder writes whole frames and
    the last sample has no frame. *)
Lemma concatenateAudioNative_incomplete_frame :
  let stereo := {| SampleRate := 22050; NumChannels := 2; BitsPerSample := 16 |} in
  concatenateAudioNative (fun _ => true) (fun _ _ => true)
    ["a.wav"; "b.wav"] "out.wav"
    (<["a.wav" := Wav stereo [1; 2; 3]]> (<["b.wav" := Wav stereo [5; 6]]> ∅))
  = (None, <["out.wav" := Wav stereo [1; 2; 3; 5]]> ∅).
Proof. vm_compute. reflexivity. Qed.

(** C5, amended: for a non-empty list of WAV files, a file after the
    first whose sample rate, channel count or bits per sample differs
    from the first's makes the call return an error with the files as
    they were (no output written, no input deleted); when all formats
    match, every input file is gone afterwards, the other files are
    untouched, and the output, unless its path is one of the inputs,
    holds the first file's header and the samples of the inputs in
    order, cut to whole frames of the first file's channel count: all of
    them when their number, the sum of the inputs' sample counts, is a
    multiple of the channel count. *)
Theorem concatenateAudioNative_formats
    (canCreate : string -> bool) (canEncode : WAVHeader -> list Z -> bool)
    (fs : gmap string content) (first : string) (remaining : list string)
    (outputPath : string) (w0 : WAVHeader * list Z)
    (wavs : list (WAVHeader * list Z)) :
  holds fs (first :: remaining) (w0 :: wavs) ->
  let all := samples (w0 :: wavs) in
  let channels := NumChannels w0.1 in
  let frames :=
    Z.of_nat (length all) / (if channels =? 0 then 1 else channels) in
  (Exists (fun w => ~ sameFormat w0.1 w.1) wavs ->
   exists err,
     concatenateAudioNative canCreate canEncode (first :: remaining) outputPath fs
     = (Some err, fs))
  /\ (Forall (fun w => sameFormat w0.1 w.1) wavs ->
      canCreate outputPath = true ->
      canEncode w0.1 all = true ->
      exists fs',
        concatenateAudioNative canCreate canEncode (first :: remaining)
          outputPath fs = (None, fs')
        /\ (forall file, file ∈ first :: remaining -> fs' !! file = None)
        /\ (forall file, file ∉ first :: remaining -> file <> outputPath ->
              fs' !! file = fs !! file)
        /\ (outputPath ∉ first :: remaining ->
            fs' !! outputPath
            = Some (Wav w0.1 (take (Z.to_nat (frames * channels)) all))
            /\ (0 < channels ->
                Z.of_nat (sampleCount (w0 :: wavs)) mod channels = 0 ->
                fs' !! outputPath = Some (Wav w0.1 all))))
  /\ length all = sampleCount (w0 :: wavs).
Proof.
  intros Hh all channels frames.
  inversion Hh as [|? ? ? ? Hfirst Hrest]; subst.
  split; [|split; [|apply samples_length]].
  - intros Hex. unfold concatenateAudioNative, readWAVFile. rewrite Hfirst.
    destruct (appendRemaining_mismatch fs w0.1 remaining wavs w0.2 Hrest Hex)
      as [err ->]. eauto.
  - intros Hall Hc He.
    exists (removeAll (first :: remaining)
              (<[outputPath := Wav w0.1 (writtenData w0.1 all)]> fs)).
    split; [|split; [|split]].
    + unfold concatenateAudioNative, readWAVFile. rewrite Hfirst.
      rewrite (appendRemaining_match fs w0.1 remaining wavs w0.2 Hrest Hall).
      unfold writeWAVFile. rewrite Hc.
      change (w0.2 ++ samples wavs) with all. by rewrite He.
    + intros file Hin. rewrite removeAll_lookup. by rewrite decide_True.
    + intros file Hnin Hne. rewrite removeAll_lookup.
      rewrite decide_False by done. by rewrite lookup_insert_ne.
    + intros Hnin.
      assert (Hout : removeAll (first :: remaining)
                       (<[outputPath := Wav w0.1 (writtenData w0.1 all)]> fs)
                     !! outputPath
                     = Some (Wav w0.1 (writtenData w0.1 all))).
      { rewrite removeAll_lookup. rewrite decide_False by done.
        by rewrite lookup_insert_eq. }
      split; [exact Hout|]. intros Hpos Hmod. rewrite Hout.
      rewrite writtenData_whole; [done | done |].
      unfold all. by rewrite samples_length.
Qed.

Lemma concatenateAudioNative_formats_witness :
  let fs : gmap string content :=
    <["a.wav" := Wav hdr22050 [1; 2]]> (<["b.wav" := Wav hdr44100 [3]]> ∅) in
  exists err,
    concatenateAudioNative (fun _ => true) (fun _ _ => true)
      ["a.wav"; "b.wav"] "out.wav" fs = (Some err, fs).
Proof.
  intros fs.
  apply (proj1 (concatenateAudioNative_formats (fun _ => true) (fun _ _ => true)
                  fs "a.wav" ["b.wav"] "out.wav" (hdr22050, [1; 2])
                  [(hdr44100, [3])] ltac:(repeat constructor))).
  constructor. unfold sameFormat. simpl. lia.
Defined.

(** The end-to-end scenario of the concatenator: three buffers of the
    same format give one buffer with the samples of all three. *)
Example concatenateAudioNative_three_buffers :
  concatenateAudioNative (fun _ => true) (fun _ _ => true)
    ["a.wav"; "b.wav"; "c.wav"] "out.wav"
    (<["a.wav" := Wav hdr22050 [1; 2]]>
       (<["b.wav" := Wav hdr22050 [3]]>
          (<["c.wav" := Wav hdr22050 [4; 5; 6]]> ∅)))
  = (None, <["out.wav" := Wav hdr22050 [1; 2; 3; 4; 5; 6]]> ∅).
Proof. vm_compute. reflexivity. Qed.

(** C10: for the empty list the call returns the error "no audio files
    to concatenate" and leaves the files as they were; it is defined on
    the empty list like on any other. *)
Theorem concatenateAudioNative_empty
    (canCreate : string -> bool) (canEncode : WAVHeader -> list Z -> bool)
    (outputPath : string) (fs : gmap string content) :
  concatenateAudioNative canCreate canEncode [] outputPath fs
  = (Some "no audio files to concatenate", fs).
Proof. reflexivity. Qed.

(** ** Short-fragment merge *)

Lemma alter_last (f : gostring -> gostring) (before : list gostring)
    (previous : gostring) :
  alter f (length (before ++ [previous]) - 1)%nat (before ++ [previous])
  = before ++ [f previous].
Proof.
  rewrite length_app. simpl.
  replace (length before + 1 - 1)%nat with (length before + 0)%nat by lia.
  by rewrite alter_app_r.
Qed.

Lemma appendToPrevious_snoc (before : list gostring)
    (previous fragment : gostring) :
  appendToPrevious (before ++ [previous]) fragment
  = before ++ [previous ++ G " " ++ fragment].
Proof.
  unfold appendToPrevious. rewrite reverse_app. simpl.
  by rewrite reverse_involutive.
Qed.

Lemma mergeLoop_mergeSpec (fuel : nat) (sentences : list gostring) (i : nat)
    (merged : list gostring) :
  (length sentences - i <= fuel)%nat ->
  mergeLoop fuel sentences i merged = mergeSpec merged (drop i sentences).
Proof.
  revert i merged. induction fuel as [|fuel IH]; intros i merged Hfuel.
  - rewrite drop_ge by lia. done.
  - cbn [mergeLoop]. destruct (sentences !! i) as [sentence|] eqn:Hi.
    + rewrite (drop_S _ _ _ Hi). cbn [mergeSpec].
      destruct (isShort sentence).
      * destruct merged as [|m merged] using rev_ind.
        -- cbn [length Nat.ltb Nat.leb app].
           replace (i + 1)%nat with (S i) by lia.
           destruct (sentences !! S i) as [next|] eqn:Hn.
           ++ rewrite (drop_S _ _ _ Hn).
              replace (S i + 1)%nat with (S (S i)) by lia.
              apply IH. lia.
           ++ rewrite (drop_ge _ (S i)) by (by apply lookup_ge_None).
              rewrite IH by lia.
              rewrite drop_ge by (apply lookup_ge_None in Hn; lia). done.
        -- clear IHmerged.
           assert (Hpos : (0 <? length (merged ++ [m]))%nat = true).
           { apply Nat.ltb_lt. rewrite length_app. simpl. lia. }
           rewrite Hpos. rewrite alter_last, appendToPrevious_snoc.
           destruct (merged ++ [m]) eqn:E.
           { by destruct merged. }
           replace (i + 1)%nat with (S i) by lia.
           apply IH. lia.
      * replace (i + 1)%nat with (S i) by lia. apply IH. lia.
    + rewrite drop_ge by (by apply lookup_ge_None). done.
Qed.


(** ** The character scan of splitSentences *)

Lemma skipSpaces_lookup (fuel : nat) (runes : list rune) (idx : nat) :
  (length runes - idx <= fuel)%nat ->
  runes !! skipSpaces fuel runes idx
  = head (dropWhile IsSpace (drop idx runes)).
Proof.
  revert idx. induction fuel as [|fuel IH]; intros idx Hfuel.
  - simpl. rewrite drop_ge by lia. simpl. apply lookup_ge_None. lia.
  - cbn [skipSpaces]. destruct (runes !! idx) as [r|] eqn:Hr.
    + rewrite (drop_S _ _ _ Hr). cbn [dropWhile].
      destruct (IsSpace r).
      * replace (idx + 1)%nat with (S idx) by lia. apply IH. lia.
      * done.
    + rewrite drop_ge by (by apply lookup_ge_None). done.
Qed.

Lemma snoc_not_nil (s : gostring) (c : rune) : s ++ [c] <> [].
Proof. by destruct s. Qed.

(** On ASCII text [len] is the number of characters. *)
Lemma len_ascii (s : gostring) :
  Forall (fun r => r < 0x80) s -> len s = Z.of_nat (length s).
Proof.
  induction 1 as [|r s Hr _ IH]; [done|].
  cbn [len length]. unfold RuneLen.
  replace (r <? 128) with true by (symmetry; by apply Z.ltb_lt). lia.
Qed.

(** The loop body at a mark: at a position [i] of the scan that holds
    '.', '!' or '?' and is not the last one, the mark closes the current
    sentence buffer (the buffer extended with the mark is trimmed, kept
    if longer than 3 bytes, and emptied) exactly when the next rune that
    is not white space is an uppercase letter and the trimmed buffer is
    longer than 10 bytes ([len]), or that rune is '¿' or '¡'; at the
    last position a mark always closes the buffer. *)
Lemma scanStep_boundary (isExcludingLatinUpper : rune -> bool)
    (runes : list rune) (i : nat) (c : rune)
    (sentences : list gostring) (currentSentence : gostring) :
  runes !! i = Some c ->
  isMark c = true ->
  let buffer := currentSentence ++ [c] in
  let closed :=
    (if 3 <? len (TrimSpace buffer)
     then sentences ++ [TrimSpace buffer] else sentences, []) in
  let st' := scanStep isExcludingLatinUpper runes i (sentences, currentSentence) in
  ((i + 1 < length runes)%nat ->
   (st'.2 = [] <->
    exists next,
      nextNonSpace runes i = Some next
      /\ ((IsUpper isExcludingLatinUpper next = true
           /\ 10 < len (TrimSpace buffer))
          \/ next = R "¿" \/ next = R "¡")))
  /\ ((i + 1 = length runes)%nat -> st'.2 = [])
  /\ (st'.2 = [] -> st' = closed)
  /\ (st'.2 <> [] -> st' = (sentences, buffer)).
Proof.
  intros Hc Hmark buffer closed st'.
  assert (Hne : buffer <> []) by apply snoc_not_nil.
  assert (Hnext : runes !! skipSpaces (length runes) runes (i + 1)
                  = nextNonSpace runes i).
  { unfold nextNonSpace. apply skipSpaces_lookup. lia. }
  unfold st', scanStep. rewrite Hc, Hmark. fold buffer. rewrite Hnext.
  destruct (i + 1 <? length runes)%nat eqn:Hlt.
  - apply Nat.ltb_lt in Hlt.
    destruct (nextNonSpace runes i) as [next|] eqn:Hn.
    + destruct ((IsUpper isExcludingLatinUpper next && (10 <? len (TrimSpace buffer)))
                || (next =? R "¿") || (next =? R "¡")) eqn:Hcond.
      * cbn [snd]. split; [|split; [lia|split; done]].
        intros _. split; [intros _|done]. exists next. split; [done|].
        apply orb_prop in Hcond as [Hcond|Hcond];
          [apply orb_prop in Hcond as [Hcond|Hcond]|].
        -- apply andb_prop in Hcond as [H1 H2]. left. split; [done|].
           by apply Z.ltb_lt.
        -- right. left. by apply Z.eqb_eq.
        -- right. right. by apply Z.eqb_eq.
      * cbn [snd]. split; [|split; [lia|split; done]].
        intros _. split; [done|]. intros (next' & Heq & Hor).
        inversion Heq; subst next'. exfalso.
        apply orb_false_elim in Hcond as [Hcond H3].
        apply orb_false_elim in Hcond as [H1 H2].
        destruct Hor as [[Hu Hl]|[->| ->]].
        -- rewrite Hu in H1. simpl in H1. apply Z.ltb_ge in H1. lia.
        -- by rewrite Z.eqb_refl in H2.
        -- by rewrite Z.eqb_refl in H3.
    + cbn [snd]. split; [|split; [lia|split; done]].
      intros _. split; [done|]. intros (next' & Heq & _). done.
  - apply Nat.ltb_ge in Hlt. cbn [snd].
    split; [lia|]. split; [done|]. split; done.
Qed.

Lemma scanStep_boundary_witness :
  (scanStep (fun _ => false) (G "Hola a todos. Adiós.") 12 ([], G "Hola a todos")).2
  = [].
Proof.
  apply (proj1 (scanStep_boundary (fun _ => false) (G "Hola a todos. Adiós.") 12
                  (R ".") [] (G "Hola a todos") eq_refl eq_refl)).
  - cbv. lia.
  - exists (R "A"). split; [reflexivity|]. left. split; [reflexivity|].
    vm_compute. reflexivity.
Defined.

(** C7: the scan measures the buffer in bytes, not in characters.  In
    "Él llegó. Adiós amigo." the full stop at position 8 is not at the
    end of the text and the next rune that is not white space is the
    uppercase 'A'; the trimmed buffer "Él llegó." is 9 characters long,
    not longer than 10, but it is 11 bytes long, and the mark closes the
    buffer: the scan returns two sentences.  On "El llego. Adios
    amigo.", the same text without the accents, the mark does not close
    the buffer and the scan returns one sentence. *)
Theorem scanSentences_counts_bytes :
  let runes := G "Él llegó. Adiós amigo." in
  let buffer := G "Él llegó" in
  runes !! 8%nat = Some (R ".")
  /\ (8 + 1 < length runes)%nat
  /\ nextNonSpace runes 8 = Some (R "A")
  /\ IsUpper (fun _ => false) (R "A") = true
  /\ length (TrimSpace (buffer ++ [R "."])) = 9%nat
  /\ len (TrimSpace (buffer ++ [R "."])) = 11
  /\ foldl (fun st i => scanStep (fun _ => false) runes i st) ([], [])
        (seq 0 8)
     = ([], buffer)
  /\ scanStep (fun _ => false) runes 8 ([], buffer) = ([G "Él llegó."], [])
  /\ scanSentences (fun _ => false) runes = [G "Él llegó."; G "Adiós amigo."]
  /\ scanSentences (fun _ => false) (G "El llego. Adios amigo.")
     = [G "El llego. Adios amigo."].
Proof. vm_compute. repeat split; try reflexivity. lia. Qed.

(** ** Long sentences *)










(** ** Abbreviation protection *)

Ltac each_abbreviation i :=
  do 35 (destruct i as [|i]; [vm_compute; reflexivity|]);
  vm_compute; reflexivity.

Lemma restoreStep_protected (i : nat) :
  restoreStep (placeholder 3 ++ G " Smith llegó.") i
  = if (i =? 3)%nat then G "Dr. Smith llegó."
    else placeholder 3 ++ G " Smith llegó.".
Proof. each_abbreviation i. Qed.

Lemma restoreStep_restored (i : nat) :
  restoreStep (G "Dr. Smith llegó.") i = G "Dr. Smith llegó.".
Proof. each_abbreviation i. Qed.

Lemma restoreStep_plain (i : nat) :
  restoreStep (G "Se fue.") i = G "Se fue.".
Proof. each_abbreviation i. Qed.

Lemma restore_restored (order : list nat) :
  restore order (G "Dr. Smith llegó.") = G "Dr. Smith llegó.".
Proof.
  unfold restore. fold restoreStep.
  induction order as [|i order IH]; [done|].
  cbn [foldl]. by rewrite restoreStep_restored.
Qed.

Lemma restore_protected (order : list nat) :
  3%nat ∈ order ->
  restore order (placeholder 3 ++ G " Smith llegó.") = G "Dr. Smith llegó.".
Proof.
  unfold restore. fold restoreStep.
  induction order as [|i order IH]; intros Hin; [by apply elem_of_nil in Hin|].
  cbn [foldl]. rewrite restoreStep_protected.
  destruct (i =? 3)%nat eqn:E.
  - apply restore_restored.
  - apply IH. apply Nat.eqb_neq in E.
    apply elem_of_cons in Hin as [Hin|Hin]; [congruence | done].
Qed.

Lemma restore_plain (order : list nat) :
  restore order (G "Se fue.") = G "Se fue.".
Proof.
  unfold restore. fold restoreStep.
  induction order as [|i order IH]; [done|].
  cbn [foldl]. by rewrite restoreStep_plain.
Qed.

(** C6, as stated, fails: the segmentation of the text returns one
    sentence, not two. *)
Lemma splitSentences_Dr_Smith_not_two :
  splitSentences (fun _ => false) (fun _ => seq 0 35)
    (G "Dr. Smith llegó. Se fue.")
  = [G "Dr. Smith llegó. Se fue."]
  /\ length (splitSentences (fun _ => false) (fun _ => seq 0 35)
               (G "Dr. Smith llegó. Se fue.")) <> 2%nat.
Proof. split; [vm_compute; reflexivity | vm_compute; lia]. Qed.

(** C6, amended: on "Dr. Smith llegó. Se fue." the character scan
    extracts two sentences, the first one with "Dr." protected and not
    split at it; after restoration the first sentence has three words
    ([\w+] counts ASCII letters) and 17 bytes, so [mergeShortFragments]
    joins the two, and [splitSentences] returns the single sentence
    "Dr. Smith llegó. Se fue.", whatever the iteration order of the
    protection map. *)
Theorem splitSentences_Dr_Smith (isExcludingLatinUpper : rune -> bool)
    (orders : nat -> list nat) :
  (forall k, Permutation (orders k) (seq 0 (length abbreviations))) ->
  scanSentences isExcludingLatinUpper
    (protect (normalizeTextForTTS (G "Dr. Smith llegó. Se fue.")))
  = [placeholder 3 ++ G " Smith llegó."; G "Se fue."]
  /\ processSentence (orders 0%nat) (placeholder 3 ++ G " Smith llegó.")
     = [G "Dr. Smith llegó."]
  /\ processSentence (orders 1%nat) (G "Se fue.") = [G "Se fue."]
  /\ isShort (G "Dr. Smith llegó.") = true
  /\ splitSentences isExcludingLatinUpper orders (G "Dr. Smith llegó. Se fue.")
     = [G "Dr. Smith llegó. Se fue."].
Proof.
  intros Hperm.
  assert (Hscan : scanSentences isExcludingLatinUpper
                    (protect (normalizeTextForTTS (G "Dr. Smith llegó. Se fue.")))
                  = [placeholder 3 ++ G " Smith llegó."; G "Se fue."])
    by (vm_compute; reflexivity).
  assert (H0 : processSentence (orders 0%nat) (placeholder 3 ++ G " Smith llegó.")
               = [G "Dr. Smith llegó."]).
  { unfold processSentence. rewrite restore_protected.
    - vm_compute. reflexivity.
    - rewrite (Hperm 0%nat). apply elem_of_seq. vm_compute. lia. }
  assert (H1 : processSentence (orders 1%nat) (G "Se fue.") = [G "Se fue."]).
  { unfold processSentence. rewrite restore_plain. vm_compute. reflexivity. }
  split; [done|]. split; [done|]. split; [done|].
  split; [vm_compute; reflexivity|].
  unfold splitSentences.
  replace (str_eqb (TrimSpace (G "Dr. Smith llegó. Se fue.")) []) with false
    by (vm_compute; reflexivity).
  rewrite Hscan.
  assert (Himap : forall (f : nat -> gostring -> list gostring) a b,
             imap f [a; b] = [f 0%nat a; f 1%nat b]) by reflexivity.
  rewrite Himap, H0, H1. vm_compute. reflexivity.
Qed.

Lemma splitSentences_Dr_Smith_witness :
  splitSentences (fun _ => false) (fun _ => seq 0 35)
    (G "Dr. Smith llegó. Se fue.")
  = [G "Dr. Smith llegó. Se fue."].
Proof.
  apply (splitSentences_Dr_Smith (fun _ => false) (fun _ => seq 0 35)).
  intros k. vm_compute. reflexivity.
Defined.

(** ** The normalizer *)

Section NoMatch.
Variable P : rune -> bool.

Lemma star_loop_free (step : pos -> caps -> list (pos * caps)) (greedy : bool) :
  (forall p c p' c', free P p.2 -> In (p', c') (step p c) -> free P p'.2) ->
  forall fuel p c p' c',
    free P p.2 -> In (p', c') (star_loop step greedy fuel p c) -> free P p'.2.
Proof.
  intros Hstep. induction fuel as [|fuel IH]; intros p c p' c' Hp Hin.
  - simpl in Hin. destruct Hin as [Heq|[]]. by inversion Heq; subst.
  - cbn [star_loop] in Hin.
    assert (Hmore : forall q d,
               In (q, d)
                  (flat_map (fun pc : pos * caps =>
                               if (length pc.1.2 <? length p.2)%nat
                               then star_loop step greedy fuel pc.1 pc.2
                               else []) (step p c)) -> free P q.2).
    { intros q d Hq. apply in_flat_map in Hq as ([m mc] & Hm & Hq).
      simpl in Hq. destruct (_ <? _)%nat; [|done].
      eapply IH; [|exact Hq]. eapply Hstep; [exact Hp | exact Hm]. }
    destruct greedy.
    + apply in_app_or in Hin as [Hin|Hin]; [by eapply Hmore|].
      destruct Hin as [Heq|[]]. by inversion Heq; subst.
    + destruct Hin as [Heq|Hin]; [by inversion Heq; subst | by eapply Hmore].
Qed.

(** A match ends inside the text it started in. *)
Lemma run_free (r : re) :
  forall p c p' c', free P p.2 -> In (p', c') (run r p c) -> free P p'.2.
Proof.
  induction r as [f| |a IHa b IHb|a IHa b IHb|greedy a IHa|n a IHa| |];
    intros p c p' c' Hp Hin; cbn [run] in Hin.
  - destruct p as [before [|x s]]; simpl in *; [done|].
    destruct (f x); [|done]. destruct Hin as [Heq|[]].
    inversion Heq; subst. simpl. by inversion Hp.
  - destruct Hin as [Heq|[]]. by inversion Heq; subst.
  - apply in_flat_map in Hin as ([m mc] & Hm & Hin).
    eapply IHb; [|exact Hin]. eapply IHa; [exact Hp | exact Hm].
  - apply in_app_or in Hin as [Hin|Hin]; [by eapply IHa | by eapply IHb].
  - eapply star_loop_free; [exact IHa | exact Hp | exact Hin].
  - apply in_map_iff in Hin as ([m mc] & Heq & Hm).
    inversion Heq; subst. by eapply IHa.
  - destruct (xorb _ _); [|done]. destruct Hin as [Heq|[]].
    by inversion Heq; subst.
  - destruct p as [before [|x s]]; simpl in *; [|done].
    destruct Hin as [Heq|[]]. by inversion Heq; subst.
Qed.

Lemma flat_map_nil {A B} (f : A -> list B) (l : list A) :
  (forall x, In x l -> f x = []) -> flat_map f l = [].
Proof.
  induction l as [|x l IH]; intros H; simpl; [done|].
  rewrite (H x) by (by left). apply IH. intros y Hy. apply H. by right.
Qed.

(** A pattern that needs a rune of [P] matches nowhere in a text free
    of them. *)
Lemma run_needs (r : re) :
  Needs P r -> forall p c, free P p.2 -> run r p c = [].
Proof.
  induction 1 as [f Hf|a b _ IHa|a b _ IHb|a b _ IHa _ IHb|n a _ IHa];
    intros p c Hp; cbn [run].
  - destruct p as [before [|x s]]; simpl in *; [done|].
    destruct (f x) eqn:E; [|done].
    apply Hf in E. inversion Hp as [|? ? Hx _]; subst. congruence.
  - by rewrite IHa.
  - apply flat_map_nil. intros [m mc] Hm. apply IHb.
    eapply run_free; [exact Hp | exact Hm].
  - by rewrite IHa, IHb.
  - by rewrite IHa.
Qed.

Lemma replace_loop_needs (r : re) (f : gostring -> caps -> gostring) :
  Needs P r ->
  forall fuel before s, free P s -> replace_loop fuel r f (before, s) = s.
Proof.
  intros Hr. induction fuel as [|fuel IH]; intros before s Hs; [done|].
  cbn [replace_loop]. unfold matchAt. rewrite (run_needs r Hr) by done.
  destruct s as [|x s]; simpl; [done|].
  rewrite IH; [done | by inversion Hs].
Qed.

Lemma ReplaceAllString_needs (s : gostring) (r : re) (t : list titem) :
  free P s -> Needs P r -> ReplaceAllString r s t = s.
Proof. intros Hs Hr. by apply replace_loop_needs. Qed.

Lemma ReplaceAllStringFunc_needs (s : gostring) (r : re)
    (f : gostring -> gostring) :
  free P s -> Needs P r -> ReplaceAllStringFunc r s f = s.
Proof. intros Hs Hr. by apply replace_loop_needs. Qed.

Lemma HasPrefix_needs (s old : gostring) :
  free P s -> P (hd 32 old) = true -> P 32 = false -> HasPrefix s old = false.
Proof.
  intros Hs Ho H32. destruct old as [|o old]; [simpl in Ho; congruence|].
  destruct s as [|c s]; [done|]. simpl in *.
  inversion Hs as [|? ? Hc _]; subst.
  destruct (c =? o) eqn:E; [|done]. apply Z.eqb_eq in E. congruence.
Qed.

Lemma ReplaceAll_needs (s old new : gostring) :
  free P s -> P (hd 32 old) = true -> P 32 = false -> ReplaceAll s old new = s.
Proof.
  intros Hs Ho H32. unfold ReplaceAll. generalize (S (length s)). intros fuel.
  revert s Hs. induction fuel as [|fuel IH]; intros s Hs; [done|].
  cbn [ReplaceAll_loop]. destruct s as [|c s]; [done|].
  rewrite HasPrefix_needs by done. rewrite IH; [done | by inversion Hs].
Qed.

Lemma Contains_needs (s old : gostring) :
  free P s -> P (hd 32 old) = true -> P 32 = false -> Contains s old = false.
Proof.
  intros Hs Ho H32. induction s as [|c s IH]; cbn [Contains].
  - by rewrite HasPrefix_needs.
  - rewrite HasPrefix_needs by done. apply IH. by inversion Hs.
Qed.
End NoMatch.

Lemma chr_needs (P : rune -> bool) (s : string) :
  P (R s) = true -> Needs P (chr s).
Proof.
  intros H. constructor. intros c Hc. apply Z.eqb_eq in Hc. by subst.
Qed.

Lemma eqb_needs (P : rune -> bool) (r : rune) :
  P r = true -> Needs P (Class (Z.eqb r)).
Proof.
  intros H. constructor. intros c Hc. apply Z.eqb_eq in Hc. by subst.
Qed.

Lemma oneOf_needs (P : rune -> bool) (l : gostring) :
  forallb P l = true -> Needs P (Class (oneOf l)).
Proof.
  intros H. constructor. intros c Hc. unfold oneOf in Hc.
  apply existsb_exists in Hc as (x & Hx & Heq). apply Z.eqb_eq in Heq. subst x.
  rewrite forallb_forall in H. by apply H.
Qed.

Ltac needs :=
  first
    [ apply chr_needs; vm_compute; reflexivity
    | apply eqb_needs; vm_compute; reflexivity
    | apply oneOf_needs; vm_compute; reflexivity
    | apply Needs_Cap; needs
    | apply Needs_Cat_l; needs
    | apply Needs_Cat_r; needs
    | apply Needs_Alt; needs ].

Lemma ordinary_not_space (r : rune) :
  ordinary r = true -> IsSpace r = false /\ perl_s r = false /\ special r = false.
Proof.
  intros H. unfold special. rewrite H. split; [|split; [|done]].
  - unfold ordinary in H. destruct (IsSpace r); [done|done].
  - unfold ordinary in H. destruct (IsSpace r) eqn:E; [done|].
    unfold perl_s, IsSpace in *.
    destruct (r =? 9) eqn:E9; [apply Z.eqb_eq in E9; subst; done|].
    destruct (r =? 10) eqn:E10; [apply Z.eqb_eq in E10; subst; done|].
    destruct (r =? 12) eqn:E12; [apply Z.eqb_eq in E12; subst; done|].
    destruct (r =? 13) eqn:E13; [apply Z.eqb_eq in E13; subst; done|].
    destruct (r =? 32) eqn:E32; [apply Z.eqb_eq in E32; subst; done|].
    done.
Qed.

Lemma plainFrom_free (s : gostring) :
  plainFrom s = true -> free special s.
Proof.
  induction s as [|c s IH]; intros H; [constructor|].
  cbn [plainFrom] in H. apply andb_prop in H as [Hc Hs].
  constructor; [|by apply IH].
  destruct (c =? 32) eqn:E.
  - unfold special. rewrite E. by rewrite andb_false_r.
  - by apply ordinary_not_space.
Qed.

Lemma plainFrom_last (s : gostring) :
  plainFrom s = true -> s <> [] ->
  exists s0 c, s = s0 ++ [c] /\ ordinary c = true.
Proof.
  induction s as [|c s IH]; intros H Hne; [done|].
  cbn [plainFrom] in H. apply andb_prop in H as [Hc Hs].
  destruct s as [|d s].
  - exists [], c. split; [done|]. by destruct (c =? 32).
  - destruct (IH Hs) as (s0 & e & Heq & He); [done|].
    exists (c :: s0), e. split; [|done]. simpl. by rewrite Heq.
Qed.

Lemma TrimSpace_plain (s : gostring) :
  plainText s = true -> TrimSpace s = s.
Proof.
  intros H. destruct s as [|c s]; [done|].
  simpl in H. apply andb_prop in H as [Hc Hs].
  destruct (plainFrom_last (c :: s) Hs) as (s0 & e & Heq & He); [done|].
  unfold TrimSpace.
  apply ordinary_not_space in Hc as [Hc _].
  apply ordinary_not_space in He as [He _].
  cbn [dropWhile]. rewrite Hc. rewrite Heq.
  rewrite rev_app_distr. cbn [rev app dropWhile]. rewrite He.
  change (e :: rev s0) with (rev [e] ++ rev s0).
  rewrite <- rev_app_distr. by rewrite rev_involutive.
Qed.

Lemma spaces_none (before s : gostring) (c : caps) (x : rune) :
  perl_s x = false -> run (plus true ws) (before, x :: s) c = [].
Proof. intros H. unfold plus, ws. cbn [run snd]. by rewrite H. Qed.

Lemma spaces_one (before s : gostring) (d : rune) :
  perl_s d = false ->
  matchAt (plus true ws) (before, 32 :: d :: s)
  = Some ((32 :: before, d :: s), []).
Proof.
  intros H. unfold matchAt, plus, ws.
  cbn [run snd fst]. change (perl_s 32) with true.
  cbn [flat_map run star_loop snd fst app]. rewrite H.
  cbn [flat_map app snd fst length].
  replace (S (length s) <? S (S (length s)))%nat with true; [done|].
  symmetry. apply Nat.ltb_lt. lia.
Qed.

(** Single spaces between words are replaced by themselves. *)
Lemma collapse_spaces_plain :
  forall fuel before s,
    plainFrom s = true ->
    replace_loop fuel (plus true ws) (fun _ c => expand [TText (G " ")] c)
      (before, s) = s.
Proof.
  induction fuel as [|fuel IH]; intros before s Hs; [done|].
  cbn [replace_loop]. destruct s as [|c s].
  - done.
  - cbn [plainFrom] in Hs. apply andb_prop in Hs as [Hc Hs].
    destruct (c =? 32) eqn:E.
    + apply Z.eqb_eq in E. subst c. destruct s as [|d s]; [done|].
      apply ordinary_not_space in Hc as (_ & Hd & _).
      rewrite spaces_one by done. rewrite IH by done. done.
    + apply ordinary_not_space in Hc as (_ & Hc & _).
      unfold matchAt. rewrite spaces_none by done. cbn [snd].
      by rewrite IH.
Qed.

Lemma squeezeDots_needs (fuel : nat) (s : gostring) :
  free special s -> squeezeDots fuel s = s.
Proof.
  intros Hs. destruct fuel; [done|]. cbn [squeezeDots].
  rewrite (Contains_needs special s (G "..")) by done. done.
Qed.

(** C4: the normalizer is not idempotent.  The rule under "Fix
    malformed punctuation combinations" that replaces "¿¡" by "¿" is one
    [strings.ReplaceAll] pass, so "¿¡¡" gives "¿¡", which still holds the
    combination and gives "¿" when normalized again.  Likewise a colon
    followed by a vertical tab: [\s] of the colon rule does not match
    U+000B but the final [strings.TrimSpace] removes it, so "A:" with a
    vertical tab gives "A:", which gives "A." when normalized again. *)
Theorem normalizeTextForTTS_not_idempotent :
  normalizeTextForTTS (G "¿¡¡") = G "¿¡"
  /\ normalizeTextForTTS (normalizeTextForTTS (G "¿¡¡")) = G "¿"
  /\ normalizeTextForTTS (normalizeTextForTTS (G "¿¡¡"))
     <> normalizeTextForTTS (G "¿¡¡")
  /\ normalizeTextForTTS (G "A:" ++ [11]) = G "A:"
  /\ normalizeTextForTTS (normalizeTextForTTS (G "A:" ++ [11])) = G "A.".
Proof.
  split; [vm_compute; reflexivity|]. split; [vm_compute; reflexivity|].
  split; [vm_compute; discriminate|].
  split; vm_compute; reflexivity.
Qed.

(** Plain text is a fixed point: a text of words separated by single
    spaces, with none of the runes that the rules look for, is returned
    unchanged, so that normalizing it twice equals normalizing it
    once. *)
Lemma normalizeTextForTTS_plain (x : gostring) :
  plainText x = true ->
  normalizeTextForTTS x = x
  /\ normalizeTextForTTS (normalizeTextForTTS x) = normalizeTextForTTS x.
Proof.
  intros Hplain.
  assert (Hfix : normalizeTextForTTS x = x).
  { assert (Hfrom : plainFrom x = true).
    { destruct x; [done|]. simpl in Hplain. by apply andb_prop in Hplain as [_ ?]. }
    pose proof (plainFrom_free x Hfrom) as Hfree.
    unfold normalizeTextForTTS. cbv zeta.
    repeat first
      [ rewrite (ReplaceAllString_needs special x) by (first [exact Hfree | needs])
      | rewrite (ReplaceAllStringFunc_needs special x) by (first [exact Hfree | needs])
      | rewrite (ReplaceAll_needs special x)
          by (first [exact Hfree | vm_compute; reflexivity])
      | rewrite (squeezeDots_needs _ x) by exact Hfree ].
    unfold ReplaceAllString at 1. rewrite collapse_spaces_plain by done.
    by apply TrimSpace_plain. }
  split; [done|]. by rewrite !Hfix.
Qed.

Lemma normalizeTextForTTS_plain_witness :
  normalizeTextForTTS (normalizeTextForTTS (G "hola mundo cruel"))
  = normalizeTextForTTS (G "hola mundo cruel").
Proof.
  apply (normalizeTextForTTS_plain (G "hola mundo cruel")).
  vm_compute. reflexivity.
Defined.

(** * Further properties *)

(** ** Dispatch *)

Lemma processQueue_loop_conserving (fuel : nat) (pq : ProcessQueue) :
  (length (queue pq) <= fuel)%nat ->
  queue (processQueue_loop fuel pq) = []
  \/ MaxConcurrent pq <= runningCount (processQueue_loop fuel pq).
Proof.
  revert pq. induction fuel as [|fuel IH]; intros pq Hfuel.
  - left. simpl. destruct (queue pq); [done | simpl in Hfuel; lia].
  - cbn [processQueue_loop].
    destruct (queue pq) as [|item rest] eqn:Hq; [by left|].
    destruct (_ <? _) eqn:E.
    + destruct (IH {| MaxConcurrent := MaxConcurrent pq;
                      running := <[ID item := true]> (running pq);
                      queue := rest; cpuCores := cpuCores pq |}) as [H|H].
      * simpl in *. lia.
      * by left.
      * by right.
    + right. apply Z.ltb_ge in E. unfold runningCount. lia.
Qed.

(** X1: a dispatch leaves no capacity idle: when [processQueue] returns,
    the pending queue is empty or the running set has reached the
    capacity. *)
Theorem processQueue_work_conserving (pq : ProcessQueue) :
  queue (processQueue pq) = []
  \/ MaxConcurrent (processQueue pq) <= runningCount (processQueue pq).
Proof.
  unfold processQueue. rewrite processQueue_loop_MaxConcurrent.
  by apply processQueue_loop_conserving.
Qed.

Lemma processQueue_loop_count (fuel : nat) (pq : ProcessQueue) :
  (length (queue pq) <= fuel)%nat ->
  NoDup (ID <$> queue pq) ->
  (forall item, item ∈ queue pq -> running pq !! ID item = None) ->
  runningCount pq <= MaxConcurrent pq ->
  let pq' := processQueue_loop fuel pq in
  exists k : nat,
    k = Z.to_nat (Z.min (Z.of_nat (length (queue pq)))
                        (MaxConcurrent pq - runningCount pq))
    /\ queue pq' = drop k (queue pq)
    /\ runningCount pq' = runningCount pq + Z.of_nat k
    /\ (forall item, item ∈ take k (queue pq) -> running pq' !! ID item = Some true)
    /\ (forall id, running pq !! id = Some true -> running pq' !! id = Some true).
Proof.
  revert pq. induction fuel as [|fuel IH]; intros pq Hfuel Hnd Hfresh Hcap pq'.
  - destruct (queue pq) eqn:Hq; [|simpl in Hfuel; lia].
    exists 0%nat. subst pq'. simpl. rewrite Hq. simpl.
    split; [lia|]. split; [done|]. split; [lia|]. split; [|done].
    intros item Hin. by apply elem_of_nil in Hin.
  - subst pq'. cbn [processQueue_loop].
    destruct (queue pq) as [|item rest] eqn:Hq.
    { exists 0%nat. rewrite Hq. simpl. split; [lia|]. split; [done|].
      split; [lia|]. split; [|done]. intros i Hin. by apply elem_of_nil in Hin. }
    destruct (_ <? _) eqn:E.
    + apply Z.ltb_lt in E.
      set (next := {| MaxConcurrent := MaxConcurrent pq;
                      running := <[ID item := true]> (running pq);
                      queue := rest; cpuCores := cpuCores pq |}).
      rewrite fmap_cons in Hnd. apply NoDup_cons in Hnd as [Hni Hnd].
      assert (Hitem : running pq !! ID item = None)
        by (apply Hfresh; apply elem_of_cons; by left).
      assert (Hsize : runningCount next = runningCount pq + 1).
      { unfold runningCount, next. simpl.
        rewrite map_size_insert_None by done. lia. }
      destruct (IH next) as (k & Hk & Hqueue & Hcount & Hstarted & Hkept).
      * simpl in *. lia.
      * done.
      * intros i Hin. simpl in Hin. unfold next. simpl.
        rewrite lookup_insert_ne.
        -- apply Hfresh. apply elem_of_cons. by right.
        -- intros Heq. apply Hni. rewrite Heq. apply list_elem_of_fmap.
           by exists i.
      * unfold runningCount in *. simpl in *. lia.
      * exists (S k). simpl in Hk, Hqueue.
        split; [|split; [|split; [|split]]].
        -- simpl. unfold runningCount in *. lia.
        -- done.
        -- lia.
        -- intros i Hin. cbn [take] in Hin. apply elem_of_cons in Hin as [->|Hin].
           ++ apply Hkept. unfold next. simpl. by rewrite lookup_insert_eq.
           ++ by apply Hstarted.
        -- intros id Hid. apply Hkept. unfold next. simpl.
           destruct (decide (ID item = id)) as [<-|Hne].
           ++ by rewrite lookup_insert_eq.
           ++ by rewrite lookup_insert_ne.
    + apply Z.ltb_ge in E. exists 0%nat. rewrite Hq.
      split; [unfold runningCount in *; simpl; lia|].
      split; [done|]. split; [lia|]. split; [|done].
      intros i Hin. by apply elem_of_nil in Hin.
Qed.

(** X2: dispatch is first-in first-out and fills the capacity: when the
    pending items have distinct identifiers that are not running and the
    running set is within the capacity, [processQueue] starts the first
    [k] pending items, [k] the smaller of the number of pending items and
    the free capacity, leaves the others pending in their order, and
    keeps every task that was running. *)
Theorem processQueue_fifo (pq : ProcessQueue) :
  NoDup (ID <$> queue pq) ->
  (forall item, item ∈ queue pq -> running pq !! ID item = None) ->
  runningCount pq <= MaxConcurrent pq ->
  let k := Z.to_nat (Z.min (Z.of_nat (length (queue pq)))
                           (MaxConcurrent pq - runningCount pq)) in
  queue (processQueue pq) = drop k (queue pq)
  /\ runningCount (processQueue pq) = runningCount pq + Z.of_nat k
  /\ (forall item, item ∈ take k (queue pq) ->
        running (processQueue pq) !! ID item = Some true)
  /\ (forall id, running pq !! id = Some true ->
        running (processQueue pq) !! id = Some true).
Proof.
  intros Hnd Hfresh Hcap k.
  destruct (processQueue_loop_count (length (queue pq)) pq)
    as (k' & Hk & H); [lia | done | done | done |].
  fold k in Hk. subst k'. exact H.
Qed.

Lemma processQueue_fifo_witness :
  let pq :=
    interleave (NewProcessQueue 8 2)
      [EvAdd {| ID := "a" |}; EvAdd {| ID := "b" |}; EvAdd {| ID := "c" |}] in
  queue (processQueue pq) = [{| ID := "c" |}]
  /\ runningCount (processQueue pq) = 2.
Proof.
  intros pq.
  destruct (processQueue_fifo pq) as (Hq & Hc & _).
  - vm_compute.
    repeat (apply NoDup_cons; split;
            [intros H;
             repeat (apply elem_of_cons in H as [H|H]; [discriminate|]);
             by apply elem_of_nil in H|]).
    apply NoDup_nil. done.
  - intros item Hin. reflexivity.
  - vm_compute. discriminate.
  - split; [exact Hq | exact Hc].
Defined.

(** X3: a second dispatch right after a dispatch changes nothing. *)
Theorem processQueue_idempotent (pq : ProcessQueue) :
  processQueue (processQueue pq) = processQueue pq.
Proof.
  assert (Hc : queue (processQueue pq) = []
               \/ MaxConcurrent (processQueue pq)
                  <= runningCount (processQueue pq)).
  { unfold processQueue. rewrite processQueue_loop_MaxConcurrent.
    by apply processQueue_loop_conserving. }
  destruct Hc as [H|H].
  - unfold processQueue at 1. by rewrite H.
  - by apply processQueue_full.
Qed.

(** ** The settings handler *)

Lemma clampConcurrent_max_min (m : Z) :
  clampConcurrent m = Z.max 1 (Z.min 32 m).
Proof.
  unfold clampConcurrent.
  destruct (m <? 1) eqn:E1; [apply Z.ltb_lt in E1 | apply Z.ltb_ge in E1].
  - change (32 <? 1) with false. cbv iota. lia.
  - destruct (32 <? m) eqn:E2;
      [apply Z.ltb_lt in E2 | apply Z.ltb_ge in E2]; lia.
Qed.

(** X4: [updateSettingsHandler] keeps the capacity of the queue in
    [1,32].  With auto-detection on it sets the capacity to twice the
    number of cores, clamped, while the [MaxThreads] that it stores is
    twice the number of cores, not clamped; with auto-detection off and
    a positive [maxThreads] in the request, both are the request capped
    at 32; with auto-detection off and no positive [maxThreads], the
    queue is untouched and no dispatch is left.  Where it sets the
    capacity it leaves one dispatch to a goroutine: its own critical
    section moves no task, and once that dispatch has run the capacity
    is the one set and the pending queue is empty or the running tasks
    have reached the capacity. *)
Theorem updateSettings_capacity (cores : Z) (requestData : settingsRequest)
    (userSettings : Settings) (pq : ProcessQueue) :
  1 <= MaxConcurrent pq <= 32 ->
  1 <= cores < 2 ^ 62 ->
  let '(userSettings', pq', dispatches) :=
    updateSettings cores requestData (userSettings, pq) in
  let settled := Nat.iter dispatches processQueue pq' in
  1 <= MaxConcurrent pq' <= 32
  /\ (running pq' = running pq /\ queue pq' = queue pq)
  /\ AutoDetectThreads userSettings'
     = default (AutoDetectThreads userSettings) (req_AutoDetectThreads requestData)
  /\ (AutoDetectThreads userSettings' = true ->
      MaxConcurrent pq' = Z.max 1 (Z.min 32 (cores * 2))
      /\ MaxThreads userSettings' = cores * 2
      /\ dispatches = 1%nat)
  /\ (AutoDetectThreads userSettings' = false ->
      match req_MaxThreads requestData with
      | Some requested =>
        if 0 <? requested
        then MaxConcurrent pq' = Z.min requested 32
             /\ MaxThreads userSettings' = Z.min requested 32
             /\ dispatches = 1%nat
        else pq' = pq
             /\ MaxThreads userSettings' = MaxThreads userSettings
             /\ dispatches = 0%nat
      | None => pq' = pq
                /\ MaxThreads userSettings' = MaxThreads userSettings
                /\ dispatches = 0%nat
      end)
  /\ MaxConcurrent settled = MaxConcurrent pq'
  /\ (dispatches = 1%nat ->
      queue settled = [] \/ MaxConcurrent settled <= runningCount settled)
  /\ (dispatches = 0%nat -> settled = pq).
Proof.
  intros Hcap Hcores.
  assert (Hwrap : wrapInt (cores * 2) = cores * 2).
  { unfold wrapInt. rewrite Z.mod_small; lia. }
  assert (Hclamp : forall requested, 0 < requested ->
            (if 32 <? (if requested <? 1 then 1 else requested)
             then 32 else (if requested <? 1 then 1 else requested))
            = Z.min requested 32).
  { intros requested H0.
    destruct (requested <? 1) eqn:E1; [apply Z.ltb_lt in E1; lia|].
    destruct (32 <? requested) eqn:E2;
      [apply Z.ltb_lt in E2 | apply Z.ltb_ge in E2]; lia. }
  assert (Hid : forall m, 0 < m -> clampConcurrent (Z.min m 32) = Z.min m 32).
  { intros m H0. rewrite clampConcurrent_max_min. lia. }
  assert (HoneM : forall q : ProcessQueue,
            MaxConcurrent (processQueue q) = MaxConcurrent q).
  { intros q. unfold processQueue. apply processQueue_loop_MaxConcurrent. }
  assert (HoneC : forall q : ProcessQueue,
            queue (processQueue q) = []
            \/ MaxConcurrent q <= runningCount (processQueue q)).
  { intros q. unfold processQueue. by apply processQueue_loop_conserving. }
  pose proof (clampConcurrent_max_min (cores * 2)) as Hmm.
  unfold updateSettings. cbv zeta. rewrite Hwrap.
  destruct userSettings as [threads auto0].
  destruct requestData as [requested auto].
  destruct auto as [[|]|]; destruct auto0;
    (destruct requested as [r|];
     cbn [req_MaxThreads req_AutoDetectThreads AutoDetectThreads MaxThreads
          negb default];
     [destruct (0 <? r) eqn:E0;
      [apply Z.ltb_lt in E0; rewrite ?(Hclamp r E0)|]|]);
    cbn [req_MaxThreads req_AutoDetectThreads AutoDetectThreads MaxThreads
         negb default Nat.iter];
    repeat split; intros; rewrite ?HoneM;
    first
      [ apply HoneC
      | cbn [SetMaxConcurrent MaxConcurrent running queue];
        rewrite ?Hid, ?Hmm by done;
        solve [done | discriminate | lia] ].
Qed.

Lemma updateSettings_capacity_witness :
  let pq :=
    interleave (NewProcessQueue 2 1)
      [EvAdd {| ID := "a" |}; EvProcessQueue;
       EvAdd {| ID := "b" |}; EvAdd {| ID := "c" |}] in
  let '(userSettings', pq', dispatches) :=
    updateSettings 2
      {| req_MaxThreads := Some 4; req_AutoDetectThreads := Some false |}
      ({| MaxThreads := 8; AutoDetectThreads := true |}, pq) in
  let settled := Nat.iter dispatches processQueue pq' in
  MaxConcurrent pq' = 4
  /\ (queue settled = [] \/ MaxConcurrent settled <= runningCount settled).
Proof.
  intros pq.
  assert (Hcap : 1 <= MaxConcurrent pq <= 32)
    by (vm_compute; split; discriminate).
  assert (Hcores : 1 <= 2 < 2 ^ 62) by lia.
  pose proof (updateSettings_capacity 2
                {| req_MaxThreads := Some 4; req_AutoDetectThreads := Some false |}
                {| MaxThreads := 8; AutoDetectThreads := true |}
                pq Hcap Hcores) as H.
  destruct (updateSettings 2 _ _) as [[s q] d].
  destruct H as (_ & _ & Hauto & _ & Hoff & _ & Hdisp & _).
  destruct (Hoff Hauto) as (Hm & _ & Hd).
  split; [exact Hm | exact (Hdisp Hd)].
Defined.

(** ** The error path of the parallel synthesis *)

Lemma generateAudioParallel_failure_state
    (sentences : list gostring) (outcomes : nat -> string + error)
    (completion : list nat) (fs : gset string)
    (k : nat) (err : error) (files : list string) :
  Permutation completion (seq 0 (length sentences)) ->
  (k < length sentences)%nat ->
  outcomes k = inr err ->
  length files = k ->
  (forall i f, files !! i = Some f -> outcomes i = inl f) ->
  generateAudioParallel sentences outcomes completion fs
  = (inr ("error processing sentence " +:+ pretty (Z.of_nat k + 1)
          +:+ ": " +:+ err),
     removeFiles files
       (fs ∪ list_to_set (producedFiles (length sentences) outcomes))).
Proof.
  intros Hperm Hk Herr Hlen Hfiles.
  destruct (collectResults_lookup sentences outcomes completion Hperm)
    as [Hl Hlk].
  unfold generateAudioParallel.
  set (results := collectResults sentences outcomes completion) in *.
  destruct (lookup_lt_is_Some_2 sentences k Hk) as [sent Hsent].
  pose proof (Hlk k sent Hsent) as Hrk.
  rewrite <- (take_drop_middle results k _ Hrk).
  rewrite (collectAudioFiles_failure _ _ _ err).
  - unfold resultOf. rewrite Herr. cbn [Index app].
    do 2 f_equal. apply list_eq. intros i. rewrite list_lookup_fmap.
    destruct (decide (i < k)%nat) as [Hi|Hi].
    + rewrite lookup_take_lt by done.
      destruct (lookup_lt_is_Some_2 sentences i ltac:(lia)) as [s Hs].
      destruct (lookup_lt_is_Some_2 files i ltac:(lia)) as [f Hf].
      rewrite (Hlk i s Hs), Hf. unfold resultOf. by rewrite (Hfiles i f Hf).
    + rewrite lookup_take_ge by lia.
      rewrite (proj2 (lookup_ge_None files i)); [done | lia].
  - apply Forall_lookup. intros i r Hr.
    apply lookup_take_Some in Hr as [Hr Hi].
    destruct (lookup_lt_is_Some_2 sentences i ltac:(lia)) as [s Hs].
    destruct (lookup_lt_is_Some_2 files i ltac:(lia)) as [f Hf].
    rewrite (Hlk i s Hs) in Hr. inversion Hr; subst.
    unfold resultOf. by rewrite (Hfiles i f Hf).
  - unfold resultOf. by rewrite Herr.
Qed.

Lemma removeFiles_elem_of (files : list string) (fs : gset string)
    (f : string) :
  f ∈ removeFiles files fs <-> f ∈ fs /\ f ∉ files.
Proof.
  unfold removeFiles. revert fs.
  induction files as [|file files IH]; intros fs; cbn [foldl].
  - split; [intros H; split; [done | apply not_elem_of_nil] | by intros [H _]].
  - rewrite IH. rewrite elem_of_difference, elem_of_singleton.
    rewrite not_elem_of_cons. tauto.
Qed.

Lemma producedFiles_elem_of (n : nat) (outcomes : nat -> string + error)
    (f : string) :
  f ∈ producedFiles n outcomes
  <-> exists i, (i < n)%nat /\ outcomes i = inl f.
Proof.
  unfold producedFiles. rewrite list_elem_of_omap. split.
  - intros (i & Hi & Ho). apply elem_of_seq in Hi.
    exists i. split; [lia|]. destruct (outcomes i); by inversion Ho.
  - intros (i & Hi & Ho). exists i. split; [apply elem_of_seq; lia|].
    by rewrite Ho.
Qed.

(** X5: when some synthesis task fails, the error returned is that of
    the failing sentence with the lowest index, whatever the order in
    which the tasks ended; it names the sentence by its position counted
    from 1, no list is returned, and the files left in the temporary
    directory are those that were there or that some task wrote, except
    the files of the sentences before the failing one: exactly these
    are removed. *)
Theorem generateAudioParallel_first_failure
    (sentences : list gostring) (outcomes : nat -> string + error)
    (completion : list nat) (fs : gset string)
    (k : nat) (err : error) (files : list string) :
  Permutation completion (seq 0 (length sentences)) ->
  (k < length sentences)%nat ->
  outcomes k = inr err ->
  length files = k ->
  (forall i f, files !! i = Some f -> outcomes i = inl f) ->
  exists fs',
    generateAudioParallel sentences outcomes completion fs
    = (inr ("error processing sentence " +:+ pretty (Z.of_nat k + 1)
            +:+ ": " +:+ err), fs')
    /\ forall f,
         f ∈ fs'
         <-> (f ∈ fs
              \/ exists i, (i < length sentences)%nat /\ outcomes i = inl f)
             /\ f ∉ files.
Proof.
  intros Hperm Hk Herr Hlen Hfiles.
  eexists. split.
  - by apply (generateAudioParallel_failure_state sentences outcomes completion
                fs k err files).
  - intros f. rewrite removeFiles_elem_of, elem_of_union, elem_of_list_to_set.
    by rewrite producedFiles_elem_of.
Qed.

Lemma generateAudioParallel_first_failure_witness :
  let outcomes := fun i : nat =>
    match i with
    | 0%nat => inl "/tmp/tts_a.wav"
    | 1%nat => inr "piper failed"
    | 2%nat => inl "/tmp/tts_c.wav"
    | _ => inr "output file not created"
    end in
  let result :=
    generateAudioParallel
      [G "Uno uno uno."; G "Dos dos dos."; G "Tres tres."; G "Cuatro."]
      outcomes [3; 0; 2; 1]%nat ∅ in
  result.1 = inr "error processing sentence 2: piper failed"
  /\ ("/tmp/tts_a.wav" ∉ result.2)
  /\ ("/tmp/tts_c.wav" ∈ result.2).
Proof.
  intros outcomes result.
  destruct (generateAudioParallel_first_failure
              [G "Uno uno uno."; G "Dos dos dos."; G "Tres tres."; G "Cuatro."]
              outcomes [3; 0; 2; 1]%nat ∅ 1 "piper failed" ["/tmp/tts_a.wav"])
    as (fs' & E & Hfs).
  - simpl. eapply perm_trans; [apply Permutation_cons_append|]. simpl.
    apply perm_skip. eapply perm_trans; [apply perm_swap|]. apply perm_skip.
    reflexivity.
  - simpl. lia.
  - reflexivity.
  - reflexivity.
  - intros i f Hf. destruct i as [|i]; simpl in Hf; [|done].
    inversion Hf. reflexivity.
  - subst result. rewrite E. cbn [fst snd]. split; [reflexivity|]. split.
    + intros Hin. apply Hfs in Hin as [_ Hnot]. apply Hnot.
      apply elem_of_cons. by left.
    + apply Hfs. split.
      * right. exists 2%nat. split; [simpl; lia | reflexivity].
      * intros Hin. apply elem_of_cons in Hin as [Hin|Hin]; [discriminate|].
        by apply elem_of_nil in Hin.
Defined.

(** ** The files after a concatenation *)


(** X6: when the concatenation returns an error, no input has been
    deleted: the files are as they were, except that a failed encoding
    leaves a broken file at the output path. *)
Theorem concatenateAudioNative_error_keeps_inputs
    (canCreate : string -> bool) (canEncode : WAVHeader -> list Z -> bool)
    (audioFiles : list string) (outputPath : string)
    (fs fs' : gmap string content) (err : error) :
  concatenateAudioNative canCreate canEncode audioFiles outputPath fs
  = (Some err, fs') ->
  (fs' = fs \/ (canCreate outputPath = true /\ fs' = <[outputPath := NotWav]> fs))
  /\ (forall file, file <> outputPath -> fs' !! file = fs !! file).
Proof.
  intros H.
  assert (Hcases : fs' = fs
                   \/ (canCreate outputPath = true
                       /\ fs' = <[outputPath := NotWav]> fs)).
  { unfold concatenateAudioNative in H.
    destruct audioFiles as [|first remaining]; [left; by inversion H|].
    destruct (readWAVFile fs first) as [[firstData header]|e];
      [|left; by inversion H].
    destruct (appendRemaining fs header remaining firstData) as [combined|e];
      [|left; by inversion H].
    unfold writeWAVFile in H.
    destruct (canCreate outputPath) eqn:Hc; [|left; by inversion H].
    destruct (canEncode header combined); [by inversion H|].
    right. split; [done|]. by inversion H. }
  split; [done|]. intros file Hne.
  destruct Hcases as [->|[_ ->]]; [done|]. by rewrite lookup_insert_ne.
Qed.

Lemma concatenateAudioNative_error_keeps_inputs_witness :
  let fs : gmap string content :=
    <["a.wav" := Wav hdr22050 [1; 2]]> (<["b.wav" := NotWav]> ∅) in
  (concatenateAudioNative (fun _ => true) (fun _ _ => true)
     ["a.wav"; "b.wav"] "out.wav" fs).2 !! "a.wav" = fs !! "a.wav".
Proof.
  intros fs.
  apply (concatenateAudioNative_error_keeps_inputs (fun _ => true)
           (fun _ _ => true) ["a.wav"; "b.wav"] "out.wav" fs _
           "error reading file b.wav: invalid WAV file").
  - vm_compute. reflexivity.
  - discriminate.
Defined.

(** X7: when the concatenation succeeds, every input file is gone, the
    other files are untouched, and the output file exists afterwards
    exactly when the output path is not one of the inputs (an output
    written over an input is deleted with the inputs). *)
Theorem concatenateAudioNative_success_files
    (canCreate : string -> bool) (canEncode : WAVHeader -> list Z -> bool)
    (audioFiles : list string) (outputPath : string)
    (fs fs' : gmap string content) :
  concatenateAudioNative canCreate canEncode audioFiles outputPath fs
  = (None, fs') ->
  (forall file, file ∈ audioFiles -> fs' !! file = None)
  /\ (forall file, file ∉ audioFiles -> file <> outputPath ->
        fs' !! file = fs !! file)
  /\ (outputPath ∉ audioFiles ->
      exists header Data, fs' !! outputPath = Some (Wav header Data))
  /\ (is_Some (fs' !! outputPath) <-> outputPath ∉ audioFiles).
Proof.
  intros H. unfold concatenateAudioNative in H.
  destruct audioFiles as [|first remaining]; [by inversion H|].
  destruct (readWAVFile fs first) as [[firstData header]|e]; [|by inversion H].
  destruct (appendRemaining fs header remaining firstData) as [combined|e];
    [|by inversion H].
  unfold writeWAVFile in H.
  destruct (canCreate outputPath); [|by inversion H].
  destruct (canEncode header combined); [|by inversion H].
  assert (Hfs : fs' = removeAll (first :: remaining)
                        (<[outputPath := Wav header (writtenData header combined)]> fs))
    by (by inversion H).
  clear H. subst fs'.
  assert (Hout : outputPath ∉ first :: remaining ->
                 removeAll (first :: remaining)
                   (<[outputPath := Wav header (writtenData header combined)]> fs)
                 !! outputPath
                 = Some (Wav header (writtenData header combined))).
  { intros Hnin. rewrite removeAll_lookup. rewrite decide_False by done.
    by rewrite lookup_insert_eq. }
  split; [|split; [|split]].
  - intros file Hin. rewrite removeAll_lookup. by rewrite decide_True by done.
  - intros file Hnin Hne. rewrite removeAll_lookup.
    rewrite decide_False by done. by rewrite lookup_insert_ne.
  - intros Hnin. eauto.
  - split.
    + intros [c Hc] Hin. rewrite removeAll_lookup in Hc.
      by rewrite decide_True in Hc by done.
    + intros Hnin. rewrite Hout by done. eauto.
Qed.

Lemma concatenateAudioNative_success_files_witness :
  let fs : gmap string content :=
    <["a.wav" := Wav hdr22050 [1; 2]]> (<["b.wav" := Wav hdr22050 [3]]> ∅) in
  (concatenateAudioNative (fun _ => true) (fun _ _ => true)
     ["a.wav"; "b.wav"] "b.wav" fs).2 !! "b.wav" = None.
Proof.
  intros fs.
  apply (concatenateAudioNative_success_files (fun _ => true)
           (fun _ _ => true) ["a.wav"; "b.wav"] "b.wav" fs).
  - vm_compute. reflexivity.
  - apply elem_of_cons. right. apply elem_of_cons. by left.
Defined.

(** ** Base64 *)

Lemma encodeBase64_loop_groups (fuel : nat) (data : list Z) (i : nat)
    (buf : list Z) :
  (length data - i <= 3 * fuel)%nat ->
  encodeBase64_loop fuel data i buf = buf ++ encodeGroups (drop i data).
Proof.
  revert i buf. induction fuel as [|fuel IH]; intros i buf Hfuel.
  - rewrite drop_ge by lia. by rewrite app_nil_r.
  - cbn [encodeBase64_loop].
    destruct (data !! i) as [b0|] eqn:H0.
    2:{ rewrite drop_ge by (by apply lookup_ge_None). by rewrite app_nil_r. }
    rewrite (drop_S _ _ _ H0).
    replace (i + 1)%nat with (S i) by lia.
    replace (i + 2)%nat with (S (S i)) by lia.
    replace (i + 3)%nat with (S (S (S i))) by lia.
    rewrite IH by lia.
    destruct (data !! S i) as [b1|] eqn:H1.
    + rewrite (drop_S _ _ _ H1).
      assert (L1 : (S i <? length data)%nat = true)
        by (apply Nat.ltb_lt; by eapply lookup_lt_Some).
      rewrite L1.
      destruct (data !! S (S i)) as [b2|] eqn:H2.
      * rewrite (drop_S _ _ _ H2).
        assert (L2 : (S (S i) <? length data)%nat = true)
          by (apply Nat.ltb_lt; by eapply lookup_lt_Some).
        rewrite L2. cbn [default encodeGroups encodeGroup Nat.ltb Nat.leb].
        rewrite <- !app_assoc. done.
      * assert (L2 : (S (S i) <? length data)%nat = false)
          by (apply Nat.ltb_ge; by apply lookup_ge_None).
        rewrite L2. apply lookup_ge_None in H2.
        rewrite (drop_ge _ (S (S i))) by done.
        rewrite (drop_ge _ (S (S (S i)))) by lia.
        cbn [default encodeGroups encodeGroup Nat.ltb Nat.leb].
        rewrite <- !app_assoc. done.
    + assert (L1 : (S i <? length data)%nat = false)
        by (apply Nat.ltb_ge; by apply lookup_ge_None).
      apply lookup_ge_None in H1.
      assert (L2 : (S (S i) <? length data)%nat = false)
        by (apply Nat.ltb_ge; lia).
      rewrite L1, L2.
      rewrite (drop_ge _ (S i)) by done.
      rewrite (drop_ge _ (S (S (S i)))) by lia.
      cbn [encodeGroups encodeGroup Nat.ltb Nat.leb].
      rewrite <- !app_assoc. done.
Qed.

Lemma encodeBase64_groups (data : list Z) :
  encodeBase64 data = encodeGroups data.
Proof.
  unfold encodeBase64. rewrite encodeBase64_loop_groups by lia.
  by rewrite drop_0.
Qed.

Lemma encodeGroups_length (n : nat) :
  forall data, (length data <= n)%nat ->
    Z.of_nat (length (encodeGroups data))
    = 4 * ((Z.of_nat (length data) + 2) / 3).
Proof.
  induction n as [n IH] using lt_wf_ind. intros data Hlen.
  destruct data as [|b0 [|b1 [|b2 rest]]]; try done.
  cbn [encodeGroups]. rewrite length_app.
  change (length (encodeGroup b0 b1 b2 3)) with 4%nat.
  rewrite Nat2Z.inj_add. rewrite (IH (length rest)); [|simpl in Hlen; lia|lia].
  cbn [length]. rewrite !Nat2Z.inj_succ.
  replace (Z.succ (Z.succ (Z.succ (Z.of_nat (length rest)))) + 2)
    with ((Z.of_nat (length rest) + 2) + 1 * 3) by lia.
  rewrite Z.div_add by lia. lia.
Qed.

(** X8: the base64 text of [n] bytes has 4 * ceil(n / 3) characters. *)
Theorem encodeBase64_length (data : list Z) :
  Z.of_nat (length (encodeBase64 data))
  = 4 * ((Z.of_nat (length data) + 2) / 3).
Proof.
  rewrite encodeBase64_groups. by apply (encodeGroups_length (length data)).
Qed.

Lemma lor_disjoint (hi lo k : Z) :
  0 <= k -> 0 <= lo < 2 ^ k -> Z.lor (Z.shiftl hi k) lo = hi * 2 ^ k + lo.
Proof.
  intros Hk Hlo. rewrite <- Z.shiftl_mul_pow2 by done.
  rewrite <- Z.add_lor_land.
  assert (Hland : Z.land (Z.shiftl hi k) lo = 0).
  { apply Z.bits_inj'. intros n Hn. rewrite Z.land_spec, Z.bits_0.
    destruct (Z.lt_ge_cases n k) as [Hlt|Hge].
    - by rewrite Z.shiftl_spec_low.
    - assert (Z.testbit lo n = false) as ->; [|by rewrite andb_false_r].
      destruct (Z.eq_dec lo 0) as [->|Hne]; [apply Z.bits_0|].
      apply Z.bits_above_log2; [lia|].
      assert (Z.log2 lo < k) by (apply Z.log2_lt_pow2; lia). lia. }
  rewrite Hland. lia.
Qed.

Lemma forall_below (f : Z -> bool) (n : Z) :
  forallb f (seqZ 0 n) = true -> forall x, 0 <= x < n -> f x = true.
Proof.
  intros H x Hx. rewrite forallb_forall in H. apply H.
  apply list_elem_of_In. apply elem_of_seqZ. lia.
Qed.

Lemma sextet_tableAt (x : Z) :
  0 <= x < 64 -> sextet (tableAt x) = x /\ tableAt x <> R "=".
Proof.
  intros Hx.
  pose proof (forall_below
                (fun x => (sextet (tableAt x) =? x) && negb (tableAt x =? R "="))
                64 ltac:(vm_compute; reflexivity) x Hx) as H.
  apply andb_prop in H as [H1 H2]. split; [by apply Z.eqb_eq|].
  apply negb_true_iff in H2. by apply Z.eqb_neq.
Qed.

(** The four sextets of three bytes. *)
Lemma encodeGroup_sextets (b0 b1 b2 : Z) :
  isByte b0 -> isByte b1 -> isByte b2 ->
  Z.shiftr b0 2 = b0 / 4
  /\ Z.lor (shlByte (Z.land b0 0x03) 4) (Z.shiftr b1 4) = b0 mod 4 * 16 + b1 / 16
  /\ Z.lor (shlByte (Z.land b1 0x0f) 2) (Z.shiftr b2 6) = b1 mod 16 * 4 + b2 / 64
  /\ Z.land b2 0x3f = b2 mod 64.
Proof.
  unfold isByte, shlByte. intros H0 H1 H2.
  change 0x03 with (Z.ones 2). change 0x0f with (Z.ones 4).
  change 0x3f with (Z.ones 6). change 0xFF with (Z.ones 8).
  rewrite !Z.land_ones by lia. rewrite !Z.shiftr_div_pow2 by lia.
  rewrite !Z.shiftl_mul_pow2 by lia.
  change (2 ^ 2) with 4. change (2 ^ 4) with 16. change (2 ^ 6) with 64.
  change (2 ^ 8) with 256.
  rewrite (Z.mod_small (b0 mod 4 * 16) 256)
    by (pose proof (Z.mod_pos_bound b0 4); lia).
  rewrite (Z.mod_small (b1 mod 16 * 4) 256)
    by (pose proof (Z.mod_pos_bound b1 16); lia).
  assert (Hlor : forall hi lo k, 0 <= k -> 0 <= lo < 2 ^ k ->
             Z.lor (hi * 2 ^ k) lo = hi * 2 ^ k + lo).
  { intros hi lo k Hk Hlo. rewrite <- (lor_disjoint hi lo k) by done.
    by rewrite Z.shiftl_mul_pow2. }
  split; [done|]. split; [|split; [|done]].
  - apply (Hlor (b0 mod 4) (b1 / 16) 4); [lia|].
    change (2 ^ 4) with 16. split; [apply Z.div_pos; lia|].
    apply Z.div_lt_upper_bound; lia.
  - apply (Hlor (b1 mod 16) (b2 / 64) 2); [lia|].
    change (2 ^ 2) with 4. split; [apply Z.div_pos; lia|].
    apply Z.div_lt_upper_bound; lia.
Qed.

Lemma sextet_bounds (b0 b1 b2 : Z) :
  isByte b0 -> isByte b1 -> isByte b2 ->
  0 <= b0 / 4 < 64 /\ 0 <= b0 mod 4 * 16 + b1 / 16 < 64
  /\ 0 <= b1 mod 16 * 4 + b2 / 64 < 64 /\ 0 <= b2 mod 64 < 64.
Proof. unfold isByte. intros H0 H1 H2. Z.div_mod_to_equations. lia. Qed.

Lemma decodeBase64_group (b0 b1 b2 : Z) (n : nat) (rest : list Z) :
  isByte b0 -> isByte b1 -> isByte b2 ->
  (n = 3%nat \/ (n = 2%nat /\ b2 = 0 /\ rest = [])
   \/ (n = 1%nat /\ b1 = 0 /\ b2 = 0 /\ rest = [])) ->
  decodeBase64 (encodeGroup b0 b1 b2 n ++ rest)
  = take n [b0; b1; b2] ++ decodeBase64 rest.
Proof.
  intros H0 H1 H2 Hn.
  destruct (encodeGroup_sextets b0 b1 b2 H0 H1 H2) as (E0 & E1 & E2 & E3).
  destruct (sextet_bounds b0 b1 b2 H0 H1 H2) as (B0 & B1 & B2 & B3).
  unfold encodeGroup. rewrite E0, E1, E2, E3.
  destruct (sextet_tableAt _ B0) as [S0 _].
  destruct (sextet_tableAt _ B1) as [S1 _].
  destruct (sextet_tableAt _ B2) as [S2 N2].
  destruct (sextet_tableAt _ B3) as [S3 N3].
  apply Z.eqb_neq in N2, N3.
  assert (Hb0 : b0 / 4 * 4 + (b0 mod 4 * 16 + b1 / 16) / 16 = b0)
    by (unfold isByte in *; Z.div_mod_to_equations; lia).
  assert (Hb1 : (b0 mod 4 * 16 + b1 / 16) mod 16 * 16
                + (b1 mod 16 * 4 + b2 / 64) / 4 = b1)
    by (unfold isByte in *; Z.div_mod_to_equations; lia).
  assert (Hb2 : (b1 mod 16 * 4 + b2 / 64) mod 4 * 64 + b2 mod 64 = b2)
    by (unfold isByte in *; Z.div_mod_to_equations; lia).
  destruct Hn as [->|[(-> & -> & ->)|(-> & -> & -> & ->)]];
    cbn [Nat.ltb Nat.leb app decodeBase64 take].
  - rewrite S0, S1, S2, S3, N2, N3, Hb0, Hb1, Hb2. done.
  - rewrite S0, S1, S2, N2, Hb0, Hb1. rewrite Z.eqb_refl. done.
  - rewrite S0, S1, Hb0. rewrite Z.eqb_refl. done.
Qed.

Lemma decodeBase64_encodeGroups (n : nat) :
  forall data, (length data <= n)%nat -> Forall isByte data ->
    decodeBase64 (encodeGroups data) = data.
Proof.
  assert (Hz : isByte 0) by (unfold isByte; lia).
  induction n as [n IH] using lt_wf_ind. intros data Hlen Hbytes.
  destruct data as [|b0 [|b1 [|b2 rest]]]; [done| | |].
  - inversion Hbytes as [|? ? H0 _]; subst. cbn [encodeGroups].
    rewrite <- (app_nil_r (encodeGroup b0 0 0 1)).
    rewrite decodeBase64_group; [done | done | done | done |]. right. by right.
  - inversion Hbytes as [|? ? H0 Hr]; subst.
    inversion Hr as [|? ? H1 _]; subst. cbn [encodeGroups].
    rewrite <- (app_nil_r (encodeGroup b0 b1 0 2)).
    rewrite decodeBase64_group; [done | done | done | done |]. right. by left.
  - inversion Hbytes as [|? ? H0 Hr]; subst.
    inversion Hr as [|? ? H1 Hr']; subst.
    inversion Hr' as [|? ? H2 Hrest]; subst. cbn [encodeGroups].
    rewrite decodeBase64_group; [|done|done|done|by left].
    cbn [take app]. rewrite (IH (length rest)); [done | | lia | done].
    simpl in Hlen. lia.
Qed.

(** X9: the base64 text determines the bytes: decoding it (RFC 4648,
    with padding) gives the bytes back, so two different byte sequences
    never have the same encoding. *)
Theorem encodeBase64_round_trip (data : list Z) :
  Forall isByte data ->
  decodeBase64 (encodeBase64 data) = data
  /\ (forall data', Forall isByte data' ->
        encodeBase64 data' = encodeBase64 data -> data' = data).
Proof.
  intros Hbytes.
  assert (Hrt : forall d, Forall isByte d -> decodeBase64 (encodeBase64 d) = d).
  { intros d Hd. rewrite encodeBase64_groups.
    by apply (decodeBase64_encodeGroups (length d)). }
  split; [by apply Hrt|]. intros data' Hbytes' Heq.
  rewrite <- (Hrt data' Hbytes'), Heq. by apply Hrt.
Qed.

Lemma encodeBase64_round_trip_witness :
  decodeBase64 (encodeBase64 (bytesOf "RIFF$")) = bytesOf "RIFF$".
Proof.
  refine (proj1 (encodeBase64_round_trip (bytesOf "RIFF$") _)).
  change (bytesOf "RIFF$") with [82; 73; 70; 70; 36].
  repeat (apply Forall_cons; split; [unfold isByte; lia|]).
  by apply Forall_nil.
Defined.

(** The text that the loop computes for a few inputs (RFC 4648, section
    10). *)
Example encodeBase64_rfc4648 :
  encodeBase64 (bytesOf "f") = bytesOf "Zg=="
  /\ encodeBase64 (bytesOf "fo") = bytesOf "Zm8="
  /\ encodeBase64 (bytesOf "foobar") = bytesOf "Zm9vYmFy".
Proof. vm_compute. done. Qed.

(** ** Reading a WAV header *)

Lemma Uint16_le16 (x : Z) : 0 <= x < 2 ^ 16 -> Uint16 (le16 x) = x.
Proof.
  intros Hx. unfold Uint16, le16. cbn [nth].
  rewrite Z.lor_comm. rewrite lor_disjoint by (try lia; apply Z.mod_pos_bound; lia).
  change (2 ^ 16) with 65536 in Hx. change (2 ^ 8) with 256.
  Z.div_mod_to_equations. lia.
Qed.

Lemma Uint32_le32 (x : Z) : 0 <= x < 2 ^ 32 -> Uint32 (le32 x) = x.
Proof.
  intros Hx. unfold Uint32, le32. cbn [nth].
  change (2 ^ 32) with 4294967296 in Hx.
  assert (H1 : Z.lor (x mod 256) (Z.shiftl (x / 256 mod 256) 8) = x mod 65536).
  { rewrite Z.lor_comm.
    rewrite lor_disjoint by (try lia; apply Z.mod_pos_bound; lia).
    change (2 ^ 8) with 256. Z.div_mod_to_equations. lia. }
  assert (H2 : Z.lor (x mod 65536) (Z.shiftl (x / 65536 mod 256) 16)
               = x mod 16777216).
  { rewrite Z.lor_comm.
    rewrite lor_disjoint by (try lia; apply Z.mod_pos_bound; lia).
    change (2 ^ 16) with 65536. Z.div_mod_to_equations. lia. }
  rewrite H1, H2. rewrite Z.lor_comm.
  rewrite lor_disjoint by (try lia; apply Z.mod_pos_bound; lia).
  change (2 ^ 24) with 16777216. Z.div_mod_to_equations. lia.
Qed.

Lemma ReadFull_at (before bytes after : list Z) (n : nat) :
  length bytes = n -> n <> 0%nat ->
  ReadFull (before ++ bytes ++ after) (length before) n = inl bytes.
Proof.
  intros Hlen Hn. unfold ReadFull.
  replace (n =? 0)%nat with false by (symmetry; by apply Nat.eqb_neq).
  replace (length before + n <=? length (before ++ bytes ++ after))%nat with true
    by (symmetry; apply Nat.leb_le; rewrite !length_app; lia).
  rewrite drop_app_length. rewrite <- Hlen. by rewrite take_app_length.
Qed.

Lemma findFmtChunk_more_fuel (fuel extra : nat) (data : list Z) (pos : nat)
    (o : outcome WAVHeader) :
  findFmtChunk fuel data pos = Some o ->
  findFmtChunk (fuel + extra) data pos = Some o.
Proof.
  revert pos. induction fuel as [|fuel IH]; intros pos H; [done|].
  cbn [findFmtChunk Nat.add] in *.
  destruct (ReadFull data pos 8) as [chunkHeader|e]; [|done].
  destruct (bool_decide _); [done|]. by apply IH.
Qed.

(** The loop ends: every iteration that goes on has read eight bytes. *)
Lemma findFmtChunk_total (fuel : nat) (data : list Z) (pos : nat) :
  (length data - pos < 8 * fuel)%nat ->
  exists o, findFmtChunk fuel data pos = Some o.
Proof.
  revert pos. induction fuel as [|fuel IH]; intros pos Hfuel.
  - exfalso. lia.
  - cbn [findFmtChunk]. unfold ReadFull at 1. cbn [Nat.eqb].
    destruct (pos + 8 <=? length data)%nat eqn:E.
    + apply Nat.leb_le in E.
      destruct (bool_decide _).
      * destruct (ReadFull _ _ _); [destruct (_ <? _)|]; eauto.
      * apply IH. lia.
    + destruct (length data <=? pos)%nat; eauto.
Qed.

Lemma findFmtChunk_skips (chunks : list (list Z * list Z)) :
  forall (before fmtChunk : list Z) (o : outcome WAVHeader),
    Forall otherChunk chunks ->
    findFmtChunk 1 (before ++ concat (map chunkBytes chunks) ++ fmtChunk)
      (length (before ++ concat (map chunkBytes chunks))) = Some o ->
    findFmtChunk (S (length chunks))
      (before ++ concat (map chunkBytes chunks) ++ fmtChunk) (length before)
    = Some o.
Proof.
  induction chunks as [|[id payload] chunks IH];
    intros before fmtChunk o Hall Hfmt.
  - simpl in *. by rewrite app_nil_r in Hfmt.
  - inversion Hall as [|? ? (Hid & Hne & Hsize) Hrest]; subst.
    cbn [fst snd] in *. cbn [map concat length] in *.
    change (chunkBytes (id, payload))
      with (id ++ le32 (Z.of_nat (length payload)) ++ payload) in *.
    assert (Hsz : length (le32 (Z.of_nat (length payload))) = 4%nat) by done.
    pose proof (Uint32_le32 (Z.of_nat (length payload)) ltac:(lia)) as Hu.
    set (sz := le32 (Z.of_nat (length payload))) in *. clearbody sz.
    repeat rewrite <- app_assoc in Hfmt. repeat rewrite <- app_assoc.
    cbn [findFmtChunk].
    assert (Hread : ReadFull
                      (before ++ id ++ sz ++ payload
                       ++ concat (map chunkBytes chunks) ++ fmtChunk)
                      (length before) 8 = inl (id ++ sz)).
    { rewrite (app_assoc id sz).
      apply ReadFull_at; [rewrite length_app; lia | done]. }
    rewrite Hread.
    rewrite take_app_length' by done.
    rewrite drop_app_length' by done.
    rewrite bool_decide_eq_false_2 by done.
    rewrite Hu. rewrite Nat2Z.id.
    specialize (IH (before ++ id ++ sz ++ payload) fmtChunk o Hrest).
    repeat rewrite <- app_assoc in IH.
    replace (length before + 8 + length payload)%nat
      with (length (before ++ id ++ sz ++ payload))
      by (rewrite !length_app; lia).
    apply IH. exact Hfmt.
Qed.

Lemma chunks_length (chunks : list (list Z * list Z)) :
  (length chunks <= length (concat (map chunkBytes chunks)))%nat.
Proof.
  induction chunks as [|[id payload] chunks IH]; [done|].
  cbn [map concat length]. rewrite length_app. unfold chunkBytes at 1.
  cbn [fst snd]. rewrite !length_app. cbn [le32 length]. lia.
Qed.

Lemma slice_at (before mid after : list Z) (n k : nat) :
  length before = n -> length mid = k ->
  take k (drop n (before ++ mid ++ after)) = mid.
Proof.
  intros <- <-. rewrite drop_app_length. by rewrite take_app_length.
Qed.

(** The bytes of a file that starts with the RIFF/WAVE magic, goes on
    with chunks other than fmt, and then has a fmt chunk with the given
    payload. *)
Lemma readWAVHeader_fmt (riffSize : list Z) (chunks : list (list Z * list Z))
    (fmtData rest : list Z) (o : outcome WAVHeader) :
  length riffSize = 4%nat ->
  Forall otherChunk chunks ->
  Z.of_nat (length fmtData) < 2 ^ 32 ->
  o = (if Z.of_nat (length fmtData) <? 16 then Panicked
       else Returned
              {| NumChannels := Uint16 (take 2 (drop 2 fmtData));
                 SampleRate := Uint32 (take 4 (drop 4 fmtData));
                 BitsPerSample := Uint16 (take 2 (drop 14 fmtData)) |}) ->
  readWAVHeader
    (bytesOf "RIFF" ++ riffSize ++ bytesOf "WAVE"
     ++ concat (map chunkBytes chunks)
     ++ bytesOf "fmt " ++ le32 (Z.of_nat (length fmtData)) ++ fmtData ++ rest)
  = Some o.
Proof.
  intros Hriff Hchunks Hsize Ho.
  assert (Hsz : length (le32 (Z.of_nat (length fmtData))) = 4%nat) by done.
  pose proof (Uint32_le32 (Z.of_nat (length fmtData)) ltac:(lia)) as Hu.
  set (sz := le32 (Z.of_nat (length fmtData))) in *. clearbody sz.
  assert (HR : length (bytesOf "RIFF") = 4%nat) by done.
  assert (HW : length (bytesOf "WAVE") = 4%nat) by done.
  assert (HF : length (bytesOf "fmt ") = 4%nat) by done.
  set (riff := bytesOf "RIFF") in *. set (wave := bytesOf "WAVE") in *.
  set (fmt := bytesOf "fmt ") in *.
  set (body := concat (map chunkBytes chunks)).
  set (data := riff ++ riffSize ++ wave ++ body ++ fmt ++ sz ++ fmtData ++ rest).
  unfold readWAVHeader.
  assert (Hhead : ReadFull data 0 12 = inl (riff ++ riffSize ++ wave)).
  { unfold data.
    replace (riff ++ riffSize ++ wave ++ body ++ fmt ++ sz ++ fmtData ++ rest)
      with ([] ++ (riff ++ riffSize ++ wave)
            ++ (body ++ fmt ++ sz ++ fmtData ++ rest))
      by (by rewrite <- !app_assoc).
    apply (ReadFull_at []); [rewrite !length_app; lia | done]. }
  rewrite Hhead.
  rewrite take_app_length' by done.
  replace (drop 8 (riff ++ riffSize ++ wave)) with wave
    by (rewrite app_assoc; rewrite drop_app_length'; [done|];
        rewrite length_app; lia).
  rewrite (take_ge wave) by lia.
  rewrite !bool_decide_eq_true_2 by done. cbn [negb orb].
  assert (Hcl : (length chunks <= length data)%nat).
  { pose proof (chunks_length chunks) as Hcl. fold body in Hcl.
    unfold data. rewrite !length_app. lia. }
  replace (S (length data))
    with (S (length chunks) + (length data - length chunks))%nat by lia.
  apply findFmtChunk_more_fuel.
  replace 12%nat with (length (riff ++ riffSize ++ wave))
    by (rewrite !length_app; lia).
  unfold data.
  replace (riff ++ riffSize ++ wave ++ body ++ fmt ++ sz ++ fmtData ++ rest)
    with ((riff ++ riffSize ++ wave) ++ body ++ (fmt ++ sz ++ fmtData ++ rest))
    by (by rewrite <- !app_assoc).
  apply findFmtChunk_skips; [done|].
  cbn [findFmtChunk]. fold body.
  set (before := (riff ++ riffSize ++ wave) ++ body).
  replace ((riff ++ riffSize ++ wave) ++ body ++ fmt ++ sz ++ fmtData ++ rest)
    with (before ++ (fmt ++ sz) ++ (fmtData ++ rest))
    by (unfold before; by rewrite <- !app_assoc).
  rewrite ReadFull_at by (rewrite ?length_app; done || lia).
  rewrite take_app_length' by done. rewrite drop_app_length' by done.
  unfold fmt at 1. rewrite bool_decide_eq_true_2 by done.
  rewrite Hu, Nat2Z.id.
  assert (Hdata : ReadFull (before ++ (fmt ++ sz) ++ fmtData ++ rest)
                    (length before + 8) (length fmtData) = inl fmtData).
  { destruct (decide (length fmtData = 0%nat)) as [Hz|Hnz].
    - unfold ReadFull. rewrite Hz. cbn [Nat.eqb].
      by destruct fmtData.
    - replace (before ++ (fmt ++ sz) ++ fmtData ++ rest)
        with ((before ++ fmt ++ sz) ++ fmtData ++ rest)
        by (by rewrite <- !app_assoc).
      replace (length before + 8)%nat with (length (before ++ fmt ++ sz))
        by (rewrite !length_app; lia).
      by apply ReadFull_at. }
  rewrite Hdata. rewrite Ho. by destruct (_ <? _).
Qed.

(** X10: of a file that starts with "RIFF", four bytes and "WAVE",
    continues with any chunks other than fmt and then has a fmt chunk of
    at least 16 bytes, [readWAVHeader] returns the channel count at
    bytes 2-3, the sample rate at bytes 4-7 and the bits per sample at
    bytes 14-15 of the chunk, read as little-endian numbers; the chunks
    before it are skipped by their declared size. *)
Theorem readWAVHeader_parses (riffSize : list Z)
    (chunks : list (list Z * list Z))
    (tag byteRate blockAlign extra rest : list Z) (channels rate bits : Z) :
  length riffSize = 4%nat ->
  Forall otherChunk chunks ->
  length tag = 2%nat -> length byteRate = 4%nat -> length blockAlign = 2%nat ->
  0 <= channels < 2 ^ 16 -> 0 <= rate < 2 ^ 32 -> 0 <= bits < 2 ^ 16 ->
  Z.of_nat (length extra) < 2 ^ 32 - 16 ->
  let fmtData :=
    tag ++ le16 channels ++ le32 rate ++ byteRate ++ blockAlign ++ le16 bits
    ++ extra in
  readWAVHeader
    (bytesOf "RIFF" ++ riffSize ++ bytesOf "WAVE"
     ++ concat (map chunkBytes chunks)
     ++ bytesOf "fmt " ++ le32 (Z.of_nat (length fmtData)) ++ fmtData ++ rest)
  = Some (Returned {| SampleRate := rate; NumChannels := channels;
                      BitsPerSample := bits |}).
Proof.
  intros Hriff Hchunks Htag Hbr Hba Hc Hr Hb Hextra fmtData.
  assert (Hlen : length fmtData = (16 + length extra)%nat).
  { unfold fmtData. rewrite !length_app. cbn [le16 le32 length]. lia. }
  apply readWAVHeader_fmt; [done | done | lia |].
  replace (Z.of_nat (length fmtData) <? 16) with false
    by (symmetry; apply Z.ltb_ge; lia).
  pose proof (Uint16_le16 channels Hc) as Uc.
  pose proof (Uint32_le32 rate Hr) as Ur.
  pose proof (Uint16_le16 bits Hb) as Ub.
  assert (Lc : length (le16 channels) = 2%nat) by done.
  assert (Lr : length (le32 rate) = 4%nat) by done.
  assert (Lb : length (le16 bits) = 2%nat) by done.
  unfold fmtData.
  set (c := le16 channels) in *. set (r := le32 rate) in *.
  set (b := le16 bits) in *. clearbody c r b.
  rewrite (slice_at tag c _ 2 2) by done.
  replace (tag ++ c ++ r ++ byteRate ++ blockAlign ++ b ++ extra)
    with ((tag ++ c) ++ r ++ (byteRate ++ blockAlign ++ b ++ extra))
    by (by rewrite <- !app_assoc).
  rewrite (slice_at (tag ++ c) r _ 4 4) by (rewrite ?length_app; done || lia).
  replace ((tag ++ c) ++ r ++ byteRate ++ blockAlign ++ b ++ extra)
    with ((tag ++ c ++ r ++ byteRate ++ blockAlign) ++ b ++ extra)
    by (by rewrite <- !app_assoc).
  rewrite (slice_at _ b _ 14 2) by (rewrite ?length_app; done || lia).
  by rewrite Uc, Ur, Ub.
Qed.

Lemma readWAVHeader_parses_witness :
  readWAVHeader
    (bytesOf "RIFF" ++ [36; 0; 0; 0] ++ bytesOf "WAVE"
     ++ concat (map chunkBytes [(bytesOf "LIST", [1; 2; 3])])
     ++ bytesOf "fmt "
     ++ le32 (Z.of_nat (length ([1; 0] ++ le16 1 ++ le32 22050 ++ [68; 172; 0; 0]
                                ++ [2; 0] ++ le16 16 ++ [])))
     ++ ([1; 0] ++ le16 1 ++ le32 22050 ++ [68; 172; 0; 0] ++ [2; 0] ++ le16 16 ++ [])
     ++ bytesOf "data")
  = Some (Returned hdr22050).
Proof.
  apply (readWAVHeader_parses [36; 0; 0; 0] [(bytesOf "LIST", [1; 2; 3])]
           [1; 0] [68; 172; 0; 0] [2; 0] [] (bytesOf "data") 1 22050 16).
  - reflexivity.
  - apply Forall_cons. split; [|by apply Forall_nil].
    split; [reflexivity|]. split; [discriminate | reflexivity].
  - reflexivity.
  - reflexivity.
  - reflexivity.
  - split; [discriminate | reflexivity].
  - split; [discriminate | reflexivity].
  - split; [discriminate | reflexivity].
  - reflexivity.
Defined.

(** X11: a fmt chunk that declares fewer than 16 bytes and is there in
    full makes [readWAVHeader] panic on a slice out of range, instead of
    returning an error. *)
Theorem readWAVHeader_short_fmt_panics (riffSize : list Z)
    (chunks : list (list Z * list Z)) (fmtData rest : list Z) :
  length riffSize = 4%nat ->
  Forall otherChunk chunks ->
  (length fmtData < 16)%nat ->
  readWAVHeader
    (bytesOf "RIFF" ++ riffSize ++ bytesOf "WAVE"
     ++ concat (map chunkBytes chunks)
     ++ bytesOf "fmt " ++ le32 (Z.of_nat (length fmtData)) ++ fmtData ++ rest)
  = Some Panicked.
Proof.
  intros Hriff Hchunks Hshort.
  apply readWAVHeader_fmt; [done | done | lia |].
  replace (Z.of_nat (length fmtData) <? 16) with true
    by (symmetry; apply Z.ltb_lt; lia).
  done.
Qed.

Lemma readWAVHeader_short_fmt_panics_witness :
  readWAVHeader
    (bytesOf "RIFF" ++ [20; 0; 0; 0] ++ bytesOf "WAVE"
     ++ concat (map chunkBytes [])
     ++ bytesOf "fmt " ++ le32 (Z.of_nat (length [1; 0; 1; 0])) ++ [1; 0; 1; 0]
     ++ [])
  = Some Panicked.
Proof.
  apply (readWAVHeader_short_fmt_panics [20; 0; 0; 0] [] [1; 0; 1; 0] []).
  - reflexivity.
  - constructor.
  - simpl. lia.
Defined.

(** X12: [readWAVHeader] always comes back, whatever the bytes; a file
    shorter than 12 bytes gives an error, and so does a file that does
    not start with "RIFF" or has no "WAVE" at bytes 8-11 ("not a valid
    WAV file"). *)
Theorem readWAVHeader_total (data : list Z) :
  (exists o, readWAVHeader data = Some o)
  /\ ((length data < 12)%nat -> exists err, readWAVHeader data = Some (Failed err))
  /\ ((12 <= length data)%nat ->
      take 4 data <> bytesOf "RIFF" \/ take 4 (drop 8 data) <> bytesOf "WAVE" ->
      readWAVHeader data = Some (Failed "not a valid WAV file")).
Proof.
  unfold readWAVHeader, ReadFull. cbn [Nat.eqb Nat.add].
  destruct (12 <=? length data)%nat eqn:E.
  - apply Nat.leb_le in E. rewrite drop_0.
    rewrite take_take. change (4 `min` 12)%nat with 4%nat.
    assert (Hw : take 4 (drop 8 (take 12 data)) = take 4 (drop 8 data)).
    { change 12%nat with (8 + 4)%nat.
      rewrite <- (take_drop_commute data 4 8). by rewrite take_take. }
    rewrite Hw.
    split; [|split; [lia|]].
    + destruct (negb _ || negb _); [eauto|].
      apply findFmtChunk_total. lia.
    + intros _ [H|H].
      * by rewrite (bool_decide_eq_false_2 _ H).
      * rewrite (bool_decide_eq_false_2 (_ (drop 8 data) = _) H).
        by rewrite orb_true_r.
  - apply Nat.leb_gt in E.
    split; [|split; [|lia]]; destruct (length data <=? 0)%nat; eauto.
Qed.
(** ** What a match consumes *)

Lemma group_capsOk (Q : rune -> Prop) (c : caps) (n : nat) :
  capsOk Q c -> Forall Q (group n c).
Proof.
  induction 1 as [|[m s] c Hs _ IH]; cbn [group]; [constructor|].
  by destruct (m =? n)%nat.
Qed.

Lemma between_app (before k after before' : list rune) :
  between (before, k ++ after) (before', after) = k.
Proof.
  unfold between. cbn [snd]. rewrite length_app.
  replace (length k + length after - length after)%nat with (length k) by lia.
  by rewrite take_app_length.
Qed.

Section RunSpec.
Variable Q : rune -> Prop.

Lemma star_loop_spec (a : re) (greedy : bool) :
  (forall p c p' c', Forall Q p.2 -> capsOk Q c ->
                     In (p', c') (run a p c) -> consumed Q a p p' c') ->
  forall fuel p c p' c',
    Forall Q p.2 -> capsOk Q c ->
    In (p', c') (star_loop (run a) greedy fuel p c) ->
    consumed Q (Star greedy a) p p' c'.
Proof.
  intros Hstep. induction fuel as [|fuel IH]; intros p c p' c' Hp Hc Hin.
  - simpl in Hin. destruct Hin as [Heq|[]]. inversion Heq; subst.
    exists []. by repeat split.
  - cbn [star_loop] in Hin.
    assert (Hmore : forall q d,
               In (q, d)
                  (flat_map (fun pc : pos * caps =>
                               if (length pc.1.2 <? length p.2)%nat
                               then star_loop (run a) greedy fuel pc.1 pc.2
                               else []) (run a p c)) ->
               consumed Q (Star greedy a) p q d).
    { intros q d Hq. apply in_flat_map in Hq as ([m mc] & Hm & Hq).
      cbn [fst snd] in Hq. destruct (_ <? _)%nat; [|done].
      destruct (Hstep _ _ _ _ Hp Hc Hm) as (k1 & E1 & A1 & C1).
      cbn [fst snd] in *.
      assert (Hm2 : Forall Q m.2).
      { rewrite E1 in Hp. by apply Forall_app in Hp as [_ ?]. }
      destruct (IH _ _ _ _ Hm2 C1 Hq) as (k2 & E2 & A2 & C2).
      exists (k1 ++ k2). split; [|split; [|done]].
      - rewrite E1, E2. by rewrite app_assoc.
      - apply Forall_app. by split. }
    assert (Hzero : consumed Q (Star greedy a) p p c).
    { exists []. by repeat split. }
    destruct greedy.
    + apply in_app_or in Hin as [Hin|Hin]; [by apply Hmore|].
      destruct Hin as [Heq|[]]. by inversion Heq; subst.
    + destruct Hin as [Heq|Hin]; [by inversion Heq; subst | by apply Hmore].
Qed.

Lemma run_spec (r : re) :
  forall p c p' c',
    Forall Q p.2 -> capsOk Q c -> In (p', c') (run r p c) -> consumed Q r p p' c'.
Proof.
  induction r as [f| |a IHa b IHb|a IHa b IHb|greedy a IHa|n a IHa| |];
    intros p c p' c' Hp Hc Hin; cbn [run] in Hin.
  - destruct p as [before [|x s]]; cbn [fst snd] in *; [done|].
    destruct (f x) eqn:E; [|done]. destruct Hin as [Heq|[]].
    inversion Heq; subst. exists [x]. cbn [fst snd accepts].
    split; [done|]. split; [|done]. by constructor.
  - destruct Hin as [Heq|[]]. inversion Heq; subst. exists []. by repeat split.
  - apply in_flat_map in Hin as ([m mc] & Hm & Hin). cbn [fst snd] in Hin.
    destruct (IHa _ _ _ _ Hp Hc Hm) as (k1 & E1 & A1 & C1). cbn [fst snd] in *.
    assert (Hm2 : Forall Q m.2).
    { rewrite E1 in Hp. by apply Forall_app in Hp as [_ ?]. }
    destruct (IHb _ _ _ _ Hm2 C1 Hin) as (k2 & E2 & A2 & C2).
    exists (k1 ++ k2). split; [|split; [|done]].
    + rewrite E1, E2. by rewrite app_assoc.
    + apply Forall_app. split.
      * eapply Forall_impl; [exact A1|]. intros x Hx. cbn [accepts].
        by rewrite Hx.
      * eapply Forall_impl; [exact A2|]. intros x Hx. cbn [accepts].
        rewrite Hx. by rewrite orb_true_r.
  - apply in_app_or in Hin as [Hin|Hin].
    + destruct (IHa _ _ _ _ Hp Hc Hin) as (k & E & A & C).
      exists k. split; [done|]. split; [|done].
      eapply Forall_impl; [exact A|]. intros x Hx. cbn [accepts]. by rewrite Hx.
    + destruct (IHb _ _ _ _ Hp Hc Hin) as (k & E & A & C).
      exists k. split; [done|]. split; [|done].
      eapply Forall_impl; [exact A|]. intros x Hx. cbn [accepts].
      rewrite Hx. by rewrite orb_true_r.
  - by eapply (star_loop_spec a greedy IHa).
  - apply in_map_iff in Hin as ([m mc] & Heq & Hm).
    inversion Heq; subst. cbn [fst snd] in *.
    destruct (IHa _ _ _ _ Hp Hc Hm) as (k & E & A & C). cbn [fst snd] in *.
    exists k. split; [done|]. split; [done|].
    constructor; [|done]. cbn [snd].
    destruct p as [before text]. destruct p' as [before' text'].
    cbn [fst snd] in *. subst text. rewrite between_app.
    by apply Forall_app in Hp as [? _].
  - destruct (xorb _ _); [|done]. destruct Hin as [Heq|[]].
    inversion Heq; subst. exists []. by repeat split.
  - destruct p as [before [|x s]]; cbn [fst snd] in *; [|done].
    destruct Hin as [Heq|[]]. inversion Heq; subst. exists []. by repeat split.
Qed.

(** The match found at a position. *)
Lemma matchAt_spec (r : re) (p p' : pos) (c' : caps) :
  Forall Q p.2 ->
  matchAt r p = Some (p', c') ->
  exists k, p.2 = k ++ p'.2 /\ k <> []
            /\ between p p' = k
            /\ Forall (fun x => accepts r x = true) k
            /\ capsOk Q c'.
Proof.
  intros Hp H. unfold matchAt in H.
  destruct (run r p []) as [|[q d] l] eqn:E; [done|].
  destruct (_ <? _)%nat eqn:Hlt; [|done]. inversion H; subst.
  destruct (run_spec r p [] p' c' Hp) as (k & Ek & A & C).
  - constructor.
  - rewrite E. by left.
  - exists k. split; [done|]. apply Nat.ltb_lt in Hlt.
    split; [|split; [|done]].
    + intros ->. simpl in Ek. rewrite Ek in Hlt. lia.
    + destruct p as [b t]. destruct p' as [b' t']. cbn [fst snd] in *.
      subst t. apply between_app.
Qed.
End RunSpec.

(** ** What a replacement writes *)

Lemma replace_loop_Forall (Q : rune -> Prop) (r : re)
    (f : gostring -> caps -> gostring) :
  (forall m c, Forall Q m -> capsOk Q c -> Forall Q (f m c)) ->
  forall fuel before s,
    Forall Q s -> Forall Q (replace_loop fuel r f (before, s)).
Proof.
  intros Hf. induction fuel as [|fuel IH]; intros before s Hs; [done|].
  cbn [replace_loop].
  destruct (matchAt r (before, s)) as [[[before' s'] c]|] eqn:E.
  - destruct (matchAt_spec Q r (before, s) _ _ Hs E)
      as (k & Ek & _ & Eb & _ & Hc).
    cbn [fst snd] in *. rewrite Eb. subst s.
    apply Forall_app in Hs as [Hk Hs']. apply Forall_app. split.
    + by apply Hf.
    + by apply IH.
  - cbn [snd]. destruct s as [|x s]; [done|].
    inversion Hs; subst. constructor; [done|]. by apply IH.
Qed.

Lemma expand_Forall (Q : rune -> Prop) (t : list titem) (c : caps) :
  Forall (fun i => match i with TText s => Forall Q s | TGroup _ => True end) t ->
  capsOk Q c -> Forall Q (expand t c).
Proof.
  intros Ht Hc. unfold expand. induction Ht as [|i t Hi _ IH]; [constructor|].
  cbn [flat_map]. apply Forall_app. split; [|done].
  destruct i; [done | by apply group_capsOk].
Qed.

Lemma ReplaceAllString_Forall (Q : rune -> Prop) (r : re) (s : gostring)
    (t : list titem) :
  Forall (fun i => match i with TText s => Forall Q s | TGroup _ => True end) t ->
  Forall Q s -> Forall Q (ReplaceAllString r s t).
Proof.
  intros Ht Hs. unfold ReplaceAllString. apply replace_loop_Forall; [|done].
  intros m c _ Hc. by apply expand_Forall.
Qed.

Lemma ReplaceAllStringFunc_Forall (Q : rune -> Prop) (r : re) (s : gostring)
    (f : gostring -> gostring) :
  (forall m, Forall Q m -> Forall Q (f m)) ->
  Forall Q s -> Forall Q (ReplaceAllStringFunc r s f).
Proof.
  intros Hf Hs. unfold ReplaceAllStringFunc. apply replace_loop_Forall; [|done].
  intros m c Hm _. by apply Hf.
Qed.

Lemma ReplaceAll_Forall (Q : rune -> Prop) (s old new : gostring) :
  Forall Q new -> Forall Q s -> Forall Q (ReplaceAll s old new).
Proof.
  intros Hnew. unfold ReplaceAll. generalize (S (length s)). intros fuel.
  revert s. induction fuel as [|fuel IH]; intros s Hs; [done|].
  cbn [ReplaceAll_loop]. destruct s as [|c s]; [done|].
  destruct (HasPrefix (c :: s) old).
  - apply Forall_app. split; [done|]. apply IH. by apply Forall_drop.
  - inversion Hs; subst. constructor; [done|]. by apply IH.
Qed.

(** Replacing a rune removes it. *)
Lemma ReplaceAll_removes (x : rune) (s new : gostring) :
  Forall (fun y => y <> x) new ->
  Forall (fun y => y <> x) (ReplaceAll s [x] new).
Proof.
  intros Hnew. unfold ReplaceAll.
  assert (H : forall fuel s, (length s < fuel)%nat ->
             Forall (fun y => y <> x) (ReplaceAll_loop fuel s [x] new)).
  { induction fuel as [|fuel IH]; intros t Hfuel; [lia|].
    cbn [ReplaceAll_loop]. destruct t as [|c t]; [done|].
    assert (Hp : HasPrefix (c :: t) [x] = (c =? x)).
    { cbn [HasPrefix]. destruct t; by rewrite andb_true_r. }
    rewrite Hp. change (drop (length [x]) (c :: t)) with t.
    destruct (c =? x) eqn:E.
    - apply Forall_app. split; [done|]. apply IH. simpl in Hfuel. lia.
    - apply Z.eqb_neq in E. constructor; [done|]. apply IH.
      simpl in Hfuel. lia. }
  apply H. lia.
Qed.

Lemma dropWhile_Forall {A} (Q : A -> Prop) (f : A -> bool) (l : list A) :
  Forall Q l -> Forall Q (dropWhile f l).
Proof.
  induction 1 as [|x l Hx Hl IH]; cbn [dropWhile]; [constructor|].
  destruct (f x); [done | by constructor].
Qed.

Lemma TrimSpace_Forall (Q : rune -> Prop) (s : gostring) :
  Forall Q s -> Forall Q (TrimSpace s).
Proof.
  intros Hs. unfold TrimSpace. apply Forall_rev. apply dropWhile_Forall.
  apply Forall_rev. by apply dropWhile_Forall.
Qed.

Lemma TrimPrefix_Forall (Q : rune -> Prop) (s prefix : gostring) :
  Forall Q s -> Forall Q (TrimPrefix s prefix).
Proof.
  intros Hs. unfold TrimPrefix. destruct (HasPrefix s prefix); [|done].
  by apply Forall_drop.
Qed.

Lemma TrimSuffix_Forall (Q : rune -> Prop) (s suffix : gostring) :
  Forall Q s -> Forall Q (TrimSuffix s suffix).
Proof.
  intros Hs. unfold TrimSuffix. destruct (HasSuffix s suffix); [|done].
  by apply Forall_take.
Qed.

(** ** Trimmed texts *)

Lemma dropWhile_head {A} (f : A -> bool) (l : list A) (x : A) :
  head (dropWhile f l) = Some x -> f x = false.
Proof.
  induction l as [|y l IH]; cbn [dropWhile]; [done|].
  destruct (f y) eqn:E; [done|]. cbn [head]. intros H. by inversion H; subst.
Qed.

Lemma dropWhile_id {A} (f : A -> bool) (l : list A) :
  (forall x, head l = Some x -> f x = false) -> dropWhile f l = l.
Proof.
  destruct l as [|y l]; [done|]. intros H. cbn [dropWhile].
  by rewrite (H y eq_refl).
Qed.

Lemma dropWhile_last {A} (f : A -> bool) (l : list A) (x : A) :
  last (dropWhile f l) = Some x -> last l = Some x.
Proof.
  induction l as [|y l IH]; cbn [dropWhile]; [done|].
  destruct (f y); [|done]. intros H. specialize (IH H).
  destruct l; [done | done].
Qed.

Lemma head_rev {A} (l : list A) : head (rev l) = last l.
Proof.
  induction l as [|x l IH] using rev_ind; [done|].
  rewrite rev_app_distr. cbn [rev app head]. by rewrite last_snoc.
Qed.

Lemma last_rev {A} (l : list A) : last (rev l) = head l.
Proof. rewrite <- (rev_involutive l) at 2. by rewrite head_rev. Qed.

Lemma TrimSpace_isTrimmed (s : gostring) : isTrimmed (TrimSpace s).
Proof.
  unfold TrimSpace, isTrimmed. split; intros x Hx.
  - rewrite head_rev in Hx. apply dropWhile_last in Hx.
    rewrite last_rev in Hx. by apply dropWhile_head in Hx.
  - rewrite last_rev in Hx. by apply dropWhile_head in Hx.
Qed.

Lemma TrimSpace_trimmed (s : gostring) : isTrimmed s -> TrimSpace s = s.
Proof.
  intros [Hh Hl]. unfold TrimSpace.
  rewrite (dropWhile_id IsSpace s) by done.
  rewrite dropWhile_id; [apply rev_involutive|].
  intros x Hx. rewrite head_rev in Hx. by apply Hl.
Qed.

Lemma TrimSpace_idempotent (s : gostring) :
  TrimSpace (TrimSpace s) = TrimSpace s.
Proof. apply TrimSpace_trimmed, TrimSpace_isTrimmed. Qed.

(** ** The sentences of the scan *)

Lemma scanStep_sentences (P : gostring -> Prop) (up : rune -> bool)
    (runes : list rune) (i : nat) (st : list gostring * gostring) :
  (forall s, 3 < len (TrimSpace s) -> P (TrimSpace s)) ->
  Forall P st.1 -> Forall P (scanStep up runes i st).1.
Proof.
  intros HP Hst. destruct st as [sentences cur]. unfold scanStep.
  destruct (runes !! i) as [c|]; [|done].
  assert (Hclose : Forall P
            (if 3 <? len (TrimSpace (cur ++ [c]))
             then sentences ++ [TrimSpace (cur ++ [c])] else sentences)).
  { destruct (3 <? _) eqn:E; [|done]. apply Z.ltb_lt in E.
    apply Forall_app. split; [done|]. constructor; [by apply HP | constructor]. }
  destruct (isMark c); [|done].
  destruct (_ <? _)%nat; [|done].
  destruct (runes !! _) as [next|]; [|done].
  by destruct (_ || _).
Qed.

(** X13: every sentence that the character scan extracts is longer than
    3 bytes and neither begins nor ends with white space. *)
Theorem scanSentences_trimmed (isExcludingLatinUpper : rune -> bool)
    (runes : list rune) :
  Forall (fun s => 3 < len s /\ isTrimmed s)
         (scanSentences isExcludingLatinUpper runes).
Proof.
  set (P := fun s : gostring => 3 < len s /\ isTrimmed s).
  assert (HP : forall s, 3 < len (TrimSpace s) -> P (TrimSpace s)).
  { intros s Hs. split; [done | apply TrimSpace_isTrimmed]. }
  assert (Hloop : forall l st,
             Forall P st.1 ->
             Forall P (foldl (fun st i => scanStep isExcludingLatinUpper runes i st)
                             st l).1).
  { induction l as [|i l IH]; intros st Hst; [done|].
    cbn [foldl]. apply IH. by apply scanStep_sentences. }
  unfold scanSentences, scanLoop.
  specialize (Hloop (seq 0 (length runes)) ([], []) ltac:(constructor)).
  destruct (foldl _ _ _) as [sentences cur]. cbn [fst] in Hloop.
  destruct (3 <? _) eqn:E; [|done]. apply Z.ltb_lt in E.
  apply Forall_app. split; [done|]. constructor; [by apply HP | constructor].
Qed.

(** ** The text kept by the merge *)

Lemma Join_cons (a : gostring) (rest : list gostring) (sep : gostring) :
  rest <> [] -> Join (a :: rest) sep = a ++ sep ++ Join rest sep.
Proof. by destruct rest. Qed.

Lemma Join_adjacent (before : list gostring) (x y : gostring)
    (after : list gostring) (sep : gostring) :
  Join (before ++ (x ++ sep ++ y) :: after) sep
  = Join (before ++ x :: y :: after) sep.
Proof.
  induction before as [|h before IH].
  - cbn [app]. destruct after as [|z after].
    + done.
    + rewrite (Join_cons _ (z :: after)) by done.
      rewrite (Join_cons x) by done. rewrite (Join_cons y) by done.
      by rewrite <- !app_assoc.
  - cbn [app]. rewrite !Join_cons by (by destruct before). by rewrite IH.
Qed.

Lemma mergeSpec_Join (n : nat) :
  forall sentences output,
    (length sentences <= n)%nat ->
    Join (mergeSpec output sentences) (G " ") = Join (output ++ sentences) (G " ")
    /\ (length (mergeSpec output sentences) <= length output + length sentences)%nat
    /\ (output ++ sentences <> [] -> mergeSpec output sentences <> []).
Proof.
  induction n as [n IH] using lt_wf_ind. intros sentences output Hlen.
  destruct sentences as [|sentence rest].
  { cbn [mergeSpec]. rewrite app_nil_r. repeat split; [lia | done]. }
  cbn [mergeSpec length] in *.
  destruct (isShort sentence).
  - destruct output as [|o output'] eqn:Eo.
    + destruct rest as [|next rest'].
      * repeat split; [simpl; lia | done].
      * destruct (IH (length rest') ltac:(simpl in Hlen; lia) rest'
                    [sentence ++ G " " ++ next] ltac:(lia)) as (HJ & HL & HN).
        split; [|split].
        -- rewrite HJ. apply (Join_adjacent [] sentence next rest').
        -- simpl in *. lia.
        -- intros _. by apply HN.
    + rewrite <- Eo.
      assert (Hne : output <> []) by (by subst).
      destruct output as [|m before _] using rev_ind; [done|].
      rewrite appendToPrevious_snoc.
      destruct (IH (length rest) ltac:(lia) rest
                  (before ++ [m ++ G " " ++ sentence]) ltac:(lia))
        as (HJ & HL & HN).
      split; [|split].
      * rewrite HJ. rewrite <- !app_assoc. cbn [app].
        apply Join_adjacent.
      * rewrite !length_app in *. simpl in *. lia.
      * intros _. apply HN. by destruct before.
  - destruct (IH (length rest) ltac:(lia) rest (output ++ [sentence]) ltac:(lia))
      as (HJ & HL & HN).
    split; [|split].
    + rewrite HJ. by rewrite <- app_assoc.
    + rewrite length_app in HL. simpl in HL. lia.
    + intros _. apply HN. by destruct output.
Qed.

(** X14: the merge of short fragments loses no text: the merged
    sentences joined by single spaces are the input sentences joined by
    single spaces; the merge never returns more sentences than it was
    given, and returns at least one when it was given one. *)
Theorem mergeShortFragments_keeps_text (sentences : list gostring) :
  Join (mergeShortFragments sentences) (G " ") = Join sentences (G " ")
  /\ (length (mergeShortFragments sentences) <= length sentences)%nat
  /\ (sentences <> [] -> mergeShortFragments sentences <> []).
Proof.
  unfold mergeShortFragments. rewrite mergeLoop_mergeSpec by lia.
  rewrite drop_0.
  by destruct (mergeSpec_Join (length sentences) sentences [] ltac:(lia)).
Qed.

(** ** The ends of a replaced text *)

Lemma last_app_cases {A} (l1 l2 : list A) :
  last (l1 ++ l2) = match last l2 with Some y => Some y | None => last l1 end.
Proof.
  destruct l2 as [|y l2] using rev_ind.
  - by rewrite app_nil_r.
  - rewrite app_assoc. by rewrite !last_snoc.
Qed.

Lemma last_None_nil {A} (l : list A) : last l = None -> l = [].
Proof.
  destruct l as [|y l] using rev_ind; [done|]. by rewrite last_snoc.
Qed.

(** When every replacement ends like the match it replaces, the text
    ends as it did. *)
Lemma replace_loop_last (r : re) (f : gostring -> caps -> gostring) :
  (forall m c, m <> [] -> Forall (fun x => accepts r x = true) m ->
               last (f m c) = last m) ->
  forall fuel before s, last (replace_loop fuel r f (before, s)) = last s.
Proof.
  intros Hf. induction fuel as [|fuel IH]; intros before s; [done|].
  cbn [replace_loop].
  destruct (matchAt r (before, s)) as [[[before' s'] c]|] eqn:E.
  - destruct (matchAt_spec (fun _ => True) r (before, s) _ _
                ltac:(by apply Forall_true) E)
      as (k & Ek & Hne & Eb & Hacc & _).
    cbn [fst snd] in *. rewrite Eb. subst s.
    rewrite !last_app_cases. rewrite IH.
    destruct (last s'); [done|]. by apply Hf.
  - cbn [snd]. destruct s as [|x s]; [done|].
    rewrite !last_cons. by rewrite IH.
Qed.

Lemma last_all (v : rune) (m : gostring) :
  m <> [] -> Forall (fun x => x = v) m -> last m = Some v.
Proof.
  intros Hne Hall. destruct m as [|y m _] using rev_ind; [done|].
  rewrite last_snoc. apply Forall_app in Hall as [_ Hy].
  inversion Hy; by subst.
Qed.

(** The rule that turns a run of a mark into one mark. *)
Lemma dedupe_last (v : rune) (s : gostring) :
  last (ReplaceAllString
          (Cat (Class (Z.eqb v)) (Cat (Class (Z.eqb v)) (Star true (Class (Z.eqb v)))))
          s [TText [v]])
  = last s.
Proof.
  unfold ReplaceAllString. apply replace_loop_last. intros m c Hne Hacc.
  cbn [expand flat_map app last].
  symmetry. apply last_all; [done|].
  eapply Forall_impl; [exact Hacc|]. intros x Hx. cbn [accepts] in Hx.
  destruct (v =? x) eqn:E; [|done]. apply Z.eqb_eq in E. by subst.
Qed.

Lemma replace_loop_nonempty (r : re) (f : gostring -> caps -> gostring) :
  (forall m c, f m c <> []) ->
  forall fuel before s, s <> [] -> replace_loop fuel r f (before, s) <> [].
Proof.
  intros Hf fuel before s Hs. destruct fuel as [|fuel]; [done|].
  cbn [replace_loop]. destruct (matchAt r (before, s)) as [[p' c]|].
  - intros H. apply app_eq_nil in H as [H _]. by apply Hf in H.
  - cbn [snd]. by destruct s.
Qed.

(** A rune that no class of the pattern accepts stays in the text. *)
Lemma replace_loop_keeps (r : re) (f : gostring -> caps -> gostring)
    (x : rune) :
  accepts r x = false ->
  forall fuel before s, x ∈ s -> x ∈ replace_loop fuel r f (before, s).
Proof.
  intros Hx. induction fuel as [|fuel IH]; intros before s Hin; [done|].
  cbn [replace_loop].
  destruct (matchAt r (before, s)) as [[[before' s'] c]|] eqn:E.
  - destruct (matchAt_spec (fun _ => True) r (before, s) _ _
                ltac:(by apply Forall_true) E)
      as (k & Ek & Hne & Eb & Hacc & _).
    cbn [fst snd] in *. subst s. apply elem_of_app. right. apply IH.
    apply elem_of_app in Hin as [Hin|Hin]; [|done].
    rewrite Forall_forall in Hacc. specialize (Hacc x Hin). congruence.
  - cbn [snd]. destruct s as [|y s]; [done|].
    apply elem_of_cons in Hin as [->|Hin].
    + apply elem_of_cons. by left.
    + apply elem_of_cons. right. by apply IH.
Qed.

Lemma run_class_end (f : rune -> bool) (before : gostring) (x : rune)
    (s : gostring) :
  run (Cat (Class f) EndText) (before, x :: s) []
  = if f x
    then match s with
         | [] => [((x :: before, []), [])]
         | _ :: _ => []
         end
    else [].
Proof.
  cbn [run snd fst]. destruct (f x); [|done].
  cbn [flat_map run snd fst app]. by destruct s.
Qed.

(** A pattern [[class]$] matches when the last rune is of the class. *)
Lemma find_loop_EndText (f : rune -> bool) :
  forall s fuel before,
    (length s < fuel)%nat ->
    find_loop fuel (Cat (Class f) EndText) (before, s)
    = match last s with
      | Some x => if f x then [[x]] else []
      | None => []
      end.
Proof.
  induction s as [|x s IH]; intros fuel before Hfuel.
  - destruct fuel; [simpl in Hfuel; lia|]. done.
  - destruct fuel as [|fuel]; [simpl in Hfuel; lia|].
    cbn [find_loop]. unfold matchAt. rewrite run_class_end.
    destruct s as [|y s].
    + cbn [last]. destruct (f x) eqn:E.
      * cbn [snd length Nat.ltb Nat.leb]. unfold between.
        cbn [snd length Nat.sub take].
        destruct fuel; [simpl in Hfuel; lia|]. done.
      * cbn [snd]. destruct fuel; [simpl in Hfuel; lia|]. done.
    + rewrite last_cons_cons.
      assert (Hnone : match (if f x then [] else [])
                        : list (pos * caps) with
                      | [] => None
                      | (p', c) :: _ =>
                        if (length p'.2 <? length (before, x :: y :: s).2)%nat
                        then Some (p', c) else None
                      end = None) by (by destruct (f x)).
      rewrite Hnone. cbn [snd]. rewrite IH by (simpl in *; lia). done.
Qed.

Lemma MatchString_EndText (f : rune -> bool) (s : gostring) :
  MatchString (Cat (Class f) EndText) s
  = match last s with Some x => f x | None => false end.
Proof.
  unfold MatchString, FindAllString. rewrite find_loop_EndText by lia.
  destruct (last s) as [x|]; [|done]. by destruct (f x).
Qed.

(** ** Enhanced sentences *)

Lemma dedupe_mark_last (m : string) (s : gostring) :
  G m = [R m] ->
  last (ReplaceAllString (cat [chr m; plus true (chr m)]) s [TText (G m)])
  = last s.
Proof. intros Hm. rewrite Hm. apply (dedupe_last (R m)). Qed.

(** An enhanced sentence that is not empty ends with '.', '!', '?' or
    the ellipsis glyph. *)
Lemma enhanceSentenceForTTS_last_mark (sentence : gostring) :
  enhanceSentenceForTTS sentence = []
  \/ exists x, last (enhanceSentenceForTTS sentence) = Some x
               /\ oneOf (G ".!?…") x = true.
Proof.
  unfold enhanceSentenceForTTS. cbv zeta.
  set (e0 := TrimSpace _).
  destruct (str_eqb e0 []) eqn:E0.
  - left. unfold str_eqb in E0. by apply bool_decide_eq_true in E0.
  - right.
    rewrite (dedupe_mark_last "!") by reflexivity.
    rewrite (dedupe_mark_last "?") by reflexivity.
    rewrite (dedupe_mark_last "¡") by reflexivity.
    rewrite (dedupe_mark_last "¿") by reflexivity.
    set (e1 := if negb (MatchString _ e0) then _ else e0).
    assert (H1 : exists x, last e1 = Some x /\ oneOf (G ".!?…") x = true).
    { subst e1.
      change (cat [Class (oneOf (G ".!?…")); EndText])
        with (Cat (Class (oneOf (G ".!?…"))) EndText).
      rewrite MatchString_EndText.
      destruct (last e0) as [x|] eqn:El.
      - destruct (oneOf (G ".!?…") x) eqn:Ex; cbn [negb].
        + eauto.
        + destruct (_ || _); [|destruct (_ || _)];
            rewrite last_app_cases; cbn [last]; eexists; (split; [reflexivity|]);
            reflexivity.
      - cbn [negb].
        destruct (_ || _); [|destruct (_ || _)];
          rewrite last_app_cases; cbn [last]; eexists; (split; [reflexivity|]);
          reflexivity. }
    destruct H1 as (x & Hx & Ht). exists x. split; [|done]. clearbody e1.
    set (e2 := if _ && _ && _ then G "¿" ++ e1 else e1).
    assert (H2 : last e2 = Some x).
    { subst e2. destruct (_ && _ && _); [|exact Hx].
      rewrite last_app_cases. by rewrite Hx. }
    clearbody e2. destruct (_ && _ && _); [|done].
    rewrite last_app_cases. by rewrite H2.
Qed.

(** ** The output of the normalizer *)

Lemma Forall_avoid_lit (l : list rune) (s : gostring) :
  forallb (fun y => negb (oneOf l y)) s = true ->
  Forall (fun y => oneOf l y = false) s.
Proof.
  intros H. apply Forall_forall. intros y Hy.
  rewrite forallb_forall in H. apply list_elem_of_In in Hy.
  apply H in Hy. by apply negb_true_iff in Hy.
Qed.

Lemma template_avoid_lit (l : list rune) (t : list titem) :
  forallb (fun i => match i with
                    | TText s => forallb (fun y => negb (oneOf l y)) s
                    | TGroup _ => true
                    end) t = true ->
  Forall (fun i => match i with
                   | TText s => Forall (fun y => oneOf l y = false) s
                   | TGroup _ => True
                   end) t.
Proof.
  intros H. apply Forall_forall. intros i Hi.
  rewrite forallb_forall in H. apply list_elem_of_In in Hi.
  apply H in Hi. destruct i; [by apply Forall_avoid_lit | done].
Qed.

Lemma ReplaceAll_avoid (l : list rune) (x : rune) (s new : gostring) :
  Forall (fun y => oneOf (x :: l) y = false) new ->
  Forall (fun y => oneOf l y = false) s ->
  Forall (fun y => oneOf (x :: l) y = false) (ReplaceAll s [x] new).
Proof.
  intros Hnew Hs.
  assert (H1 : Forall (fun y => y <> x) (ReplaceAll s [x] new)).
  { apply ReplaceAll_removes. eapply Forall_impl; [exact Hnew|].
    intros y Hy Heq. subst y. unfold oneOf in Hy. cbn [existsb] in Hy.
    by rewrite Z.eqb_refl in Hy. }
  assert (H2 : Forall (fun y => oneOf l y = false) (ReplaceAll s [x] new)).
  { apply ReplaceAll_Forall; [|done]. eapply Forall_impl; [exact Hnew|].
    intros y Hy. unfold oneOf in *. cbn [existsb] in Hy.
    by apply orb_false_elim in Hy as [_ ?]. }
  rewrite Forall_forall in H1, H2. apply Forall_forall. intros y Hy.
  unfold oneOf. cbn [existsb]. apply orb_false_intro.
  - apply Z.eqb_neq. by apply H1.
  - by apply H2.
Qed.

Lemma squeezeDots_Forall (Q : rune -> Prop) (fuel : nat) (s : gostring) :
  Forall Q (G ".") -> Forall Q s -> Forall Q (squeezeDots fuel s).
Proof.
  intros Hdot. revert s. induction fuel as [|fuel IH]; intros s Hs; [done|].
  cbn [squeezeDots]. destruct (_ && _); [|done].
  apply IH. by apply ReplaceAll_Forall.
Qed.

Ltac avoid_lit :=
  first [ apply template_avoid_lit; vm_compute; reflexivity
        | apply Forall_avoid_lit; vm_compute; reflexivity ].

(** X16: whatever the input, the normalized text contains no newline,
    no curly quote, no en or em dash and no ellipsis glyph, and neither
    begins nor ends with white space. *)
Theorem normalizeTextForTTS_output (text : gostring) :
  Forall (fun y => oneOf [0x2026; 0x2014; 0x2013; 0x2019; 0x2018; 0x201D;
                          0x201C; 10] y = false)
         (normalizeTextForTTS text)
  /\ isTrimmed (normalizeTextForTTS text).
Proof.
  split; [|apply TrimSpace_isTrimmed].
  unfold normalizeTextForTTS. cbv zeta.
  apply TrimSpace_Forall.
  repeat first
    [ apply ReplaceAllString_Forall; [avoid_lit|]
    | apply squeezeDots_Forall; [avoid_lit|]
    | apply ReplaceAllStringFunc_Forall;
      [intros m Hm; repeat (apply Forall_app; split);
       first [avoid_lit | by apply TrimSpace_Forall, TrimPrefix_Forall,
                             TrimSuffix_Forall]|] ].
  do 4 (apply ReplaceAll_Forall; [avoid_lit|]).
  do 8 (apply ReplaceAll_avoid; [avoid_lit|]).
  apply Forall_forall. intros y _. reflexivity.
Qed.

(** ** No empty sentence *)

Lemma dropWhile_keeps {A} (f : A -> bool) (l : list A) (x : A) :
  x ∈ l -> f x = false -> x ∈ dropWhile f l.
Proof.
  intros Hin Hx. induction l as [|y l IH]; [done|].
  cbn [dropWhile]. destruct (f y) eqn:E; [|done].
  apply elem_of_cons in Hin as [->|Hin]; [congruence | by apply IH].
Qed.

Lemma elem_of_rev_2 {A} (l : list A) (x : A) : x ∈ l -> x ∈ rev l.
Proof.
  intros H. apply list_elem_of_In. apply in_rev. rewrite rev_involutive.
  by apply list_elem_of_In.
Qed.

Lemma TrimSpace_keeps (s : gostring) (x : rune) :
  x ∈ s -> IsSpace x = false -> x ∈ TrimSpace s.
Proof.
  intros Hin Hx. unfold TrimSpace. apply elem_of_rev_2.
  apply dropWhile_keeps; [|done]. apply elem_of_rev_2.
  by apply dropWhile_keeps.
Qed.

Lemma TrimSpace_nonempty (s : gostring) :
  TrimSpace s <> [] -> exists x, x ∈ TrimSpace s /\ IsSpace x = false.
Proof.
  intros Hne. destruct (TrimSpace_isTrimmed s) as [Hh _].
  destruct (TrimSpace s) as [|x t]; [done|].
  exists x. split; [apply elem_of_cons; by left | by apply Hh].
Qed.

Lemma IsSpace_perl_s (x : rune) : IsSpace x = false -> perl_s x = false.
Proof.
  intros Hx. destruct (perl_s x) eqn:E; [|done].
  unfold perl_s in E. rewrite !orb_true_iff, !Z.eqb_eq in E.
  destruct E as [[[[->| ->]| ->]| ->]| ->]; done.
Qed.

Lemma ReplaceAllString_keeps (r : re) (s : gostring) (t : list titem)
    (x : rune) :
  accepts r x = false -> x ∈ s -> x ∈ ReplaceAllString r s t.
Proof. intros Hx Hin. unfold ReplaceAllString. by apply replace_loop_keeps. Qed.

Lemma dedupe_mark_nonempty (m : string) (s : gostring) :
  G m = [R m] -> s <> [] ->
  ReplaceAllString (cat [chr m; plus true (chr m)]) s [TText (G m)] <> [].
Proof.
  intros Hm Hs. unfold ReplaceAllString. apply replace_loop_nonempty; [|done].
  intros _ c. by rewrite Hm.
Qed.

(** A sentence with a rune that is not white space is not enhanced to
    the empty string. *)
Lemma enhanceSentenceForTTS_nonempty (sentence : gostring) (x : rune) :
  x ∈ sentence -> IsSpace x = false -> enhanceSentenceForTTS sentence <> [].
Proof.
  intros Hin Hx. unfold enhanceSentenceForTTS. cbv zeta.
  set (e0 := TrimSpace _).
  assert (H0 : x ∈ e0).
  { subst e0. apply TrimSpace_keeps; [|done].
    apply ReplaceAllString_keeps.
    { cbn [plus accepts ws]. rewrite (IsSpace_perl_s x Hx). done. }
    apply ReplaceAllString_keeps; [|done].
    cbn [plus accepts]. apply IsSpace_perl_s in Hx.
    unfold perl_s in Hx. unfold oneOf. cbn [existsb].
    rewrite !orb_false_iff in *. tauto. }
  assert (Hne : e0 <> []) by (intros E; rewrite E in H0; by apply elem_of_nil in H0).
  clearbody e0.
  destruct (str_eqb e0 []) eqn:E0.
  { unfold str_eqb in E0. by apply bool_decide_eq_true in E0. }
  apply (dedupe_mark_nonempty "!"); [reflexivity|].
  apply (dedupe_mark_nonempty "?"); [reflexivity|].
  apply (dedupe_mark_nonempty "¡"); [reflexivity|].
  apply (dedupe_mark_nonempty "¿"); [reflexivity|].
  set (e1 := if negb (MatchString _ e0) then _ else e0).
  assert (H1 : e1 <> []).
  { subst e1. destruct (negb _); [|done].
    destruct (_ || _); [|destruct (_ || _)]; by destruct e0. }
  clearbody e1.
  set (e2 := if _ && _ && _ then G "¿" ++ e1 else e1).
  assert (H2 : e2 <> []) by (subst e2; by destruct (_ && _ && _)).
  clearbody e2. by destruct (_ && _ && _).
Qed.

Lemma splitLongSentence_Forall (P : gostring -> Prop) (sentence : gostring) :
  (forall s x, x ∈ s -> IsSpace x = false -> P (enhanceSentenceForTTS s)) ->
  P sentence -> Forall P (splitLongSentence sentence).
Proof.
  intros HP Hne. unfold splitLongSentence.
  assert (Hpush : forall chunks cur,
             Forall P chunks ->
             Forall P
               (if negb (str_eqb (TrimSpace cur) [])
                then chunks ++ [enhanceSentenceForTTS (TrimSpace cur)]
                else chunks)).
  { intros chunks cur Hc. destruct (str_eqb (TrimSpace cur) []) eqn:E; [done|].
    cbn [negb]. apply Forall_app. split; [done|].
    constructor; [|constructor].
    unfold str_eqb in E. apply bool_decide_eq_false in E.
    destruct (TrimSpace_nonempty cur E) as (x & Hin & Hx).
    by apply (HP _ x). }
  assert (Hloop : forall parts st,
             Forall P st.1 -> Forall P (foldl chunkStep st parts).1).
  { induction parts as [|part parts IH]; intros st Hst; [done|].
    cbn [foldl]. apply IH. destruct st as [chunks cur]. unfold chunkStep.
    destruct (_ && _); [|done]. cbn [fst] in *. by apply Hpush. }
  specialize (Hloop (Split naturalBreaksPattern sentence) ([], [])
                ltac:(constructor)).
  destruct (foldl _ _ _) as [chunks cur]. cbn [fst] in Hloop.
  specialize (Hpush chunks cur Hloop).
  destruct (if negb _ then _ else _) as [|c l] eqn:E; [|done].
  by repeat constructor.
Qed.

Lemma mergeSpec_Forall (P : gostring -> Prop) :
  (forall a b, P a -> P b -> P (a ++ G " " ++ b)) ->
  forall n sentences output,
    (length sentences <= n)%nat ->
    Forall P output -> Forall P sentences ->
    Forall P (mergeSpec output sentences).
Proof.
  intros HP.
  induction n as [n IH] using lt_wf_ind. intros sentences output Hlen Ho Hs.
  destruct sentences as [|sentence rest]; [done|].
  apply Forall_cons in Hs as [Hs Hrest].
  cbn [mergeSpec length] in *.
  destruct (isShort sentence).
  - destruct output as [|o output'] eqn:Eo.
    + destruct rest as [|next rest']; [by repeat constructor|].
      apply Forall_cons in Hrest as [Hnext Hrest].
      apply (IH (length rest')); [simpl in Hlen; lia | lia | | done].
      constructor; [by apply HP | constructor].
    + rewrite <- Eo in *. assert (Hne : output <> []) by (by subst).
      clear Eo. destruct output as [|m before _] using rev_ind; [done|].
      rewrite appendToPrevious_snoc.
      apply Forall_app in Ho as [Hb Hm]. apply Forall_cons in Hm as [Hm _].
      apply (IH (length rest)); [lia | lia | | done].
      apply Forall_app. split; [done|].
      constructor; [by apply HP | constructor].
  - apply (IH (length rest)); [lia | lia | | done].
    apply Forall_app. split; [done|]. by repeat constructor.
Qed.

Lemma validSentences_nonempty (sentences : list gostring) :
  Forall (fun s => s <> []) sentences -> validSentences sentences = sentences.
Proof.
  unfold validSentences.
  assert (H : forall l acc,
             Forall (fun s : gostring => s <> []) l ->
             foldl (fun valid s =>
                      if negb (str_eqb s []) then valid ++ [s] else valid)
                   acc l = acc ++ l).
  { induction l as [|s l IH]; intros acc Hl; [by rewrite app_nil_r|].
    apply Forall_cons in Hl as [Hs Hl]. cbn [foldl].
    assert (E : str_eqb s [] = false)
      by (unfold str_eqb; by apply bool_decide_eq_false_2).
    rewrite E. cbn [negb]. rewrite IH by done. by rewrite <- app_assoc. }
  intros Hs. by rewrite H.
Qed.

(** X17: no sentence returned by [splitSentences] is empty, whatever the
    text and the iteration orders of the protection map; so the loop of
    [convertHandler] that drops empty sentences drops nothing. *)
Theorem splitSentences_no_empty_sentence
    (isExcludingLatinUpper : rune -> bool) (orders : nat -> list nat)
    (text : gostring) :
  Forall (fun s => s <> []) (splitSentences isExcludingLatinUpper orders text)
  /\ validSentences (splitSentences isExcludingLatinUpper orders text)
     = splitSentences isExcludingLatinUpper orders text.
Proof.
  assert (H : Forall (fun s : gostring => s <> [])
                (splitSentences isExcludingLatinUpper orders text)).
  { unfold splitSentences. destruct (str_eqb (TrimSpace text) []); [constructor|].
    cbv zeta. unfold mergeShortFragments.
    rewrite mergeLoop_mergeSpec by lia. rewrite drop_0.
    eapply (mergeSpec_Forall (fun s => s <> []));
      [intros a b Ha _; by destruct a | reflexivity | constructor |].
    apply Forall_concat. apply Forall_forall. intros l Hl.
    apply elem_of_lookup_imap in Hl as (k & s & -> & _).
    unfold processSentence. cbv zeta.
    set (e := enhanceSentenceForTTS _).
    destruct (3 <? len e) eqn:E3; [|constructor].
    assert (Hne : e <> []).
    { intros E. rewrite E in E3. done. }
    destruct (400 <? len e);
      [apply splitLongSentence_Forall;
       [apply enhanceSentenceForTTS_nonempty | done]|].
    by repeat constructor. }
  split; [done|]. by apply validSentences_nonempty.
Qed.

(** ** Runs of a class replaced by one rune *)

Lemma noAdjacent_nil (f : rune -> bool) : noAdjacent f [].
Proof. intros l1 x y l2 E. by destruct l1. Qed.

Lemma noAdjacent_cons (f : rune -> bool) (x : rune) (rest : gostring) :
  (f x = true -> forall y, head rest = Some y -> f y = false) ->
  noAdjacent f rest -> noAdjacent f (x :: rest).
Proof.
  intros Hx Hrest l1 a b l2 E Ha Hb. destruct l1 as [|z l1].
  - cbn [app] in E. injection E as -> ->.
    specialize (Hx Ha b eq_refl). congruence.
  - cbn [app] in E. injection E as -> ->. by eapply Hrest.
Qed.

Lemma noAdjacent_suffix (f : rune -> bool) (k s : gostring) :
  noAdjacent f (k ++ s) -> noAdjacent f s.
Proof.
  intros H l1 x y l2 E. apply (H (k ++ l1) x y l2).
  rewrite E. by rewrite <- app_assoc.
Qed.

Lemma noAdjacent_head (f : rune -> bool) (x : rune) (s : gostring) :
  noAdjacent f (x :: s) -> f x = true ->
  forall y, head s = Some y -> f y = false.
Proof.
  intros H Hx y Hy. destruct s as [|z s]; [done|].
  cbn [head] in Hy. injection Hy as ->.
  destruct (f y) eqn:E; [|done]. exfalso. by apply (H [] x y s).
Qed.

Lemma noAdjacent_rev (f : rune -> bool) (s : gostring) :
  noAdjacent f s -> noAdjacent f (rev s).
Proof.
  intros H l1 x y l2 E Hx Hy. apply (H (rev l2) y x (rev l1)); [|done..].
  rewrite <- (rev_involutive s). rewrite E. rewrite rev_app_distr.
  cbn [rev]. by rewrite <- !app_assoc.
Qed.

Lemma dropWhile_suffix {A} (f : A -> bool) (l : list A) :
  exists k, l = k ++ dropWhile f l /\ Forall (fun y => f y = true) k.
Proof.
  induction l as [|x l (k & Hk & Hf)]; [by exists []|].
  cbn [dropWhile]. destruct (f x) eqn:E.
  - exists (x :: k). split; [cbn [app]; by rewrite <- Hk | by constructor].
  - by exists [].
Qed.

Lemma noAdjacent_dropWhile (f g : rune -> bool) (s : gostring) :
  noAdjacent f s -> noAdjacent f (dropWhile g s).
Proof.
  intros H. destruct (dropWhile_suffix g s) as (k & Hk & _).
  rewrite Hk in H. by eapply noAdjacent_suffix.
Qed.

Lemma noAdjacent_TrimSpace (f : rune -> bool) (s : gostring) :
  noAdjacent f s -> noAdjacent f (TrimSpace s).
Proof.
  intros H. unfold TrimSpace.
  by apply noAdjacent_rev, noAdjacent_dropWhile, noAdjacent_rev,
     noAdjacent_dropWhile.
Qed.

Lemma singleSpaced_TrimSpace (s : gostring) :
  singleSpaced s -> singleSpaced (TrimSpace s).
Proof.
  intros [H1 H2]. split; [by apply TrimSpace_Forall | by apply noAdjacent_TrimSpace].
Qed.

(** A greedy repetition of a class takes the whole run of the class
    first. *)
Lemma star_class_head (f : rune -> bool) (c : caps) :
  forall fuel before s,
    (length s < fuel)%nat ->
    exists k others,
      star_loop (run (Class f)) true fuel (before, s) c
      = ((rev k ++ before, dropWhile f s), c) :: others
      /\ s = k ++ dropWhile f s.
Proof.
  induction fuel as [|fuel IH]; intros before s Hfuel; [lia|].
  cbn [star_loop]. destruct s as [|x s'].
  - exists [], []. done.
  - assert (Hstep : run (Class f) (before, x :: s') c
                    = if f x then [((x :: before, s'), c)] else [])
      by reflexivity.
    rewrite Hstep. cbn [dropWhile]. destruct (f x) eqn:E.
    + cbn [flat_map snd fst length].
      assert (Hlt : (length s' <? S (length s'))%nat = true)
        by (apply Nat.ltb_lt; lia).
      rewrite Hlt.
      destruct (IH (x :: before) s' ltac:(simpl in Hfuel; lia))
        as (k & others & -> & Hs).
      exists (x :: k), (others ++ [] ++ [((before, x :: s'), c)]).
      split.
      * cbn [rev app]. by rewrite <- !app_assoc.
      * cbn [app]. by rewrite <- Hs.
    + exists [], []. done.
Qed.

Lemma matchAt_plus_class_miss (f : rune -> bool) (before : gostring)
    (x : rune) (s : gostring) :
  f x = false -> matchAt (plus true (Class f)) (before, x :: s) = None.
Proof. intros E. unfold matchAt, plus. cbn [run snd fst]. by rewrite E. Qed.

Lemma matchAt_plus_class_hit (f : rune -> bool) (before : gostring)
    (x : rune) (s : gostring) :
  f x = true ->
  exists before',
    matchAt (plus true (Class f)) (before, x :: s)
    = Some ((before', dropWhile f s), []).
Proof.
  intros E. unfold matchAt, plus.
  assert (Hrun : run (Cat (Class f) (Star true (Class f))) (before, x :: s) []
                 = star_loop (run (Class f)) true (S (length s))
                     (x :: before, s) [] ++ []).
  { change (run (Cat (Class f) (Star true (Class f))) (before, x :: s) [])
      with (flat_map (fun pc : pos * caps => run (Star true (Class f)) pc.1 pc.2)
                     (if f x then [((x :: before, s), [])] else [])).
    rewrite E. reflexivity. }
  rewrite Hrun.
  destruct (star_class_head f [] (S (length s)) (x :: before) s ltac:(lia))
    as (k & others & -> & Hs).
  cbn [app snd length].
  assert (Hlt : (length (dropWhile f s) <? S (length s))%nat = true).
  { apply Nat.ltb_lt. rewrite Hs at 2. rewrite length_app. lia. }
  rewrite Hlt. by eexists.
Qed.

(** With every run of the class [f] replaced by the one rune [v] of
    the class, [v] is the only rune of the class left and no two runes
    of the class stand side by side. *)
Lemma replace_loop_collapse (f : rune -> bool) (v : rune)
    (fn : gostring -> caps -> gostring) :
  (forall m c, fn m c = [v]) ->
  forall fuel before s,
    (length s < fuel)%nat ->
    Forall (fun y => f y = true -> y = v)
           (replace_loop fuel (plus true (Class f)) fn (before, s))
    /\ noAdjacent f (replace_loop fuel (plus true (Class f)) fn (before, s))
    /\ ((forall y, head s = Some y -> f y = false) ->
        forall y,
          head (replace_loop fuel (plus true (Class f)) fn (before, s)) = Some y ->
          f y = false).
Proof.
  intros Hfn. induction fuel as [|fuel IH]; intros before s Hfuel; [lia|].
  cbn [replace_loop]. destruct s as [|x s].
  - unfold matchAt, plus. cbn [run snd fst flat_map].
    split; [constructor | split; [apply noAdjacent_nil | done]].
  - destruct (f x) eqn:E.
    + destruct (matchAt_plus_class_hit f before x s E) as (before' & ->).
      rewrite Hfn. cbn [app].
      destruct (dropWhile_suffix f s) as (k & Hk & _).
      destruct (IH before' (dropWhile f s)) as (H1 & H2 & H3).
      { simpl in Hfuel. rewrite Hk in Hfuel. rewrite length_app in Hfuel. lia. }
      split; [|split].
      * by constructor.
      * apply noAdjacent_cons; [|done]. intros _. apply H3.
        intros y Hy. by apply dropWhile_head in Hy.
      * intros Hh. specialize (Hh x eq_refl). congruence.
    + rewrite (matchAt_plus_class_miss f before x s E). cbn [snd].
      destruct (IH (x :: before) s ltac:(simpl in Hfuel; lia)) as (H1 & H2 & H3).
      split; [|split].
      * constructor; [congruence | done].
      * apply noAdjacent_cons; [congruence | done].
      * intros _ y Hy. cbn [head] in Hy. by injection Hy as <-.
Qed.

Lemma ReplaceAllString_collapse (s : gostring) :
  singleSpaced (ReplaceAllString (plus true ws) s [TText (G " ")]).
Proof.
  unfold ReplaceAllString, singleSpaced, ws.
  destruct (replace_loop_collapse perl_s 32
              (fun _ c => expand [TText (G " ")] c) ltac:(done)
              (S (length s)) [] s ltac:(lia)) as (H1 & H2 & _).
  done.
Qed.

(** X18: the white space of the normalized text is single spaces: it
    holds no tab, form feed or carriage return and no two spaces side
    by side. *)
Theorem normalizeTextForTTS_single_spaced (text : gostring) :
  singleSpaced (normalizeTextForTTS text).
Proof.
  unfold normalizeTextForTTS. cbv zeta.
  apply singleSpaced_TrimSpace, ReplaceAllString_collapse.
Qed.

(** ** Tidy sentences *)

Lemma replace_loop_head (r : re) (fn : gostring -> caps -> gostring) :
  (forall m c, m <> [] -> Forall (fun x => accepts r x = true) m ->
               head (fn m c) = head m) ->
  forall fuel before s, head (replace_loop fuel r fn (before, s)) = head s.
Proof.
  intros Hf. induction fuel as [|fuel IH]; intros before s; [done|].
  cbn [replace_loop].
  destruct (matchAt r (before, s)) as [[[before' s'] c]|] eqn:E.
  - destruct (matchAt_spec (fun _ => True) r (before, s) _ _
                ltac:(by apply Forall_true) E)
      as (k & Ek & Hne & Eb & Hacc & _).
    cbn [fst snd] in *. rewrite Eb. subst s.
    specialize (Hf k c Hne Hacc).
    destruct k as [|z k]; [done|]. cbn [app head] in *.
    destruct (fn (z :: k) c) as [|w l]; [done|]. done.
  - cbn [snd]. by destruct s.
Qed.

Lemma dedupe_mark_head (m : string) (s : gostring) :
  G m = [R m] ->
  head (ReplaceAllString (cat [chr m; plus true (chr m)]) s [TText (G m)])
  = head s.
Proof.
  intros Hm. rewrite Hm. unfold ReplaceAllString. apply replace_loop_head.
  intros k c Hne Hacc. cbn [expand flat_map app head].
  destruct k as [|z k]; [done|]. apply Forall_cons in Hacc as [Hz _].
  cbn [cat plus chr accepts] in Hz. cbn [head].
  destruct (R m =? z) eqn:E; [|done]. apply Z.eqb_eq in E. by subst.
Qed.

Lemma noAdjacent_free_app (f : rune -> bool) (free rest : gostring) :
  Forall (fun y => f y = false) free ->
  noAdjacent f rest -> noAdjacent f (free ++ rest).
Proof.
  intros Hfree Hrest. induction Hfree as [|x free Hx _ IH]; [done|].
  cbn [app]. apply noAdjacent_cons; [congruence | done].
Qed.

Lemma noAdjacent_snoc_free (f : rune -> bool) (s : gostring) (v : rune) :
  f v = false -> noAdjacent f s -> noAdjacent f (s ++ [v]).
Proof.
  intros Hv Hs. rewrite <- (rev_involutive (s ++ [v])).
  apply noAdjacent_rev. rewrite rev_app_distr. cbn [rev app].
  apply noAdjacent_cons; [congruence | by apply noAdjacent_rev].
Qed.

(** A replacement that writes at least one rune, none of the class [f],
    brings no two runes of [f] side by side. *)
Lemma replace_loop_noAdjacent (f : rune -> bool) (r : re)
    (fn : gostring -> caps -> gostring) :
  (forall m c, fn m c <> [] /\ Forall (fun y => f y = false) (fn m c)) ->
  forall fuel before s,
    noAdjacent f s ->
    noAdjacent f (replace_loop fuel r fn (before, s))
    /\ (forall y, head (replace_loop fuel r fn (before, s)) = Some y ->
                  f y = true -> head s = Some y).
Proof.
  intros Hfn. induction fuel as [|fuel IH]; intros before s Hs; [done|].
  cbn [replace_loop].
  destruct (matchAt r (before, s)) as [[[before' s'] c]|] eqn:E.
  - destruct (matchAt_spec (fun _ => True) r (before, s) _ _
                ltac:(by apply Forall_true) E)
      as (k & Ek & _).
    cbn [fst snd] in *. subst s.
    destruct (Hfn (between (before, k ++ s') (before', s')) c) as [Hne Hfree].
    destruct (IH before' s' (noAdjacent_suffix f k s' Hs)) as [H1 _].
    split; [by apply noAdjacent_free_app|].
    intros y Hy Hfy. destruct (fn _ c) as [|w l]; [done|].
    cbn [app head] in Hy. injection Hy as ->.
    apply Forall_cons in Hfree as [Hw _]. congruence.
  - cbn [snd]. destruct s as [|x s]; [split; [apply noAdjacent_nil | done]|].
    destruct (IH (x :: before) s (noAdjacent_suffix f [x] s Hs)) as [H1 H2].
    split; [|done].
    apply noAdjacent_cons; [|done]. intros Hx y Hy.
    destruct (f y) eqn:Efy; [|done].
    pose proof (noAdjacent_head f x s Hs Hx y (H2 y Hy Efy)). congruence.
Qed.

Lemma tidy_snoc (s : gostring) (v : rune) :
  IsSpace v = false -> tidy s -> tidy (s ++ [v]).
Proof.
  intros Hv (Hne & [Hh Hl] & H1 & H2). split; [by destruct s|].
  split; [split|split].
  - intros x Hx. apply Hh. by destruct s.
  - intros x Hx. rewrite last_snoc in Hx. by injection Hx as <-.
  - apply Forall_app. split; [done|]. constructor; [|constructor].
    rewrite (IsSpace_perl_s v Hv). done.
  - apply noAdjacent_snoc_free; [by apply IsSpace_perl_s | done].
Qed.

Lemma tidy_cons (v : rune) (s : gostring) :
  IsSpace v = false -> tidy s -> tidy (v :: s).
Proof.
  intros Hv (Hne & [Hh Hl] & H1 & H2). split; [done|].
  split; [split|split].
  - intros x Hx. cbn [head] in Hx. by injection Hx as <-.
  - intros x Hx. apply Hl. destruct s as [|z s]; [done|].
    by rewrite last_cons_cons in Hx.
  - constructor; [|done]. rewrite (IsSpace_perl_s v Hv). done.
  - apply noAdjacent_cons; [|done]. rewrite (IsSpace_perl_s v Hv). done.
Qed.

Lemma tidy_dedupe (m : string) (s : gostring) :
  G m = [R m] -> IsSpace (R m) = false -> tidy s ->
  tidy (ReplaceAllString (cat [chr m; plus true (chr m)]) s [TText (G m)]).
Proof.
  intros Hm Hv (Hne & [Hh Hl] & H1 & H2). split; [by apply dedupe_mark_nonempty|].
  split; [split|split].
  - intros x Hx. rewrite dedupe_mark_head in Hx by done. by apply Hh.
  - intros x Hx. rewrite dedupe_mark_last in Hx by done. by apply Hl.
  - apply ReplaceAllString_Forall; [|done].
    rewrite Hm. constructor; [|constructor]. constructor; [|constructor].
    rewrite (IsSpace_perl_s _ Hv). done.
  - unfold ReplaceAllString. apply replace_loop_noAdjacent; [|done].
    intros k c. rewrite Hm. cbn [expand flat_map app].
    split; [done|]. constructor; [by apply IsSpace_perl_s | constructor].
Qed.

(** An enhanced sentence is empty or tidy. *)
Lemma enhanceSentenceForTTS_tidy (sentence : gostring) :
  enhanceSentenceForTTS sentence = [] \/ tidy (enhanceSentenceForTTS sentence).
Proof.
  unfold enhanceSentenceForTTS. cbv zeta.
  set (e0 := TrimSpace _).
  assert (H0 : isTrimmed e0 /\ singleSpaced e0).
  { subst e0. split; [apply TrimSpace_isTrimmed|].
    apply singleSpaced_TrimSpace, ReplaceAllString_collapse. }
  clearbody e0.
  destruct (str_eqb e0 []) eqn:E0.
  { left. unfold str_eqb in E0. by apply bool_decide_eq_true in E0. }
  right. unfold str_eqb in E0. apply bool_decide_eq_false in E0.
  assert (T0 : tidy e0) by (by split).
  apply (tidy_dedupe "!"); [reflexivity..|].
  apply (tidy_dedupe "?"); [reflexivity..|].
  apply (tidy_dedupe "¡"); [reflexivity..|].
  apply (tidy_dedupe "¿"); [reflexivity..|].
  set (e1 := if negb (MatchString _ e0) then _ else e0).
  assert (T1 : tidy e1).
  { subst e1. destruct (negb _); [|done].
    destruct (_ || _); [|destruct (_ || _)].
    - by apply (tidy_snoc e0 (R "?")).
    - by apply (tidy_snoc e0 (R "!")).
    - by apply (tidy_snoc e0 (R ".")). }
  clearbody e1.
  set (e2 := if _ && _ && _ then G "¿" ++ e1 else e1).
  assert (T2 : tidy e2).
  { subst e2. destruct (_ && _ && _); [|done]. by apply (tidy_cons (R "¿") e1). }
  clearbody e2. destruct (_ && _ && _); [|done].
  by apply (tidy_cons (R "¡") e2).
Qed.

(** X15: a sentence that holds a rune other than white space is enhanced
    to a sentence that is not empty, has no white space at its ends,
    holds no tab, line feed, form feed or carriage return and no two
    spaces side by side, and ends with '.', '!', '?' or the ellipsis
    glyph.  (A vertical tab inside the sentence is not in [\s] and is
    not covered.) *)
Theorem enhanceSentenceForTTS_terminal (sentence : gostring) (x : rune) :
  x ∈ sentence -> IsSpace x = false ->
  tidy (enhanceSentenceForTTS sentence)
  /\ endsWithMark (enhanceSentenceForTTS sentence).
Proof.
  intros Hin Hx.
  pose proof (enhanceSentenceForTTS_nonempty sentence x Hin Hx) as Hne.
  destruct (enhanceSentenceForTTS_tidy sentence) as [E|Ht]; [done|].
  destruct (enhanceSentenceForTTS_last_mark sentence) as [E|Hl]; [done|].
  done.
Qed.

Lemma enhanceSentenceForTTS_terminal_witness :
  tidy (enhanceSentenceForTTS (G "hola, qué tal"))
  /\ endsWithMark (enhanceSentenceForTTS (G "hola, qué tal")).
Proof.
  apply (enhanceSentenceForTTS_terminal (G "hola, qué tal") (R "h")).
  - apply elem_of_cons. by left.
  - reflexivity.
Defined.

Lemma tidy_join (a b : gostring) :
  tidy a /\ endsWithMark a -> tidy b /\ endsWithMark b ->
  tidy (a ++ G " " ++ b) /\ endsWithMark (a ++ G " " ++ b).
Proof.
  intros [(Hna & [Hha Hla] & Ha1 & Ha2) Hma] [(Hnb & [Hhb Hlb] & Hb1 & Hb2) Hmb].
  assert (Hlast : last (a ++ G " " ++ b) = last b).
  { rewrite !last_app_cases. destruct (last b) eqn:E; [done|].
    apply last_None_nil in E. done. }
  split; [split; [by destruct a | split; [split | split]]|].
  - intros x Hx. apply Hha. by destruct a.
  - intros x Hx. rewrite Hlast in Hx. by apply Hlb.
  - apply Forall_app. split; [done|]. apply Forall_app. split; [|done].
    by repeat constructor.
  - intros l1 x y l2 E Hx Hy.
    destruct a as [|a0 a' _] using rev_ind; [done|].
    destruct b as [|b0 b']; [done|].
    assert (Ha0 : perl_s a0 = false).
    { apply IsSpace_perl_s, Hla. by rewrite last_snoc. }
    assert (Hb0 : perl_s b0 = false) by (by apply IsSpace_perl_s, Hhb).
    assert (Hfull : noAdjacent perl_s ((a' ++ [a0]) ++ G " " ++ b0 :: b')).
    { change (G " ") with [32]. rewrite <- app_assoc. cbn [app].
      rewrite <- (rev_involutive (a' ++ a0 :: 32 :: b0 :: b')).
      apply noAdjacent_rev. rewrite rev_app_distr. cbn [rev app].
      rewrite <- !app_assoc. cbn [app].
      set (rb := rev b') in *.
      assert (Hrb : noAdjacent perl_s (rb ++ [b0])).
      { subst rb. change (rev b' ++ [b0]) with (rev (b0 :: b')).
        by apply noAdjacent_rev. }
      assert (Hra : noAdjacent perl_s (a0 :: rev a')).
      { replace (a0 :: rev a') with (rev (a' ++ [a0]))
          by (by rewrite rev_app_distr).
        by apply noAdjacent_rev. }
      clear -Hrb Hra Ha0 Hb0.
      induction rb as [|z rb IH].
      - cbn [app]. apply noAdjacent_cons; [congruence|].
        apply noAdjacent_cons; [|done]. intros _ y Hy.
        cbn [head] in Hy. by injection Hy as <-.
      - cbn [app]. apply noAdjacent_cons.
        + intros Hz y Hy. apply (noAdjacent_head perl_s z (rb ++ [b0]) Hrb Hz).
          destruct rb; cbn [app head] in *; done.
        + apply IH. by apply (noAdjacent_suffix perl_s [z]). }
    by apply (Hfull l1 x y l2).
  - destruct Hmb as (y & Hy & Hm). exists y. by rewrite Hlast.
Qed.

(** X19: every sentence that [splitSentences] returns is not empty, has
    no white space at its ends, holds no tab, line feed, form feed or
    carriage return and no two spaces side by side, and ends with '.',
    '!', '?' or the ellipsis glyph.  (A vertical tab inside a sentence
    is not in [\s] and is not covered.) *)
Theorem splitSentences_well_formed
    (isExcludingLatinUpper : rune -> bool) (orders : nat -> list nat)
    (text : gostring) :
  Forall (fun s => tidy s /\ endsWithMark s)
         (splitSentences isExcludingLatinUpper orders text).
Proof.
  assert (Henh : forall s, enhanceSentenceForTTS s <> [] ->
                           tidy (enhanceSentenceForTTS s)
                           /\ endsWithMark (enhanceSentenceForTTS s)).
  { intros s Hne.
    destruct (enhanceSentenceForTTS_tidy s) as [E|Ht]; [done|].
    destruct (enhanceSentenceForTTS_last_mark s) as [E|Hl]; [done|].
    done. }
  unfold splitSentences. destruct (str_eqb (TrimSpace text) []); [constructor|].
  cbv zeta. unfold mergeShortFragments.
  rewrite mergeLoop_mergeSpec by lia. rewrite drop_0.
  eapply (mergeSpec_Forall (fun s => tidy s /\ endsWithMark s));
    [apply tidy_join | reflexivity | constructor |].
  apply Forall_concat. apply Forall_forall. intros l Hl.
  apply elem_of_lookup_imap in Hl as (k & s & -> & _).
  unfold processSentence. cbv zeta.
  set (e := enhanceSentenceForTTS _).
  destruct (3 <? len e) eqn:E3; [|constructor].
  assert (Hne : e <> []) by (intros E; by rewrite E in E3).
  destruct (400 <? len e).
  - apply splitLongSentence_Forall; [|by apply Henh].
    intros s' x Hin Hx. apply Henh.
    by apply (enhanceSentenceForTTS_nonempty s' x).
  - constructor; [by apply Henh | constructor].
Qed.

(** ** Text filtering before the split *)

(** A replacement by the empty text only deletes. *)
Lemma replace_loop_sublist (r : re) (fn : gostring -> caps -> gostring) :
  (forall m c, fn m c = []) ->
  forall fuel before s, sublist (replace_loop fuel r fn (before, s)) s.
Proof.
  intros Hfn. induction fuel as [|fuel IH]; intros before s; [done|].
  cbn [replace_loop].
  destruct (matchAt r (before, s)) as [[[before' s'] c]|] eqn:E.
  - destruct (matchAt_spec (fun _ => True) r (before, s) _ _
                ltac:(by apply Forall_true) E)
      as (k & Ek & _).
    cbn [fst snd] in *. subst s. rewrite Hfn. cbn [app].
    apply sublist_inserts_l. apply IH.
  - cbn [snd]. destruct s as [|x s]; [done|]. apply sublist_skip. apply IH.
Qed.

(** X20: [filterCodeBlocks] only deletes: what it returns is the text
    with some runes left out, in the same order; and a text without a
    backtick is returned as it is. *)
Theorem filterCodeBlocks_only_deletes (text : gostring) :
  sublist (filterCodeBlocks text) text
  /\ (free (Z.eqb (R "`")) text -> filterCodeBlocks text = text).
Proof.
  split.
  - unfold filterCodeBlocks, ReplaceAllString. by apply replace_loop_sublist.
  - intros Hfree. unfold filterCodeBlocks.
    apply (ReplaceAllString_needs (Z.eqb (R "`"))); [done|].
    apply Needs_Cat_l. apply Needs_Class. intros c Hc. exact Hc.
Qed.

Lemma filterCodeBlocks_only_deletes_witness :
  filterCodeBlocks (G "hola mundo") = G "hola mundo".
Proof.
  apply (proj2 (filterCodeBlocks_only_deletes (G "hola mundo"))).
  unfold free. apply Forall_forall. intros x Hx.
  repeat (apply elem_of_cons in Hx as [->|Hx]; [reflexivity|]).
  by apply elem_of_nil in Hx.
Defined.

Lemma Forall_spaces_lit (s : gostring) :
  forallb (fun y => negb (perl_s y) || (y =? 32)) s = true ->
  Forall (fun y => perl_s y = true -> y = 32) s.
Proof.
  intros H. apply Forall_forall. intros y Hy Hs.
  rewrite forallb_forall in H. apply list_elem_of_In in Hy.
  apply H in Hy. rewrite Hs in Hy. by apply Z.eqb_eq in Hy.
Qed.

Lemma template_spaces_lit (t : list titem) :
  forallb (fun i => match i with
                    | TText s => forallb (fun y => negb (perl_s y) || (y =? 32)) s
                    | TGroup _ => true
                    end) t = true ->
  Forall (fun i => match i with
                   | TText s => Forall (fun y => perl_s y = true -> y = 32) s
                   | TGroup _ => True
                   end) t.
Proof.
  intros H. apply Forall_forall. intros i Hi.
  rewrite forallb_forall in H. apply list_elem_of_In in Hi.
  apply H in Hi. destruct i; [by apply Forall_spaces_lit | done].
Qed.

(** What [processLineBreaks] writes after it has collapsed the white
    space brings no line feed, tab, form feed or carriage return back. *)
Lemma processLineBreaks_spaces (text : gostring) :
  Forall (fun y => perl_s y = true -> y = 32) (processLineBreaks text).
Proof.
  unfold processLineBreaks. cbv zeta.
  apply ReplaceAllString_Forall; [by apply template_spaces_lit|].
  apply ReplaceAllStringFunc_Forall;
    [intros m _; by apply Forall_spaces_lit|].
  apply ReplaceAllString_Forall; [by apply template_spaces_lit|].
  apply ReplaceAllString_Forall; [by apply template_spaces_lit|].
  apply TrimSpace_Forall.
  apply (proj1 (ReplaceAllString_collapse _)).
Qed.

(** *** Runs of dots *)

Lemma run_Cat_Class (f : rune -> bool) (r : re) (b s : gostring) (c : caps) :
  run (Cat (Class f) r) (b, s) c
  = match s with
    | x :: s' => if f x then run r (x :: b, s') c else []
    | [] => []
    end.
Proof.
  destruct s as [|x s']; [done|]. cbn [run snd fst].
  destruct (f x); cbn [flat_map snd fst]; [apply app_nil_r | done].
Qed.

Lemma run_Star (g : bool) (a : re) (p : pos) (c : caps) :
  run (Star g a) p c = star_loop (run a) g (S (length p.2)) p c.
Proof. reflexivity. Qed.

Lemma leading_dropWhile (f : rune -> bool) (s : gostring) :
  leading f (dropWhile f s) = 0%nat.
Proof.
  induction s as [|x s IH]; [done|]. cbn [dropWhile].
  destruct (f x) eqn:E; [done|]. cbn [leading]. by rewrite E.
Qed.

Lemma length_dropWhile {A} (f : A -> bool) (l : list A) :
  (length (dropWhile f l) <= length l)%nat.
Proof.
  induction l as [|x l IH]; [done|]. cbn [dropWhile].
  destruct (f x); simpl; lia.
Qed.

Lemma length_dropWhile_leading (f : rune -> bool) (s : gostring) :
  (length (dropWhile f s) + leading f s = length s)%nat.
Proof.
  induction s as [|x s IH]; [done|]. cbn [dropWhile leading].
  destruct (f x); simpl; lia.
Qed.

Lemma runs_le_fewer (f : rune -> bool) (k : nat) (s : gostring) :
  forall cur cur', (cur' <= cur)%nat ->
    runs_le f k cur s = true -> runs_le f k cur' s = true.
Proof.
  induction s as [|x s IH]; intros cur cur' Hle H; [done|].
  cbn [runs_le] in *. destruct (f x); [|done].
  apply andb_true_iff in H as [H1 H2]. apply andb_true_iff. split.
  - apply Nat.leb_le in H1. apply Nat.leb_le. lia.
  - apply (IH (S cur)); [lia | done].
Qed.

Lemma runs_le_leading (f : rune -> bool) (k : nat) (s : gostring) :
  forall cur, runs_le f k cur s = true -> (cur + leading f s <= k \/ leading f s = 0)%nat.
Proof.
  induction s as [|x s IH]; intros cur H; [right; done|].
  cbn [runs_le leading] in *. destruct (f x); [|by right].
  apply andb_true_iff in H as [H1 H2]. apply Nat.leb_le in H1.
  left. destruct (IH _ H2) as [Hl|Hl]; lia.
Qed.

(** [f{4,}] matches at a run of four runes or more, and takes it
    whole. *)
Lemma matchAt_four_plus (f : rune -> bool) (b s : gostring) :
  ((leading f s < 4)%nat ->
   matchAt (Cat (Class f) (Cat (Class f) (Cat (Class f)
              (Cat (Class f) (Star true (Class f)))))) (b, s) = None)
  /\ ((4 <= leading f s)%nat ->
      exists b',
        matchAt (Cat (Class f) (Cat (Class f) (Cat (Class f)
                   (Cat (Class f) (Star true (Class f)))))) (b, s)
        = Some ((b', dropWhile f s), [])).
Proof.
  unfold matchAt. rewrite run_Cat_Class.
  destruct s as [|x1 s]; [split; [done | simpl; lia]|].
  cbn [leading dropWhile]. destruct (f x1); [|split; [done | lia]].
  rewrite run_Cat_Class.
  destruct s as [|x2 s]; [split; [done | simpl; lia]|].
  cbn [leading dropWhile]. destruct (f x2); [|split; [done | lia]].
  rewrite run_Cat_Class.
  destruct s as [|x3 s]; [split; [done | simpl; lia]|].
  cbn [leading dropWhile]. destruct (f x3); [|split; [done | lia]].
  rewrite run_Cat_Class.
  destruct s as [|x4 s]; [split; [done | simpl; lia]|].
  cbn [leading dropWhile]. destruct (f x4); [|split; [done | lia]].
  rewrite run_Star. cbn [snd].
  destruct (star_class_head f [] (S (length s)) (x4 :: x3 :: x2 :: x1 :: b) s
              ltac:(lia)) as (k & others & -> & Hs).
  cbn [snd length].
  assert (Hlt : (length (dropWhile f s) <? S (S (S (S (length s)))))%nat = true).
  { apply Nat.ltb_lt. pose proof (length_dropWhile f s). lia. }
  rewrite Hlt. split; [lia | intros _; by eexists].
Qed.

(** [f{3,}] does not match where fewer than three runes of [f] stand. *)
Lemma matchAt_three_plus_miss (f : rune -> bool) (b s : gostring) :
  (leading f s < 3)%nat ->
  matchAt (Cat (Class f) (Cat (Class f) (Cat (Class f) (Star true (Class f)))))
          (b, s) = None.
Proof.
  unfold matchAt. rewrite run_Cat_Class.
  destruct s as [|x1 s]; [done|].
  cbn [leading]. destruct (f x1); [|done].
  rewrite run_Cat_Class.
  destruct s as [|x2 s]; [done|].
  cbn [leading]. destruct (f x2); [|done].
  rewrite run_Cat_Class.
  destruct s as [|x3 s]; [done|].
  cbn [leading]. destruct (f x3); [lia | done].
Qed.

(** [f{2}] matches two runes of [f], and nothing else. *)
Lemma matchAt_two (f : rune -> bool) (b s : gostring) :
  matchAt (Cat (Class f) (Class f)) (b, s)
  = match s with
    | x1 :: x2 :: s' =>
      if f x1 && f x2 then Some ((x2 :: x1 :: b, s'), []) else None
    | _ => None
    end.
Proof.
  unfold matchAt. rewrite run_Cat_Class.
  destruct s as [|x1 [|x2 s]]; [done| |].
  - destruct (f x1); done.
  - destruct (f x1); [|done]. cbn [run snd fst andb].
    destruct (f x2); [|done]. cbn [snd length].
    assert (Hlt : (length s <? S (S (length s)))%nat = true)
      by (apply Nat.ltb_lt; lia).
    by rewrite Hlt.
Qed.

(** After runs of four or more have been replaced by three, no run is
    longer than three. *)
Lemma four_plus_runs (f : rune -> bool) (v : rune)
    (fn : gostring -> caps -> gostring) :
  f v = true -> (forall m c, fn m c = [v; v; v]) ->
  forall fuel before s cur,
    (length s < fuel)%nat -> (cur <= 3)%nat ->
    (leading f s = 0 \/ cur = 0 \/ cur + leading f s <= 3)%nat ->
    runs_le f 3 cur
      (replace_loop fuel
         (Cat (Class f) (Cat (Class f) (Cat (Class f)
            (Cat (Class f) (Star true (Class f)))))) fn (before, s)) = true.
Proof.
  intros Hv Hfn. induction fuel as [|fuel IH]; intros before s cur Hfuel Hcur Hpre;
    [lia|].
  cbn [replace_loop].
  destruct (matchAt_four_plus f before s) as [Hmiss Hhit].
  destruct (le_lt_dec 4 (leading f s)) as [Hn|Hn].
  - destruct (Hhit Hn) as (b' & ->). rewrite Hfn. cbn [app runs_le].
    rewrite Hv. assert (cur = 0%nat) as -> by lia.
    cbn [Nat.leb andb].
    apply IH; [|lia|left; apply leading_dropWhile].
    pose proof (length_dropWhile_leading f s). lia.
  - rewrite (Hmiss Hn). cbn [snd]. destruct s as [|x s]; [done|].
    cbn [runs_le leading] in *. destruct (f x).
    + apply andb_true_iff. split; [apply Nat.leb_le; lia|].
      apply IH; [simpl in Hfuel; lia | lia | lia].
    + apply IH; [simpl in Hfuel; lia | lia | lia].
Qed.

(** After pairs have been replaced by one rune, no run is longer than
    two. *)
Lemma two_runs (f : rune -> bool) (v : rune)
    (fn : gostring -> caps -> gostring) :
  f v = true -> (forall m c, fn m c = [v]) ->
  forall fuel before s cur,
    (length s < fuel)%nat ->
    runs_le f 3 0 s = true ->
    (cur = 0 \/ (cur = 1 /\ leading f s <= 1) \/ (cur <= 2 /\ leading f s = 0))%nat ->
    runs_le f 2 cur
      (replace_loop fuel (Cat (Class f) (Class f)) fn (before, s)) = true.
Proof.
  intros Hv Hfn. induction fuel as [|fuel IH]; intros before s cur Hfuel Hs Hpre;
    [lia|].
  cbn [replace_loop]. rewrite matchAt_two.
  destruct s as [|x1 s]; [done|].
  cbn [runs_le leading] in Hs, Hpre.
  destruct (f x1) eqn:E1.
  - apply andb_true_iff in Hs as [_ Hs].
    destruct s as [|x2 s].
    + cbn [snd replace_loop runs_le]. rewrite E1.
      destruct fuel; [simpl in Hfuel; lia|]. cbn [replace_loop].
      rewrite matchAt_two. cbn [snd runs_le].
      rewrite andb_true_r. apply Nat.leb_le. simpl in Hpre. lia.
    + cbn [runs_le leading] in Hs, Hpre. destruct (f x2) eqn:E2.
      * cbn [andb]. rewrite Hfn. cbn [app runs_le]. rewrite Hv.
        assert (cur = 0%nat) as -> by lia. cbn [Nat.leb andb].
        apply andb_true_iff in Hs as [_ Hs].
        apply IH; [simpl in Hfuel; lia | |].
        -- by apply (runs_le_fewer f 3 s 2 0); [lia|].
        -- right. left. split; [done|].
           destruct (runs_le_leading f 3 s 2 Hs); lia.
      * cbn [andb snd fst runs_le]. rewrite E1.
        apply andb_true_iff. split; [apply Nat.leb_le; lia|].
        apply IH; [simpl in Hfuel |- *; lia | |].
        -- cbn [runs_le]. by rewrite E2.
        -- right. right. cbn [leading]. rewrite E2. lia.
  - destruct s as [|x2 s]; cbn [andb snd fst runs_le]; rewrite E1;
      (apply IH; [simpl in Hfuel |- *; lia | done | by left]).
Qed.

(** Where no run is longer than two, [f{3,}] changes nothing. *)
Lemma three_plus_id (f : rune -> bool) (fn : gostring -> caps -> gostring) :
  forall fuel before s cur,
    runs_le f 2 cur s = true ->
    replace_loop fuel
      (Cat (Class f) (Cat (Class f) (Cat (Class f) (Star true (Class f)))))
      fn (before, s) = s.
Proof.
  induction fuel as [|fuel IH]; intros before s cur Hs; [done|].
  cbn [replace_loop]. rewrite matchAt_three_plus_miss.
  - cbn [snd]. destruct s as [|x s]; [done|].
    cbn [runs_le] in Hs. destruct (f x).
    + apply andb_true_iff in Hs as [_ Hs]. by rewrite (IH _ _ _ Hs).
    + by rewrite (IH _ _ _ Hs).
  - destruct (runs_le_leading f 2 s cur Hs); lia.
Qed.

Lemma runs_le_Contains (v : rune) (s : gostring) :
  forall cur, runs_le (Z.eqb v) 2 cur s = true -> Contains s [v; v; v] = false.
Proof.
  induction s as [|x s IH]; intros cur H; [done|].
  cbn [Contains]. apply orb_false_iff. split.
  - destruct (runs_le_leading _ _ _ _ H) as [Hl|Hl].
    + destruct s as [|y [|z s]]; cbn [HasPrefix]; try (by rewrite ?andb_false_r).
      cbn [leading] in Hl. rewrite !(Z.eqb_sym _ v).
      destruct (v =? x); [|done]. destruct (v =? y); [|done].
      destruct (v =? z); [lia | done].
    + cbn [leading] in Hl. cbn [HasPrefix]. rewrite (Z.eqb_sym x v).
      destruct (v =? x); [done|]. done.
  - cbn [runs_le] in H. destruct (v =? x).
    + apply andb_true_iff in H as [_ H]. by apply (IH _ H).
    + by apply (IH _ H).
Qed.

(** X21: the text that [processLineBreaks] returns holds no line feed,
    tab, form feed or carriage return, and nowhere three dots in a row:
    no ellipsis written with dots is left in it. *)
Theorem processLineBreaks_no_line_break_no_ellipsis (text : gostring) :
  Forall (fun y => perl_s y = true -> y = 32) (processLineBreaks text)
  /\ Contains (processLineBreaks text) (G "...") = false.
Proof.
  split; [apply processLineBreaks_spaces|].
  unfold processLineBreaks. cbv zeta.
  match goal with
  | |- Contains
         (ReplaceAllString _
            (ReplaceAllStringFunc _ (ReplaceAllString _ ?t _) _) _) _ = _ =>
    generalize t
  end.
  intros t. set (dot := Z.eqb (R ".")).
  assert (HA : runs_le dot 3 0
                 (ReplaceAllString
                    (cat [chr "."; chr "."; chr "."; chr "."; Star true (chr ".")])
                    t [TText (G "...")]) = true).
  { unfold ReplaceAllString.
    apply (four_plus_runs dot (R ".")); [done | done | lia | lia | by right; left]. }
  set (a := ReplaceAllString _ t _) in *. clearbody a.
  assert (HB : runs_le dot 2 0
                 (ReplaceAllStringFunc (cat [chr "."; chr "."]) a
                    (fun _ => G ".")) = true).
  { unfold ReplaceAllStringFunc.
    apply (two_runs dot (R ".")); [done | done | lia | done | by left]. }
  set (b := ReplaceAllStringFunc _ a _) in *. clearbody b.
  unfold ReplaceAllString.
  rewrite (three_plus_id dot _ _ _ b 0 HB).
  by apply (runs_le_Contains (R ".") b 0).
Qed.

Lemma ReplaceAllString_nil (r : re) (t : list titem) :
  ReplaceAllString r [] t = [].
Proof.
  unfold ReplaceAllString. cbn [length replace_loop].
  destruct (matchAt r ([], [])) as [[[before' s'] c]|] eqn:E; [|done].
  destruct (matchAt_spec (fun _ => True) r ([], []) _ _
              ltac:(by apply Forall_true) E) as (k & Ek & Hne & _).
  cbn [snd] in Ek. symmetry in Ek. by apply app_eq_nil in Ek as [? _].
Qed.

Section ReplacementsFacts.
Variable foldCase : rune -> rune -> bool.
Variable parseTemplate : gostring -> list titem.

Lemma applyReplacement_nil (replacement : list gostring) :
  applyReplacement foldCase parseTemplate [] replacement = [].
Proof.
  destruct replacement as [|find [|replace rest]]; [done..|].
  unfold applyReplacement. destruct (str_eqb find []); [done|].
  repeat (destruct (_ : bool)); apply ReplaceAllString_nil.
Qed.

Lemma foldl_applyReplacement_nil (replacements : list (list gostring)) :
  foldl (applyReplacement foldCase parseTemplate) [] replacements = [].
Proof.
  induction replacements as [|r rs IH]; [done|].
  cbn [foldl]. by rewrite applyReplacement_nil.
Qed.

(** X22: the replacements are applied one after the other: applying a
    list of replacements is applying its first part and then, to the
    result, the rest. *)
Theorem applyReplacements_app (text : gostring)
    (rs1 rs2 : list (list gostring)) :
  applyReplacements foldCase parseTemplate text (rs1 ++ rs2)
  = applyReplacements foldCase parseTemplate
      (applyReplacements foldCase parseTemplate text rs1) rs2.
Proof.
  unfold applyReplacements.
  destruct (decide (text = [])) as [->|Hne]; [done|].
  assert (E : str_eqb text [] = false)
    by (unfold str_eqb; by apply bool_decide_eq_false_2).
  rewrite E. cbn [orb].
  destruct rs1 as [|r rs1].
  { cbn [app length Nat.eqb]. by rewrite E. }
  change (length ((r :: rs1) ++ rs2) =? 0)%nat with false.
  change (length (r :: rs1) =? 0)%nat with false. cbv iota.
  rewrite foldl_app.
  set (t' := foldl _ text (r :: rs1)).
  destruct (decide (t' = [])) as [->|Hne'].
  { by rewrite foldl_applyReplacement_nil. }
  assert (E' : str_eqb t' [] = false)
    by (unfold str_eqb; by apply bool_decide_eq_false_2).
  rewrite E'. cbn [orb]. by destruct rs2.
Qed.

(** X23: whatever the replacements of the model, the text that
    [filterTextSegment] returns has no white space at its ends and single
    spaces only. *)
Theorem filterTextSegment_tidy (textSegment : gostring)
    (modelReplacements : list (list gostring)) :
  isTrimmed (filterTextSegment foldCase parseTemplate textSegment
               modelReplacements)
  /\ singleSpaced (filterTextSegment foldCase parseTemplate textSegment
                     modelReplacements).
Proof.
  unfold filterTextSegment. cbv zeta. split.
  - apply TrimSpace_isTrimmed.
  - apply singleSpaced_TrimSpace, ReplaceAllString_collapse.
Qed.

(** X24: a replacement whose text to find is a line feed never applies
    in [filterTextSegment], for [processLineBreaks] leaves no line feed:
    the entry can be left out. *)
Theorem filterTextSegment_line_feed_entry (textSegment replace : gostring)
    (rest : list gostring) (modelReplacements : list (list gostring)) :
  (forall x, foldCase 10 x = true -> x = 10) ->
  filterTextSegment foldCase parseTemplate textSegment
    (([10] :: replace :: rest) :: modelReplacements)
  = filterTextSegment foldCase parseTemplate textSegment modelReplacements.
Proof.
  intros Hfold. unfold filterTextSegment. cbv zeta.
  set (t := processLineBreaks _).
  assert (Hfree : free (Z.eqb 10) t).
  { subst t. unfold free. eapply Forall_impl;
      [apply processLineBreaks_spaces|].
    intros y Hy. cbn beta. destruct (10 =? y) eqn:E; [|done].
    apply Z.eqb_eq in E. subst y. by specialize (Hy eq_refl). }
  clearbody t.
  assert (Hstep : applyReplacement foldCase parseTemplate t
                    ([10] :: replace :: rest) = t).
  { unfold applyReplacement.
    change (str_eqb [10] []) with false.
    change (HasSuffix [10] (G ".")) with false.
    change (Contains [10] (G " ")) with false.
    change (isNumber [10]) with false. cbv iota.
    apply (ReplaceAllString_needs (Z.eqb 10)); [done|].
    apply Needs_Cap, Needs_Cat_r, Needs_Cat_l. apply Needs_Class.
    intros c Hc. apply Hfold in Hc. subst c. reflexivity. }
  f_equal. f_equal. cbn [length Nat.ltb Nat.leb].
  unfold applyReplacements. cbn [length Nat.eqb foldl]. rewrite Hstep.
  rewrite orb_false_r.
  destruct modelReplacements as [|r rs].
  - cbn [foldl length Nat.ltb Nat.leb]. by destruct (str_eqb t []).
  - cbn [length Nat.ltb Nat.leb Nat.eqb]. by rewrite orb_false_r.
Qed.
End ReplacementsFacts.

(** ** Rewriting a WAV file under another name *)

Lemma String_length_append (a b : string) :
  String.length (a +:+ b) = (String.length a + String.length b)%nat.
Proof. induction a as [|c a IH]; [done|]. simpl. by rewrite IH. Qed.

Lemma String_length_substring (s : string) :
  forall n, (n <= String.length s)%nat ->
            String.length (substring 0 n s) = n.
Proof.
  induction s as [|c s IH]; intros n Hn.
  - simpl in Hn. by replace n with 0%nat by lia.
  - destruct n as [|n]; [done|]. simpl in *. rewrite IH; [done | lia].
Qed.

Lemma substring_append (a b : string) :
  substring 0 (String.length a) (a +:+ b) = a.
Proof.
  induction a as [|c a IH]; [by destruct b|]. simpl. by rewrite IH.
Qed.

Section ConversionFacts.
Variable canCreate : string -> bool.
Variable canEncode : WAVHeader -> list Z -> bool.

(** X25: when [optimizeWAV] returns a path, the path differs from the
    one given and names a file with the header of the given file and its
    samples cut to whole frames (all of them when their number is a
    multiple of the channel count); the given file is gone and no other
    file is touched. *)
Theorem optimizeWAV_moves_file (wavPath p : string)
    (fs fs' : gmap string content) :
  optimizeWAV canCreate canEncode wavPath fs = (Returned p, fs') ->
  p <> wavPath
  /\ (exists header Data,
        let channels := NumChannels header in
        let frames :=
          Z.of_nat (length Data) / (if channels =? 0 then 1 else channels) in
        fs !! wavPath = Some (Wav header Data)
        /\ fs' !! p = Some (Wav header (take (Z.to_nat (frames * channels)) Data))
        /\ (0 < channels -> Z.of_nat (length Data) mod channels = 0 ->
            fs' !! p = Some (Wav header Data)))
  /\ fs' !! wavPath = None
  /\ (forall q, q <> p -> q <> wavPath -> fs' !! q = fs !! q).
Proof.
  intros H. unfold optimizeWAV, readWAVFile, writeWAVFile in H.
  destruct (fs !! wavPath) as [[header Data|]|] eqn:Hw; [|by inversion H..].
  destruct (String.length wavPath <? 4)%nat eqn:Hlen; [by inversion H|].
  apply Nat.ltb_ge in Hlen.
  set (path := substring 0 (String.length wavPath - 4) wavPath +:+ "_opt.wav") in *.
  destruct (canCreate path); [|by inversion H].
  destruct (canEncode header Data); [|by inversion H].
  assert (Hp : p = path) by (by inversion H).
  assert (Hfs : fs' = delete wavPath
                        (<[path := Wav header (writtenData header Data)]> fs))
    by (by inversion H).
  clear H. subst p fs'.
  assert (Hne : path <> wavPath).
  { intros E. apply (f_equal String.length) in E. subst path.
    rewrite String_length_append, String_length_substring in E by lia.
    simpl in E. lia. }
  split; [done|]. split; [|split].
  - exists header, Data. cbv zeta.
    assert (Hp : delete wavPath
                   (<[path := Wav header (writtenData header Data)]> fs) !! path
                 = Some (Wav header (writtenData header Data))).
    { rewrite lookup_delete_ne by done. by rewrite lookup_insert_eq. }
    split; [done|]. split; [exact Hp|].
    intros Hpos Hmod. rewrite Hp. by rewrite writtenData_whole.
  - by rewrite lookup_delete_eq.
  - intros q Hq1 Hq2. rewrite lookup_delete_ne by done.
    by rewrite lookup_insert_ne.
Qed.

(** X26: when [convertToMp3Native] returns a path, the given file is
    gone and no other file is touched; the path returned is the given
    one exactly when the given one ends in ".mp3", and then it names no
    file; otherwise it names a file with the header of the given file
    and its samples cut to whole frames (all of them when their number
    is a multiple of the channel count). *)
Theorem convertToMp3Native_returned_file (wavPath p : string)
    (fs fs' : gmap string content) :
  convertToMp3Native canCreate canEncode wavPath fs = (Returned p, fs') ->
  (p = wavPath <-> exists base, wavPath = base +:+ ".mp3")
  /\ fs' !! wavPath = None
  /\ (p <> wavPath ->
      exists header Data,
        let channels := NumChannels header in
        let frames :=
          Z.of_nat (length Data) / (if channels =? 0 then 1 else channels) in
        fs !! wavPath = Some (Wav header Data)
        /\ fs' !! p = Some (Wav header (take (Z.to_nat (frames * channels)) Data))
        /\ (0 < channels -> Z.of_nat (length Data) mod channels = 0 ->
            fs' !! p = Some (Wav header Data)))
  /\ (forall q, q <> p -> q <> wavPath -> fs' !! q = fs !! q).
Proof.
  intros H. unfold convertToMp3Native, readWAVFile, writeWAVFile in H.
  destruct (fs !! wavPath) as [[header Data|]|] eqn:Hw; [|by inversion H..].
  destruct (String.length wavPath <? 4)%nat eqn:Hlen; [by inversion H|].
  apply Nat.ltb_ge in Hlen.
  set (path := substring 0 (String.length wavPath - 4) wavPath +:+ ".mp3") in *.
  destruct (canCreate path); [|by inversion H].
  destruct (canEncode header Data); [|by inversion H].
  assert (Hp : p = path) by (by inversion H).
  assert (Hfs : fs' = delete wavPath
                        (<[path := Wav header (writtenData header Data)]> fs))
    by (by inversion H).
  clear H. subst p fs'.
  split; [|split; [|split]].
  - split.
    + intros E. exists (substring 0 (String.length wavPath - 4) wavPath).
      by rewrite <- E at 1.
    + intros [base E]. subst path. rewrite E at 1 2.
      rewrite String_length_append. simpl String.length.
      replace (String.length base + 4 - 4)%nat with (String.length base) by lia.
      rewrite substring_append. by rewrite E.
  - by rewrite lookup_delete_eq.
  - intros Hne. exists header, Data. cbv zeta.
    assert (Hp : delete wavPath
                   (<[path := Wav header (writtenData header Data)]> fs) !! path
                 = Some (Wav header (writtenData header Data))).
    { rewrite lookup_delete_ne by done. by rewrite lookup_insert_eq. }
    split; [done|]. split; [exact Hp|].
    intros Hpos Hmod. rewrite Hp. by rewrite writtenData_whole.
  - intros q Hq1 Hq2. rewrite lookup_delete_ne by done.
    by rewrite lookup_insert_ne.
Qed.
End ConversionFacts.

Lemma optimizeWAV_moves_file_witness :
  let fs : gmap string content := <["a.wav" := Wav hdr22050 [1; 2]]> ∅ in
  (optimizeWAV (fun _ => true) (fun _ _ => true) "a.wav" fs).2 !! "a.wav"
  = None.
Proof.
  intros fs.
  destruct (optimizeWAV (fun _ => true) (fun _ _ => true) "a.wav" fs)
    as [o fs'] eqn:E.
  assert (Ho : o = Returned "a_opt.wav")
    by (apply (f_equal fst) in E; vm_compute in E; by subst o).
  subst o.
  exact (proj1 (proj2 (proj2 (optimizeWAV_moves_file _ _ _ _ _ _ E)))).
Defined.

Lemma convertToMp3Native_returned_file_witness :
  let fs : gmap string content := <["a.mp3" := Wav hdr22050 [1; 2]]> ∅ in
  (convertToMp3Native (fun _ => true) (fun _ _ => true) "a.mp3" fs).2 !! "a.mp3"
  = None.
Proof.
  intros fs.
  destruct (convertToMp3Native (fun _ => true) (fun _ _ => true) "a.mp3" fs)
    as [o fs'] eqn:E.
  assert (Ho : o = Returned "a.mp3")
    by (apply (f_equal fst) in E; vm_compute in E; by subst o).
  subst o.
  exact (proj1 (proj2 (convertToMp3Native_returned_file _ _ _ _ _ _ E))).
Defined.

Lemma foldEq_line_feed (x : rune) : foldEq 10 x = true -> x = 10.
Proof.
  unfold foldEq. cbn. rewrite !orb_false_r. apply Z.eqb_eq.
Qed.

Lemma filterTextSegment_line_feed_entry_witness :
  filterTextSegment foldEq (fun s => [TText s]) (G "uno" ++ [10] ++ G "dos")
    [[[10]; G " . "]; [G "*"; []]; [G ")"; G ","]]
  = filterTextSegment foldEq (fun s => [TText s]) (G "uno" ++ [10] ++ G "dos")
      [[G "*"; []]; [G ")"; G ","]].
Proof.
  apply (filterTextSegment_line_feed_entry foldEq (fun s => [TText s])
           (G "uno" ++ [10] ++ G "dos") (G " . ") []
           [[G "*"; []]; [G ")"; G ","]]).
  exact foldEq_line_feed.
Defined.

(** ** The image of a model card *)

Lemma HasPrefix_lookup (m : gostring) :
  forall s i x, HasPrefix s m = true -> m !! i = Some x -> s !! i = Some x.
Proof.
  induction m as [|c m IH]; intros s i x H Hi; [done|].
  destruct s as [|d s]; [done|]. cbn [HasPrefix] in H.
  apply andb_true_iff in H as [Hc H]. apply Z.eqb_eq in Hc. subst d.
  destruct i as [|i]; [done|]. cbn in Hi |- *. by apply (IH s i x).
Qed.

Lemma HasPrefix_app (m s : gostring) : HasPrefix (m ++ s) m = true.
Proof.
  induction m as [|c m IH]; [by destruct s|].
  cbn [app HasPrefix]. by rewrite Z.eqb_refl.
Qed.

Lemma Contains_app (a m b : gostring) : Contains (a ++ m ++ b) m = true.
Proof.
  induction a as [|c a IH].
  - cbn [app]. destruct (m ++ b) eqn:E; cbn [Contains];
      rewrite <- E, HasPrefix_app; done.
  - cbn [app Contains]. rewrite IH. by rewrite orb_true_r.
Qed.

(** The mark "base64," does not begin inside a text without a comma
    that comes before it. *)
Lemma HasPrefix_before_mark (c : rune) (p payload : gostring) :
  Forall (fun y => y <> R ",") (c :: p) ->
  HasPrefix ((c :: p) ++ G "base64," ++ payload) (G "base64,") = false.
Proof.
  intros Hp. destruct (HasPrefix _ _) eqn:E; [|done]. exfalso.
  pose proof (HasPrefix_lookup (G "base64,") _ 6%nat (R ",") E eq_refl) as H.
  destruct (decide (6 < length (c :: p))%nat) as [Hlt|Hge].
  - rewrite lookup_app_l in H by done.
    rewrite Forall_forall in Hp. apply (Hp (R ",")); [|done].
    by eapply list_elem_of_lookup_2.
  - rewrite lookup_app_r in H by lia.
    assert (Hj : (6 - length (c :: p) < 6)%nat) by (simpl; lia).
    destruct (6 - length (c :: p))%nat as [|[|[|[|[|[|j]]]]]];
      [discriminate H..|lia].
Qed.

Lemma SplitN2_mark (prefix payload : gostring) :
  Forall (fun y => y <> R ",") prefix ->
  forall before,
    SplitN2 (prefix ++ G "base64," ++ payload) (G "base64,") before
    = [rev before ++ prefix; payload].
Proof.
  induction prefix as [|c p IH]; intros Hp before.
  - cbn [app]. rewrite app_nil_r.
    assert (E : G "base64," ++ payload = R "b" :: (G "ase64," ++ payload))
      by reflexivity.
    rewrite E. cbn [SplitN2]. rewrite <- E.
    rewrite HasPrefix_app. by rewrite drop_app_length.
  - pose proof (HasPrefix_before_mark c p payload Hp) as Hm.
    cbn [app SplitN2] in *. rewrite Hm.
    apply Forall_cons in Hp as [_ Hp]. rewrite (IH Hp).
    cbn [rev]. by rewrite <- app_assoc.
Qed.

Lemma SplitN2_suffix (sep : gostring) :
  forall s before,
    length (SplitN2 s sep before) = 2%nat ->
    exists k, s = k ++ nth 1 (SplitN2 s sep before) [].
Proof.
  induction s as [|c s IH]; intros before Hlen; [done|].
  cbn [SplitN2] in *. destruct (HasPrefix (c :: s) sep).
  - exists (take (length sep) (c :: s)). cbn [nth]. by rewrite take_drop.
  - destruct (IH (c :: before) Hlen) as (k & Hk).
    exists (c :: k). cbn [app]. by rewrite <- Hk.
Qed.

(** X27: [processImageData] strips the header of a data URI: of a text
    made of a header without a comma, the mark "base64," and a content,
    it returns the content, whatever the content holds; and what it
    returns is always the end of the text it was given. *)
Theorem processImageData_data_uri (header payload : gostring) :
  Forall (fun y => y <> R ",") header ->
  processImageData (header ++ G "base64," ++ payload) = payload
  /\ forall imageData,
       exists k, imageData = k ++ processImageData imageData.
Proof.
  intros Hh. split.
  - unfold processImageData. rewrite Contains_app.
    rewrite (SplitN2_mark header payload Hh []). done.
  - intros imageData. unfold processImageData.
    destruct (Contains imageData (G "base64,")); [|by exists []].
    cbv zeta. destruct (length _ =? 2)%nat eqn:E; [|by exists []].
    apply Nat.eqb_eq in E. by apply SplitN2_suffix.
Qed.

Lemma processImageData_data_uri_witness :
  processImageData (G "data:image/png;" ++ G "base64," ++ G "iVBORw0KGgo=")
  = G "iVBORw0KGgo=".
Proof.
  apply (processImageData_data_uri (G "data:image/png;") (G "iVBORw0KGgo=")).
  apply Forall_forall. intros x Hx.
  repeat (apply elem_of_cons in Hx as [->|Hx]; [discriminate|]).
  by apply elem_of_nil in Hx.
Defined.

(** ** Short fragments *)














